(** * threed-beam-fea: the element kernel, the assembler and the solve pipeline

    A shallow embedding of [src/threed_beam_fea.cpp] (with the containers of
    [include/containers.h]) and the properties of it that the specification
    states, followed by the helpers of the report in [src/summary.cpp], the
    readers of a model in [src/setup.cpp] and the table writer of
    [include/csv_parser.h], with further properties of the code.

    Conventions of the embedding.
    - A C++ [double] is a real number of [R]: the development is about the
      exact arithmetic the floating-point code approximates, away from
      divisions by zero.
    - [unsigned int] is a [Z] reduced modulo 2^32 after every operation; an
      [int] is a [Z]; a loop counter that only counts is a [nat].
    - A [std::vector] is a [list]; reading it out of range is undefined
      behaviour in C++ and [None] here.
    - A dense 12x12 Eigen matrix is its coefficient function; a sparse Eigen
      matrix is the list of the coefficients it stores.
    - Wall-clock timings, console output and the files written at the end of
      [solve] are not part of the model.
    - The JSON document, the CSV tokenizer and the formatting of a number
      are libraries outside the repository: the document is the map from a
      member name to what is asked of it, the parser and the formatter are
      parameters. A thrown [std::runtime_error] is a value of [Throw]. *)

From Stdlib Require Import String Ascii.
From Stdlib Require Import Reals Lra Lia ZArith List Bool RNsatz.
Import ListNotations.

Set Implicit Arguments.

Open Scope R_scope.

(* ================================================================== *)
(** ** Machine integers *)

Module UInt.

Definition modulus : Z := 2 ^ 32.

(** Conversion of an integer value to [unsigned int]. *)
Definition wrap (z : Z) : Z := (z mod modulus)%Z.

Definition add (a b : Z) : Z := wrap (a + b).
Definition mul (a b : Z) : Z := wrap (a * b).

(** Conversion of an unsigned or [size_t] value to [int] (two's
    complement truncation). *)
Definition to_int (z : Z) : Z :=
  let w := wrap z in
  if (w <? 2 ^ 31)%Z then w else (w - modulus)%Z.

Definition INT_MAX : Z := 2 ^ 31 - 1.

End UInt.

(** [DOF::NUM_DOFS], the last enumerator of [enum DOF]. *)
Definition NUM_DOFS : Z := 6.

(* ================================================================== *)
(** ** Containers ([include/containers.h]) *)

(** [Eigen::Vector3d]; a [Node] is one. *)
Record Vector3d : Type := Vec3 { vx : R; vy : R; vz : R }.

Definition Node : Type := Vector3d.

Module Vector3d_ops.

Definition sub (a b : Vector3d) : Vector3d :=
  Vec3 (vx a - vx b) (vy a - vy b) (vz a - vz b).

Definition dot (a b : Vector3d) : R :=
  vx a * vx b + vy a * vy b + vz a * vz b.

Definition cross (a b : Vector3d) : Vector3d :=
  Vec3 (vy a * vz b - vz a * vy b)
       (vz a * vx b - vx a * vz b)
       (vx a * vy b - vy a * vx b).

Definition squaredNorm (a : Vector3d) : R := dot a a.

Definition norm (a : Vector3d) : R := sqrt (squaredNorm a).

Definition div (a : Vector3d) (s : R) : Vector3d :=
  Vec3 (vx a / s) (vy a / s) (vz a / s).

(** [normalize()] and [normalized()]: division by the norm. *)
Definition normalized (a : Vector3d) : Vector3d := div a (norm a).

(** [v(k)] for [k] = 0, 1, 2. *)
Definition coord (a : Vector3d) (k : nat) : R :=
  match k with O => vx a | 1%nat => vy a | _ => vz a end.

End Vector3d_ops.

Record BC : Type := mkBC { bc_node : Z; bc_dof : Z; bc_value : R }.

Record Force : Type := mkForce { f_node : Z; f_dof : Z; f_value : R }.

Record Props : Type := mkProps {
  EA : R; EIz : R; EIy : R; GJ : R; normal_vec : Vector3d }.

Record Tie : Type := mkTie {
  node_number_1 : Z; node_number_2 : Z; lmult : R; rmult : R }.

Record Term : Type := mkTerm {
  term_node_number : Z; term_dof : Z; coefficient : R }.

Record Equation : Type := mkEquation { terms : list Term }.

(** [Job]: the node list, the connectivity ([Eigen::Vector2i] per element,
    two [int]s) and the properties of each element. *)
Record Job : Type := mkJob {
  nodes : list Node;
  elems : list (Z * Z);
  props : list Props }.

(** [v[k]] on a [std::vector] with an [int] index [k]. *)
Definition at_index {A : Type} (v : list A) (k : Z) : option A :=
  if (k <? 0)%Z then None else nth_error v (Z.to_nat k).

(* ================================================================== *)
(** ** Dense 12x12 matrices ([LocalMatrix]) *)

Definition LocalMatrix : Type := nat -> nat -> R.

Definition setZero : LocalMatrix := fun _ _ => 0.

(** [M(r, c)] with literal indices. *)
Notation "M @[ r , c ]" := (M r%nat c%nat) (at level 1, only parsing).

(** [M(i, j) = v]. *)
Definition mset (M : LocalMatrix) (i j : nat) (v : R) : LocalMatrix :=
  fun r c => if ((r =? i) && (c =? j))%nat then v else M r c.

(** One assignment [M(i, j) = v], as data. *)
Definition W (i j : nat) (v : R) : nat * nat * R := (i, j, v).

(** A run of assignments [M(i, j) = v], first to last. *)
Definition assign (M : LocalMatrix) (ws : list (nat * nat * R)) : LocalMatrix :=
  fold_left (fun K w => mset K (fst (fst w)) (snd (fst w)) (snd w)) ws M.

Fixpoint sum_upto (n : nat) (f : nat -> R) : R :=
  match n with
  | O => 0
  | S k => sum_upto k f + f k
  end.

(** Product of two 12x12 matrices. *)
Definition mmul (A B : LocalMatrix) : LocalMatrix :=
  fun r c => sum_upto 12 (fun k => A r k * B k c).

Definition transpose (A : LocalMatrix) : LocalMatrix := fun r c => A c r.

Definition identity : LocalMatrix :=
  fun r c => if (r =? c)%nat then 1 else 0.

(* ================================================================== *)
(** ** The element kernel ([GlobalStiffAssembler]) *)

Record GlobalStiffAssembler : Type := mkAssembler {
  Kelem : LocalMatrix;
  Klocal : LocalMatrix;
  Aelem : LocalMatrix;
  AelemT : LocalMatrix }.

(** The default constructor: every member matrix is [setZero]. *)
Definition GlobalStiffAssembler_new : GlobalStiffAssembler :=
  mkAssembler setZero setZero setZero setZero.

(** [inline double norm(const Node &n1, const Node &n2)]. *)
Definition norm (n1 n2 : Node) : R :=
  Vector3d_ops.norm (Vector3d_ops.sub n2 n1).

(** The assignments of [calcAelem] to [Aelem], in source order. *)
Definition Aelem_writes (nx ny nz : Vector3d) : list (nat * nat * R) :=
  [ W 0 0 (vx nx); W 0 1 (vy nx); W 0 2 (vz nx);
    W 1 0 (vx ny); W 1 1 (vy ny); W 1 2 (vz ny);
    W 2 0 (vx nz); W 2 1 (vy nz); W 2 2 (vz nz);
    W 3 3 (vx nx); W 3 4 (vy nx); W 3 5 (vz nx);
    W 4 3 (vx ny); W 4 4 (vy ny); W 4 5 (vz ny);
    W 5 3 (vx nz); W 5 4 (vy nz); W 5 5 (vz nz);
    W 6 6 (vx nx); W 6 7 (vy nx); W 6 8 (vz nx);
    W 7 6 (vx ny); W 7 7 (vy ny); W 7 8 (vz ny);
    W 8 6 (vx nz); W 8 7 (vy nz); W 8 8 (vz nz);
    W 9 9 (vx nx); W 9 10 (vy nx); W 9 11 (vz nx);
    W 10 9 (vx ny); W 10 10 (vy ny); W 10 11 (vz ny);
    W 11 9 (vx nz); W 11 10 (vy nz); W 11 11 (vz nz) ].

(** The assignments of [calcAelem] to [AelemT], in source order. *)
Definition AelemT_writes (nx ny nz : Vector3d) : list (nat * nat * R) :=
  [ W 0 0 (vx nx); W 0 1 (vx ny); W 0 2 (vx nz);
    W 1 0 (vy nx); W 1 1 (vy ny); W 1 2 (vy nz);
    W 2 0 (vz nx); W 2 1 (vz ny); W 2 2 (vz nz);
    W 3 3 (vx nx); W 3 4 (vx ny); W 3 5 (vx nz);
    W 4 3 (vy nx); W 4 4 (vy ny); W 4 5 (vy nz);
    W 5 3 (vz nx); W 5 4 (vz ny); W 5 5 (vz nz);
    W 6 6 (vx nx); W 6 7 (vx ny); W 6 8 (vx nz);
    W 7 6 (vy nx); W 7 7 (vy ny); W 7 8 (vy nz);
    W 8 6 (vz nx); W 8 7 (vz ny); W 8 8 (vz nz);
    W 9 9 (vx nx); W 9 10 (vx ny); W 9 11 (vx nz);
    W 10 9 (vy nx); W 10 10 (vy ny); W 10 11 (vy nz);
    W 11 9 (vz nx); W 11 10 (vz ny); W 11 11 (vz nz) ].

(** [calcAelem]: the local z direction is the cross product divided by its
    squared norm ([dlz]); no test is made on [dlz]. *)
Definition calcAelem (st : GlobalStiffAssembler) (nx ny : Vector3d)
  : GlobalStiffAssembler :=
  let nz := Vector3d_ops.cross nx ny in
  let dlz := Vector3d_ops.squaredNorm nz in
  let nz := Vector3d_ops.div nz dlz in
  mkAssembler (Kelem st) (Klocal st)
              (assign (Aelem st) (Aelem_writes nx ny nz))
              (assign (AelemT st) (AelemT_writes nx ny nz)).

(** How a call ends: C++ code returns or leaves by an exception. *)
Inductive outcome (A : Type) : Type :=
| Returned (a : A)
| Thrown (what : nat).

Arguments Returned {A} a.
Arguments Thrown {A} what.

(** A call of [calcAelem]: its body has no [throw] and calls nothing that
    throws, so it returns. *)
Definition calcAelem_call (st : GlobalStiffAssembler) (nx ny : Vector3d)
  : outcome GlobalStiffAssembler :=
  Returned (calcAelem st nx ny).

(** The assignments of [calcKelem] to [Klocal], in source order. *)
Definition Klocal_writes (EA EIz EIy GJ length : R) : list (nat * nat * R) :=
  let tmpEA := EA / length in
  let tmpGJ := GJ / length in
  let tmp12z := 12 * EIz / (length * length * length) in
  let tmp6z := 6 * EIz / (length * length) in
  let tmp1z := EIz / length in
  let tmp12y := 12 * EIy / (length * length * length) in
  let tmp6y := 6 * EIy / (length * length) in
  let tmp1y := EIy / length in
  [ W 0 0 (tmpEA); W 0 6 (- tmpEA);
    W 1 1 (tmp12z); W 1 5 (tmp6z); W 1 7 (- tmp12z); W 1 11 (tmp6z);
    W 2 2 (tmp12y); W 2 4 (- tmp6y); W 2 8 (- tmp12y); W 2 10 (- tmp6y);
    W 3 3 (tmpGJ); W 3 9 (- tmpGJ);
    W 4 2 (- tmp6y); W 4 4 (4 * tmp1y); W 4 8 (tmp6y); W 4 10 (2 * tmp1y);
    W 5 1 (tmp6z); W 5 5 (4 * tmp1z); W 5 7 (- tmp6z); W 5 11 (2 * tmp1z);
    W 6 0 (- tmpEA); W 6 6 (tmpEA);
    W 7 1 (- tmp12z); W 7 5 (- tmp6z); W 7 7 (tmp12z); W 7 11 (- tmp6z);
    W 8 2 (- tmp12y); W 8 4 (tmp6y); W 8 8 (tmp12y); W 8 10 (tmp6y);
    W 9 3 (- tmpGJ); W 9 9 (tmpGJ);
    W 10 2 (- tmp6y); W 10 4 (2 * tmp1y); W 10 8 (tmp6y); W 10 10 (4 * tmp1y);
    W 11 1 (tmp6z); W 11 5 (2 * tmp1z); W 11 7 (- tmp6z); W 11 11 (4 * tmp1z)
  ].

(** [calcKelem(i, job)]. [None] when [job.props[i]], [job.elems[i]] or one
    of the two nodes is read out of range. *)
Definition calcKelem (st : GlobalStiffAssembler) (i : nat) (job : Job)
  : option GlobalStiffAssembler :=
  match nth_error (props job) i, nth_error (elems job) i with
  | Some pr, Some (nn1, nn2) =>
    match at_index (nodes job) nn1, at_index (nodes job) nn2 with
    | Some p1, Some p2 =>
      let length := norm p1 p2 in
      let Klocal' :=
        assign (Klocal st) (Klocal_writes (EA pr) (EIz pr) (EIy pr) (GJ pr) length) in
      let nx := Vector3d_ops.normalized (Vector3d_ops.sub p2 p1) in
      let ny := Vector3d_ops.normalized (normal_vec pr) in
      let st1 := calcAelem (mkAssembler (Kelem st) Klocal' (Aelem st) (AelemT st)) nx ny in
      Some (mkAssembler (mmul (mmul (AelemT st1) (Klocal st1)) (Aelem st1))
                        (Klocal st1) (Aelem st1) (AelemT st1))
    | _, _ => None
    end
  | _, _ => None
  end.

(** [getKelem] and [getAelem]. *)
Definition getKelem (st : GlobalStiffAssembler) : LocalMatrix := Kelem st.
Definition getAelem (st : GlobalStiffAssembler) : LocalMatrix := Aelem st.

(* ================================================================== *)
(** ** Sparse matrices ([Eigen::Triplet], [SparseMat]) *)

(** [Eigen::Triplet<double>]: a row, a column (both [int]) and a value. *)
Record Triplet : Type := mkTriplet { t_row : Z; t_col : Z; t_value : R }.

(** [Triplet(i, j, v)] called with [unsigned int] indices: they are
    converted to [int]. *)
Definition Triplet_of_unsigned (i j : Z) (v : R) : Triplet :=
  mkTriplet (UInt.to_int i) (UInt.to_int j) v.

(** A sparse matrix: its dimensions and the coefficients it stores, in the
    order they were stored. Eigen keeps each inner vector sorted by inner
    index and puts a new coefficient behind those already stored at the
    same index, so the relative order of the coefficients stored at one
    coordinate is the order of their insertion; nothing below observes
    more of the storage order than that. *)
Record SparseMat : Type := mkSparse {
  rows : Z; cols : Z; stored : list Triplet }.

Definition at_coord (i j : Z) (t : Triplet) : bool :=
  ((t_row t =? i) && (t_col t =? j))%Z.

Definition in_range (nrows ncols : Z) (t : Triplet) : bool :=
  ((0 <=? t_row t) && (t_row t <? nrows) && (0 <=? t_col t) && (t_col t <? ncols))%Z.

(** The sum of the values a list of triplets holds at [(i, j)]. *)
Fixpoint triplet_sum (ts : list Triplet) (i j : Z) : R :=
  match ts with
  | [] => 0
  | t :: rest => (if at_coord i j t then t_value t else 0) + triplet_sum rest i j
  end.

(** The coefficient [(i, j)] as sparse arithmetic sees it (products,
    factorisations): coefficients stored at one coordinate add up. *)
Definition coeff (M : SparseMat) (i j : Z) : R := triplet_sum (stored M) i j.

(** The coefficient [(i, j)] of the dense copy of a sparse matrix
    ([Eigen::VectorXd v(sparse)], and the dense panel [SparseLU::solve]
    makes of a sparse right-hand side): the destination is zeroed and every
    stored coefficient is assigned in storage order. *)
Definition denseCoeff (M : SparseMat) (i j : Z) : R :=
  fold_left (fun acc t => if at_coord i j t then t_value t else acc) (stored M) 0.

(** [SparseMat M(rows, cols)]: an empty matrix; negative dimensions are
    rejected. *)
Definition SparseMat_new (nrows ncols : Z) : option SparseMat :=
  if ((0 <=? nrows) && (0 <=? ncols))%Z then Some (mkSparse nrows ncols []) else None.

(** [M.insert(i, j) = v]: a new coefficient is stored; the coordinate must
    lie inside the matrix. Eigen does not look for a coefficient already
    stored at [(i, j)] (it only asserts so in some code paths of a debug
    build), so a second one is stored behind the first. *)
Definition insert (M : SparseMat) (i j : Z) (v : R) : option SparseMat :=
  if in_range (rows M) (cols M) (mkTriplet i j v)
  then Some (mkSparse (rows M) (cols M) (stored M ++ [mkTriplet i j v]))
  else None.

Definition coord_eq_dec (a b : Z * Z) : {a = b} + {a <> b}.
Proof. decide equality; apply Z.eq_dec. Defined.

(** The coordinates a list of triplets touches, each once. *)
Definition coords (ts : list Triplet) : list (Z * Z) :=
  nodup coord_eq_dec (map (fun t => (t_row t, t_col t)) ts).

(** [M.setFromTriplets(begin, end)]: the previous content is dropped, one
    coefficient is stored per coordinate touched, and it holds the sum of
    the triplets given for it. Every triplet must lie inside the matrix. *)
Definition setFromTriplets (M : SparseMat) (ts : list Triplet) : option SparseMat :=
  if forallb (in_range (rows M) (cols M)) ts
  then Some (mkSparse (rows M) (cols M)
               (map (fun rc => mkTriplet (fst rc) (snd rc) (triplet_sum ts (fst rc) (snd rc)))
                    (coords ts)))
  else None.

(** [M.topLeftCorner(p, q)], evaluated into a matrix. *)
Definition topLeftCorner (M : SparseMat) (p q : Z) : option SparseMat :=
  if ((0 <=? p) && (p <=? rows M) && (0 <=? q) && (q <=? cols M))%Z
  then Some (mkSparse p q (filter (in_range p q) (stored M)))
  else None.

(** [v.topRows(p)]. *)
Definition topRows (M : SparseMat) (p : Z) : option SparseMat :=
  topLeftCorner M p (cols M).

(** The product of two sparse matrices: for every pair of stored
    coefficients [A(i, k)] and [B(k, j)] the product of their values is
    accumulated at [(i, j)]. *)
Definition product_triplets (A B : SparseMat) : list Triplet :=
  flat_map (fun a =>
    flat_map (fun b =>
      if (t_col a =? t_row b)%Z
      then [mkTriplet (t_row a) (t_col b) (t_value a * t_value b)]
      else []) (stored B)) (stored A).

Definition sparse_mul (A B : SparseMat) : option SparseMat :=
  if (cols A =? rows B)%Z
  then Some (mkSparse (rows A) (cols B)
               (map (fun rc => mkTriplet (fst rc) (snd rc)
                                 (triplet_sum (product_triplets A B) (fst rc) (snd rc)))
                    (coords (product_triplets A B))))
  else None.

(** [x.sparseView()] of a dense column [x] with [n] rows: the coefficients
    that are not zero, by increasing row. *)
Definition sparseView_column (n : nat) (x : Z -> R) : SparseMat :=
  mkSparse (Z.of_nat n) 1
    (flat_map (fun k => if Req_dec_T (x (Z.of_nat k)) 0 then []
                        else [mkTriplet (Z.of_nat k) 0 (x (Z.of_nat k))])
              (seq 0 n)).

(** The stored coefficients of [K.sparseView()] of a 12x12 matrix in the
    order the two nested loops of [operator()] visit them: by column, then
    by row; a coefficient equal to zero is not stored. *)
Definition sparseView_entries (K : LocalMatrix) : list (nat * nat * R) :=
  flat_map (fun j =>
    flat_map (fun r => if Req_dec_T (K r j) 0 then [] else [(r, j, K r j)])
             (seq 0 12))
    (seq 0 12).

(* ================================================================== *)
(** ** Assembly ([GlobalStiffAssembler::operator()], [loadTies]) *)

(** The body of the innermost loop of [operator()]: the triplet pushed for
    the coefficient [(row, col)] of the element matrix. [nn1] and [nn2] are
    [int]s, [row], [col] and [dofs_per_elem] are [unsigned int]s. *)
Definition scatter (nn1 nn2 : Z) (e : nat * nat * R) : Triplet :=
  let row := Z.of_nat (fst (fst e)) in
  let col := Z.of_nat (snd (fst e)) in
  let value := snd e in
  let dofs_per_elem := NUM_DOFS in
  if (row <? 6)%Z then
    if (col <? 6)%Z then
      Triplet_of_unsigned (UInt.add (UInt.mul dofs_per_elem nn1) row)
                          (UInt.add (UInt.mul dofs_per_elem nn1) col) value
    else
      Triplet_of_unsigned (UInt.add (UInt.mul dofs_per_elem nn1) row)
                          (UInt.add (UInt.mul dofs_per_elem (nn2 - 1)) col) value
  else
    if (col <? 6)%Z then
      Triplet_of_unsigned (UInt.add (UInt.mul dofs_per_elem (nn2 - 1)) row)
                          (UInt.add (UInt.mul dofs_per_elem nn1) col) value
    else
      Triplet_of_unsigned (UInt.add (UInt.mul dofs_per_elem (nn2 - 1)) row)
                          (UInt.add (UInt.mul dofs_per_elem (nn2 - 1)) col) value.

(** One iteration of the loop over the elements. *)
Definition element_step (job : Job)
    (acc : option (GlobalStiffAssembler * list Triplet)) (i : nat)
  : option (GlobalStiffAssembler * list Triplet) :=
  match acc with
  | None => None
  | Some (st, triplets) =>
    match calcKelem st i job, nth_error (elems job) i with
    | Some st', Some (nn1, nn2) =>
      Some (st', triplets ++ map (scatter nn1 nn2) (sparseView_entries (Kelem st')))
    | _, _ => None
    end
  end.

(** The four triplets [loadTies] pushes for the degree of freedom [j]. *)
Definition tie_triplets_dof (tie : Tie) (j : Z) : list Triplet :=
  let dofs_per_elem := NUM_DOFS in
  let nn1 := node_number_1 tie in
  let nn2 := node_number_2 tie in
  let spring_constant := if (j <? 3)%Z then lmult tie else rmult tie in
  let i1 := UInt.add (UInt.mul dofs_per_elem nn1) j in
  let i2 := UInt.add (UInt.mul dofs_per_elem nn2) j in
  [ Triplet_of_unsigned i1 i1 spring_constant;
    Triplet_of_unsigned i2 i2 spring_constant;
    Triplet_of_unsigned i1 i2 (- spring_constant);
    Triplet_of_unsigned i2 i1 (- spring_constant) ].

Definition dof_range : list Z := [0; 1; 2; 3; 4; 5]%Z.

(** [loadTies(triplets, ties)]. *)
Definition loadTies (triplets : list Triplet) (ties : list Tie) : list Triplet :=
  triplets ++ flat_map (fun tie => flat_map (tie_triplets_dof tie) dof_range) ties.

(** [GlobalStiffAssembler::operator()(Kg, job, ties)]. *)
Definition assemble (st : GlobalStiffAssembler) (Kg : SparseMat) (job : Job)
    (ties : list Tie) : option (GlobalStiffAssembler * SparseMat) :=
  match fold_left (element_step job) (seq 0 (length (elems job))) (Some (st, [])) with
  | Some (st', triplets) =>
    match setFromTriplets Kg (loadTies triplets ties) with
    | Some Kg' => Some (st', Kg')
    | None => None
    end
  | None => None
  end.

(* ================================================================== *)
(** ** Loading boundary conditions and forces *)

Notation "x <- e ;; k" :=
  (match e with Some x => k | None => None end)
  (at level 61, e at next level, right associativity).
Notation "' p <- e ;; k" :=
  (match e with Some p => k | None => None end)
  (at level 61, p pattern, e at next level, right associativity).

(** [std::numeric_limits<double>::epsilon()] for IEEE binary64. *)
Definition DBL_EPSILON : R := / 2 ^ 52.

(** The loop of [loadBCs] from iteration [i] on; [global_add_idx + i] is
    [size_t] arithmetic. *)
Fixpoint loadBCs_loop (i : nat) (Kg force_vec : SparseMat) (BCs : list BC)
    (global_add_idx : Z) : option (SparseMat * SparseMat) :=
  match BCs with
  | [] => Some (Kg, force_vec)
  | bc :: rest =>
    let dofs_per_elem := NUM_DOFS in
    let bc_idx := UInt.add (UInt.mul dofs_per_elem (bc_node bc)) (bc_dof bc) in
    Kg <- insert Kg bc_idx (global_add_idx + Z.of_nat i) 1 ;;
    Kg <- insert Kg (global_add_idx + Z.of_nat i) bc_idx 1 ;;
    force_vec <-
      (if Rgt_dec (Rabs (bc_value bc)) DBL_EPSILON
       then insert force_vec (global_add_idx + Z.of_nat i) 0 (bc_value bc)
       else Some force_vec) ;;
    loadBCs_loop (S i) Kg force_vec rest global_add_idx
  end.

(** [loadBCs(Kg, force_vec, BCs, num_nodes)]; [num_nodes] is an
    [unsigned int]. *)
Definition loadBCs (Kg force_vec : SparseMat) (BCs : list BC) (num_nodes : Z)
  : option (SparseMat * SparseMat) :=
  let global_add_idx := UInt.mul NUM_DOFS num_nodes in
  loadBCs_loop 0 Kg force_vec BCs global_add_idx.

(** [loadForces(force_vec, forces)]. *)
Fixpoint loadForces (force_vec : SparseMat) (forces : list Force) : option SparseMat :=
  match forces with
  | [] => Some force_vec
  | f :: rest =>
    let idx := UInt.add (UInt.mul NUM_DOFS (f_node f)) (f_dof f) in
    force_vec <- insert force_vec idx 0 (f_value f) ;;
    loadForces force_vec rest
  end.

(** [computeTieForces(ties, nodal_displacements)]. *)
Fixpoint all_some {A : Type} (l : list (option A)) : option (list A) :=
  match l with
  | [] => Some []
  | x :: rest => a <- x ;; r <- all_some rest ;; Some (a :: r)
  end.

Definition computeTieForces (ties : list Tie) (nodal_displacements : list (list R))
  : option (list (list R)) :=
  all_some (map (fun tie =>
    all_some (map (fun j =>
      let spring_constant := if (j <? 3)%Z then lmult tie else rmult tie in
      r1 <- at_index nodal_displacements (node_number_1 tie) ;;
      r2 <- at_index nodal_displacements (node_number_2 tie) ;;
      delta1 <- at_index r1 j ;;
      delta2 <- at_index r2 j ;;
      Some (spring_constant * (delta2 - delta1))) dof_range)) ties).

(* ================================================================== *)
(** ** The solve entry point *)

(** The part of [Options] the computation reads. *)
Record Options : Type := mkOptions { epsilon : R }.

(** The part of [Summary] the computation fills, timings apart. *)
Record Summary : Type := mkSummary {
  num_nodes : nat;
  num_elems : nat;
  num_bcs : nat;
  num_ties : nat;
  nodal_displacements : list (list R);
  nodal_forces : list (list R);
  tie_forces : list (list R) }.

(** [std::abs(x) < options.epsilon ? 0.0 : x]. *)
Definition round_eps (eps x : R) : R := if Rlt_dec (Rabs x) eps then 0 else x.

(** A |nodes| x 6 table read off a dense column, rounded. *)
Definition reshape_rounded (eps : R) (n : nat) (v : Z -> R) : list (list R) :=
  map (fun i => map (fun j => round_eps eps (v (NUM_DOFS * Z.of_nat i + j)%Z)) dof_range)
      (seq 0 n).

Section Solve.

(** The sparse LU solver of Eigen ([analyzePattern], [factorize],
    [solve]): from the matrix and the right-hand side to the dense
    solution column. Its code is not part of the repository. *)
Variable SparseLU_solve : SparseMat -> SparseMat -> Z -> R.

(** The system [solve] hands to the solver: [Kg] and [force_vec] after
    assembly, [loadBCs] and [loadForces]. *)
Definition build_system (job : Job) (BCs : list BC) (forces : list Force)
    (ties : list Tie) : option (SparseMat * SparseMat) :=
  let dofs_per_elem := NUM_DOFS in
  let size :=
    UInt.to_int (dofs_per_elem * Z.of_nat (length (nodes job)) + Z.of_nat (length BCs)) in
  Kg <- SparseMat_new size size ;;
  force_vec <- SparseMat_new size 1 ;;
  ' (_, Kg) <- assemble GlobalStiffAssembler_new Kg job ties ;;
  ' (Kg, force_vec) <- loadBCs Kg force_vec BCs (UInt.wrap (Z.of_nat (length (nodes job)))) ;;
  force_vec <- (if (0 <? length forces)%nat then loadForces force_vec forces
                else Some force_vec) ;;
  Some (Kg, force_vec).

(** [solve(job, BCs, forces, ties, options)]. *)
Definition solve (job : Job) (BCs : list BC) (forces : list Force)
    (ties : list Tie) (options : Options) : option Summary :=
  let dofs_per_elem := NUM_DOFS in
  let n := length (nodes job) in
  ' (Kg, force_vec) <- build_system job BCs forces ties ;;
  let dispSparse := sparseView_column (Z.to_nat (rows Kg)) (SparseLU_solve Kg force_vec) in
  let disp := fun k => denseCoeff dispSparse k 0 in
  let disp_vec := reshape_rounded (epsilon options) n disp in
  Kg <- topLeftCorner Kg (dofs_per_elem * Z.of_nat n) (dofs_per_elem * Z.of_nat n) ;;
  dispSparse <- topRows dispSparse (dofs_per_elem * Z.of_nat n) ;;
  nodal_forces_sparse <- sparse_mul Kg dispSparse ;;
  let nodal_forces_dense := fun k => denseCoeff nodal_forces_sparse k 0 in
  let nodal_forces_vec := reshape_rounded (epsilon options) n nodal_forces_dense in
  tie_forces <- (if (0 <? length ties)%nat then computeTieForces ties disp_vec
                 else Some []) ;;
  Some (mkSummary n (length (elems job)) (length BCs) (length ties)
                  disp_vec nodal_forces_vec tie_forces).

End Solve.

(* ================================================================== *)
(** ** What the specification says, in its own words *)

(** Section 4.1, local stiffness: the entries named for the abbreviations
    [a], [t], [z3], [z2], [z1], [y3], [y2], [y1]; all others zero. *)
Definition spec_Klocal (a t z3 z2 z1 y3 y2 y1 : R) : LocalMatrix :=
  fun r c =>
  (match r, c with
   | 0, 0 | 6, 6 => a
   | 0, 6 | 6, 0 => (- a)%R
   | 3, 3 | 9, 9 => t
   | 3, 9 | 9, 3 => (- t)%R
   | 1, 1 | 7, 7 => z3
   | 1, 7 | 7, 1 => (- z3)%R
   | 1, 5 | 5, 1 | 1, 11 | 11, 1 => z2
   | 5, 7 | 7, 5 | 7, 11 | 11, 7 => (- z2)%R
   | 5, 5 | 11, 11 => (4 * z1)%R
   | 5, 11 | 11, 5 => (2 * z1)%R
   | 2, 2 | 8, 8 => y3
   | 2, 8 | 8, 2 => (- y3)%R
   | 2, 4 | 4, 2 | 2, 10 | 10, 2 => (- y2)%R
   | 4, 8 | 8, 4 | 8, 10 | 10, 8 => y2
   | 4, 4 | 10, 10 => (4 * y1)%R
   | 4, 10 | 10, 4 => (2 * y1)%R
   | _, _ => 0%R
   end)%nat.

(** The places of a 12x12 matrix on the four diagonal 3x3 blocks. *)
Definition block_diag (r c : nat) : bool :=
  ((r <? 12) && (c <? 12) && (r / 3 =? c / 3))%nat.

(** The places [calcKelem] assigns in [Klocal]. *)
Definition beam_pattern (r c : nat) : bool :=
  ((r <? 12) && (c <? 12))%nat &&
  match (r mod 6)%nat, (c mod 6)%nat with
  | 0, 0 | 1, 1 | 1, 5 | 2, 2 | 2, 4 | 3, 3 | 4, 2 | 4, 4 | 5, 1 | 5, 5 => true
  | _, _ => false
  end%nat.

(** Section 4.1, rotation: block-diagonal, four identical 3x3 blocks whose
    rows are [nx], [ny] and [nz]. *)
Definition spec_rotation (nx ny nz : Vector3d) : LocalMatrix :=
  fun r c =>
  if block_diag r c then
    Vector3d_ops.coord
      (match (r mod 3)%nat with O => nx | 1%nat => ny | _ => nz end) (c mod 3)
  else 0.

(** Section 4.2, scatter policy: rows and columns 0..5 of the element go
    to 6 n1 .. 6 n1 + 5, rows and columns 6..11 to 6 n2 .. 6 n2 + 5. *)
Definition spec_scatter_index (n1 n2 : Z) (r : nat) : Z :=
  if (r <? 6)%nat then (6 * n1 + Z.of_nat r)%Z else (6 * n2 + (Z.of_nat r - 6))%Z.

(** The entries of an element matrix [K] the scatter policy sends to the
    global coordinate [(I, J)], added up. *)
Definition scattered_sum (K : LocalMatrix) (n1 n2 : Z) (I J : Z) : R :=
  sum_upto 12 (fun r => sum_upto 12 (fun c =>
    if ((spec_scatter_index n1 n2 r =? I) && (spec_scatter_index n1 n2 c =? J))%Z
    then K r c else 0)).

(** The rotated matrix [calcKelem] computes for the element [i]. *)
Definition element_matrix (job : Job) (i : nat) : LocalMatrix :=
  match calcKelem GlobalStiffAssembler_new i job with
  | Some st => Kelem st
  | None => setZero
  end.

(** What the element [i] contributes at the global coordinate [(I, J)]. *)
Definition element_contribution (job : Job) (i : nat) (I J : Z) : R :=
  match nth_error (elems job) i with
  | Some (n1, n2) => scattered_sum (element_matrix job i) n1 n2 I J
  | None => 0
  end.

(** Section 3, the invariants of the data model: node indices address
    nodes, degrees of freedom lie in 0..5, every element has properties,
    and the order of the system fits the [int] that holds it. *)
Definition valid_node (job : Job) (n : Z) : Prop :=
  (0 <= n < Z.of_nat (length (nodes job)))%Z.

Definition valid_dof (d : Z) : Prop := (0 <= d < 6)%Z.

Record valid_input (job : Job) (BCs : list BC) (forces : list Force)
    (ties : list Tie) : Prop := mkValid {
  vi_props : (length (elems job) <= length (props job))%nat;
  vi_elems :
    Forall (fun e => valid_node job (fst e) /\ valid_node job (snd e)) (elems job);
  vi_BCs :
    Forall (fun bc => valid_node job (bc_node bc) /\ valid_dof (bc_dof bc)) BCs;
  vi_forces :
    Forall (fun f => valid_node job (f_node f) /\ valid_dof (f_dof f)) forces;
  vi_ties :
    Forall (fun t => valid_node job (node_number_1 t) /\
                     valid_node job (node_number_2 t)) ties;
  vi_size :
    (6 * Z.of_nat (length (nodes job)) + Z.of_nat (length BCs) <= UInt.INT_MAX)%Z }.

(** [bc_idx] of [loadBCs] and [idx] of [loadForces]. *)
Definition dof_index (node dof : Z) : Z :=
  UInt.add (UInt.mul NUM_DOFS node) dof.

(** The coefficients the loop of [loadBCs] stores in [Kg] from iteration
    [i] on, in order. *)
Fixpoint bc_coefficients (g : Z) (i : nat) (BCs : list BC) : list Triplet :=
  match BCs with
  | [] => []
  | bc :: rest =>
    mkTriplet (dof_index (bc_node bc) (bc_dof bc)) (g + Z.of_nat i) 1
    :: mkTriplet (g + Z.of_nat i) (dof_index (bc_node bc) (bc_dof bc)) 1
    :: bc_coefficients g (S i) rest
  end.

(** The coefficients the loop of [loadBCs] stores in [force_vec]. *)
Fixpoint bc_rhs (g : Z) (i : nat) (BCs : list BC) : list Triplet :=
  match BCs with
  | [] => []
  | bc :: rest =>
    (if Rgt_dec (Rabs (bc_value bc)) DBL_EPSILON
     then [mkTriplet (g + Z.of_nat i) 0 (bc_value bc)] else [])
    ++ bc_rhs g (S i) rest
  end.

(** The value of the last force of a list given for [(node, dof)]. *)
Definition last_force_at (node dof : Z) (forces : list Force) : option R :=
  fold_left (fun acc f =>
               if ((f_node f =? node) && (f_dof f =? dof))%Z
               then Some (f_value f) else acc)
            forces None.

(** The entry [(i, j)] of a result table ([std::vector<std::vector<double>>]). *)
Definition table_entry (t : list (list R)) (i : nat) (j : Z) : R :=
  nth (Z.to_nat j) (nth i t []) 0.

(** The row [i] of a list of stored coefficients applied to the column
    [w]: the sum of value * w(column) over the coefficients of that row. *)
Fixpoint weighted_row_sum (ts : list Triplet) (i : Z) (w : Z -> R) : R :=
  match ts with
  | [] => 0
  | t :: rest =>
    (if (t_row t =? i)%Z then t_value t * w (t_col t) else 0)
    + weighted_row_sum rest i w
  end.

(** An assembler whose matrices are zero wherever the kernel never
    writes: the constructor makes one and the kernel keeps it so. *)
Record clean (st : GlobalStiffAssembler) : Prop := mkClean {
  clean_Klocal : forall r c, beam_pattern r c = false -> Klocal st r c = 0;
  clean_Aelem : forall r c, block_diag r c = false -> Aelem st r c = 0;
  clean_AelemT : forall r c, block_diag r c = false -> AelemT st r c = 0 }.

(* ================================================================== *)
(** ** Fixtures of [tests/beam_element_tests.cpp] *)

(** [JOB_CANTILEVER]: one element of unit stiffnesses from the origin to
    (1, 0, 0), with normal (0, 0, 1). *)
Definition JOB_CANTILEVER : Job :=
  mkJob [Vec3 0 0 0; Vec3 1 0 0] [(0, 1)%Z] [mkProps 1 1 1 1 (Vec3 0 0 1)].

(** [BCS_CANTILEVER]: node 0 clamped. *)
Definition BCS_CANTILEVER : list BC :=
  [mkBC 0 0 0; mkBC 0 1 0; mkBC 0 2 0; mkBC 0 3 0; mkBC 0 4 0; mkBC 0 5 0].

(** [FORCES_CANTILEVER]. *)
Definition FORCES_CANTILEVER : list Force := [mkForce 1 1 (1 / 10)].

(** [JOB_L_BRACKET]. *)
Definition JOB_L_BRACKET : Job :=
  mkJob [Vec3 0 0 0; Vec3 1 0 0; Vec3 2 0 0; Vec3 2 0 1]
        [(0, 1)%Z; (1, 2)%Z; (2, 3)%Z]
        [mkProps 10 10 10 10 (Vec3 0 1 0);
         mkProps 10 10 10 10 (Vec3 0 1 0);
         mkProps 10 1 1 10 (Vec3 0 1 0)].

(** [BCS_L_BRACKET]. *)
Definition BCS_L_BRACKET : list BC :=
  [mkBC 0 0 0; mkBC 0 1 0; mkBC 0 2 0; mkBC 0 3 0; mkBC 0 4 0; mkBC 0 5 0;
   mkBC 3 1 (1 / 2)].

(** An element like that of [JOB_CANTILEVER] whose normal, (3, 4, 0), is
    not perpendicular to its axis. *)
Definition JOB_SKEW_NORMAL : Job :=
  mkJob [Vec3 0 0 0; Vec3 1 0 0] [(0, 1)%Z] [mkProps 1 1 1 1 (Vec3 3 4 0)].

(* ================================================================== *)
(** ** Rigid motions of an element *)

(** The twelve end displacements, in the local frame, of an element of
    length [L] lying along the local x axis that moves as a rigid body:
    translation (a, b, c) and small rotation (alpha, beta, gamma) of node
    1; node 2, at distance [L] along x, turns by the same angles and is
    carried by them. *)
Definition rigid_motion (L a b c alpha beta gamma : R) : nat -> R :=
  fun k =>
  (match k with
   | 0 => a | 1 => b | 2 => c
   | 3 => alpha | 4 => beta | 5 => gamma
   | 6 => a | 7 => (b + gamma * L)%R | 8 => (c - beta * L)%R
   | 9 => alpha | 10 => beta | 11 => gamma
   | _ => 0%R
   end)%nat.

(** A translation (t0, t1, t2) of the whole structure, as a column over
    the global degrees of freedom: [t] on the three displacements of every
    node, zero on its rotations. *)
Definition global_translation (t0 t1 t2 : R) (J : Z) : R :=
  let d := (J mod 6)%Z in
  if (d =? 0)%Z then t0 else if (d =? 1)%Z then t1 else if (d =? 2)%Z then t2 else 0.

(** An element for which [calcKelem] divides by no zero: the cross product
    of its axis and its normal is not the zero vector, so that its end
    nodes differ (the length), its normal is not zero ([normalize]) and is
    not parallel to the axis (the squared norm [calcAelem] divides by). *)
Definition regular_element (job : Job) (i : nat) : Prop :=
  forall pr nn1 nn2 p1 p2,
    nth_error (props job) i = Some pr ->
    nth_error (elems job) i = Some (nn1, nn2) ->
    at_index (nodes job) nn1 = Some p1 ->
    at_index (nodes job) nn2 = Some p2 ->
    Vector3d_ops.cross (Vector3d_ops.sub p2 p1) (normal_vec pr) <> Vec3 0 0 0.

Definition regular_job (job : Job) : Prop :=
  forall i, (i < length (elems job))%nat -> regular_element job i.

(* ================================================================== *)
(** ** The report of a run ([src/summary.cpp]) *)

(** [std::numeric_limits<double>::max()] for IEEE binary64. *)
Definition DBL_MAX : R := (2 - / 2 ^ 52) * 2 ^ 1023.

(** [Location2D]: a row and a column of a table. *)
Record Location2D : Type := mkLocation2D { loc_row : nat; loc_col : nat }.

(** The locals of [findMinMax2D]. *)
Record MinMax : Type := mkMinMax {
  min_elem : Location2D;
  max_elem : Location2D;
  min_val : R;
  max_val : R }.

(** The body of the inner loop of [findMinMax2D] at [(i, j)], where
    [x] is [input[i][j]]. *)
Definition findMinMax2D_visit (i j : nat) (x : R) (s : MinMax) : MinMax :=
  let s := if Rgt_dec x (max_val s)
           then mkMinMax (min_elem s) (mkLocation2D i j) (min_val s) x
           else s in
  if Rlt_dec x (min_val s)
  then mkMinMax (mkLocation2D i j) (max_elem s) x (max_val s)
  else s.

(** The inner loop over the columns [js] of row [i]. *)
Fixpoint findMinMax2D_cols (input : list (list R)) (i : nat) (js : list nat)
    (s : MinMax) : option MinMax :=
  match js with
  | [] => Some s
  | j :: js' =>
    row <- nth_error input i ;;
    x <- nth_error row j ;;
    findMinMax2D_cols input i js' (findMinMax2D_visit i j x s)
  end.

(** The outer loop over the rows [rs]. *)
Fixpoint findMinMax2D_rows (input : list (list R)) (num_cols : nat) (rs : list nat)
    (s : MinMax) : option MinMax :=
  match rs with
  | [] => Some s
  | i :: rs' =>
    s' <- findMinMax2D_cols input i (seq 0 num_cols) s ;;
    findMinMax2D_rows input num_cols rs' s'
  end.

(** [findMinMax2D(input)]: the locations of the smallest and of the
    largest entry. The number of columns is that of the first row. *)
Definition findMinMax2D (input : list (list R)) : option (Location2D * Location2D) :=
  let s := mkMinMax (mkLocation2D 0 0) (mkLocation2D 0 0) DBL_MAX (- DBL_MAX) in
  row0 <- nth_error input 0 ;;
  let num_cols := length row0 in
  s <- findMinMax2D_rows input num_cols (seq 0 (length input)) s ;;
  Some (min_elem s, max_elem s).

(** The loop of [numDigits]: it runs while [number] is not zero; [fuel]
    bounds the number of iterations. *)
Fixpoint numDigits_loop (fuel : nat) (number digits : Z) : option Z :=
  match fuel with
  | O => None
  | S fuel' =>
    if (number =? 0)%Z then Some digits
    else numDigits_loop fuel' (Z.quot number 10) (digits + 1)%Z
  end.

(** [numDigits(number)] for an integer type. *)
Definition numDigits (fuel : nat) (number : Z) : option Z :=
  let digits := 0%Z in
  let digits := if (number <? 0)%Z then 1%Z else digits in
  numDigits_loop fuel number digits.

(** The entry of a table at a location, and the order in which
    [findMinMax2D] visits the locations. *)
Definition entry_at (input : list (list R)) (p : Location2D) : R :=
  nth (loc_col p) (nth (loc_row p) input []) 0.

Definition row_major_before (p q : Location2D) : Prop :=
  (loc_row p < loc_row q \/ (loc_row p = loc_row q /\ loc_col p < loc_col q))%nat.

(** The entries [findMinMax2D] visits in the rows [rs], in order. *)
Definition visits (input : list (list R)) (num_cols : nat) (rs : list nat)
  : list (Location2D * R) :=
  flat_map (fun i => map (fun j => (mkLocation2D i j, entry_at input (mkLocation2D i j)))
                         (seq 0 num_cols)) rs.

(* ================================================================== *)
(** ** Reading a model from files ([src/setup.cpp], [include/csv_parser.h]) *)

(** The [std::runtime_error]s thrown while a model is read or a table is
    written, by message. *)
Inductive SetupError : Type :=
| MissingMember (variable : string)
| NotAString (variable : string)
| CannotOpen (filename : string)
| CannotParse (filename : string)
| NoData (variable : string)
| BadRow (variable : string) (row : nat)
| RowCountMismatch.

(** A value returned, or an exception thrown. *)
Inductive Result (A : Type) : Type :=
| Ok (a : A)
| Throw (e : SetupError).

Arguments Throw {A} e.

Notation "x <~ e ;; k" :=
  (match e with Ok x => k | Throw err => Throw err end)
  (at level 61, e at next level, right associativity).

(** What [createVectorFromJSON] asks of a member of the configuration
    document: whether it is a string, and which. *)
Inductive JsonValue : Type :=
| JsonString (s : string)
| JsonOther.

(** The configuration document: its members by name. *)
Definition Document : Type := string -> option JsonValue.

(** What [CSVParser::parseToVector] makes of the file of a given name: the
    file cannot be opened, the tokenizer throws, or the rows are read. *)
Inductive Parsed (T : Type) : Type :=
| NotOpened
| TokenizerError
| Rows (data : list (list T)).

Arguments NotOpened {T}.
Arguments TokenizerError {T}.

(** [createVectorFromJSON(config_doc, variable, data)]. *)
Definition createVectorFromJSON {T : Type} (parseToVector : string -> Parsed T)
    (config_doc : Document) (variable : string) : Result (list (list T)) :=
  match config_doc variable with
  | None => Throw (MissingMember variable)
  | Some JsonOther => Throw (NotAString variable)
  | Some (JsonString filename) =>
    match parseToVector filename with
    | NotOpened => Throw (CannotOpen filename)
    | TokenizerError => Throw (CannotParse filename)
    | Rows data => if (length data =? 0)%nat then Throw (NoData variable) else Ok data
    end
  end.

(** [Elem]: the two node numbers, stored as [int], and the properties. *)
Record Elem : Type := mkElem { node_numbers : Z * Z; elem_props : Props }.

(** [Elem(node1, node2, props)]. *)
Definition Elem_new (node1 node2 : Z) (_props : Props) : Elem :=
  mkElem (UInt.to_int node1, UInt.to_int node2) _props.

(** [Job(nodes, elems)]: the loop runs to [_elems.size()] held in an
    [unsigned int]. *)
Definition Job_new (_nodes : list Node) (_elems : list Elem) : Job :=
  let num_elems := UInt.wrap (Z.of_nat (length _elems)) in
  let pushed := firstn (Z.to_nat num_elems) _elems in
  mkJob _nodes (map node_numbers pushed) (map elem_props pushed).

(** The loop of [createNodeVecFromJSON] from row [i] on. *)
Fixpoint createNodeVec_loop (i : nat) (nodes_vec : list (list R))
  : Result (list Node) :=
  match nodes_vec with
  | [] => Ok []
  | row :: rest =>
    match row with
    | [x; y; z] =>
      nodes_out <~ createNodeVec_loop (S i) rest ;;
      Ok (Vec3 x y z :: nodes_out)
    | _ => Throw (BadRow "nodes" i)
    end
  end.

(** The loop of [createElemVecFromJSON] from row [i] on, over the rows of
    [elems_vec] and [props_vec] side by side (the two have the same number
    of rows where the loop is entered). *)
Fixpoint createElemVec_loop (i : nat) (rows : list (list Z * list R))
  : Result (list Elem) :=
  match rows with
  | [] => Ok []
  | (elems_row, props_row) :: rest =>
    match elems_row with
    | [nn1; nn2] =>
      match props_row with
      | [p0; p1; p2; p3; p4; p5; p6] =>
        let p := mkProps p0 p1 p2 p3 (Vec3 p4 p5 p6) in
        elems_out <~ createElemVec_loop (S i) rest ;;
        Ok (Elem_new nn1 nn2 p :: elems_out)
      | _ => Throw (BadRow "props" i)
      end
    | _ => Throw (BadRow "elems" i)
    end
  end.

Section Setup.

(** The CSV parser on files of doubles and of unsigned integers. *)
Variable parse_double : string -> Parsed R.
Variable parse_unsigned : string -> Parsed Z.

(** [createNodeVecFromJSON(config_doc)]. *)
Definition createNodeVecFromJSON (config_doc : Document) : Result (list Node) :=
  nodes_vec <~ createVectorFromJSON parse_double config_doc "nodes" ;;
  createNodeVec_loop 0 nodes_vec.

(** [createElemVecFromJSON(config_doc)]. *)
Definition createElemVecFromJSON (config_doc : Document) : Result (list Elem) :=
  elems_vec <~ createVectorFromJSON parse_unsigned config_doc "elems" ;;
  props_vec <~ createVectorFromJSON parse_double config_doc "props" ;;
  if negb (length elems_vec =? length props_vec)%nat then Throw RowCountMismatch
  else createElemVec_loop 0 (combine elems_vec props_vec).

(** [createJobFromJSON(config_doc)]. *)
Definition createJobFromJSON (config_doc : Document) : Result Job :=
  nodes <~ createNodeVecFromJSON config_doc ;;
  elems <~ createElemVecFromJSON config_doc ;;
  Ok (Job_new nodes elems).

End Setup.

Section SetupLoads.

Variable parse_double : string -> Parsed R.

(** The conversion [(unsigned int) x] of a double. *)
Variable to_unsigned : R -> Z.

(** The loop of [createBCVecFromJSON] from row [i] on. *)
Fixpoint createBCVec_loop (i : nat) (bcs_vec : list (list R)) : Result (list BC) :=
  match bcs_vec with
  | [] => Ok []
  | row :: rest =>
    match row with
    | [n; d; v] =>
      bcs_out <~ createBCVec_loop (S i) rest ;;
      Ok (mkBC (to_unsigned n) (to_unsigned d) v :: bcs_out)
    | _ => Throw (BadRow "bcs" i)
    end
  end.

(** [createBCVecFromJSON(config_doc)]. *)
Definition createBCVecFromJSON (config_doc : Document) : Result (list BC) :=
  bcs_vec <~ createVectorFromJSON parse_double config_doc "bcs" ;;
  createBCVec_loop 0 bcs_vec.

(** The loop of [createForceVecFromJSON] from row [i] on. *)
Fixpoint createForceVec_loop (i : nat) (forces_vec : list (list R))
  : Result (list Force) :=
  match forces_vec with
  | [] => Ok []
  | row :: rest =>
    match row with
    | [n; d; v] =>
      forces_out <~ createForceVec_loop (S i) rest ;;
      Ok (mkForce (to_unsigned n) (to_unsigned d) v :: forces_out)
    | _ => Throw (BadRow "forces" i)
    end
  end.

(** [createForceVecFromJSON(config_doc)]. *)
Definition createForceVecFromJSON (config_doc : Document) : Result (list Force) :=
  forces_vec <~ createVectorFromJSON parse_double config_doc "forces" ;;
  createForceVec_loop 0 forces_vec.

(** The loop of [createTieVecFromJSON] from row [i] on. *)
Fixpoint createTieVec_loop (i : nat) (ties_vec : list (list R)) : Result (list Tie) :=
  match ties_vec with
  | [] => Ok []
  | row :: rest =>
    match row with
    | [n1; n2; lm; rm] =>
      ties_out <~ createTieVec_loop (S i) rest ;;
      Ok (mkTie (to_unsigned n1) (to_unsigned n2) lm rm :: ties_out)
    | _ => Throw (BadRow "ties" i)
    end
  end.

(** [createTieVecFromJSON(config_doc)]. *)
Definition createTieVecFromJSON (config_doc : Document) : Result (list Tie) :=
  ties_vec <~ createVectorFromJSON parse_double config_doc "ties" ;;
  createTieVec_loop 0 ties_vec.

End SetupLoads.

(** The boundary condition, the force and the tie a row of a table gives. *)
Definition bc_of_row (to_unsigned : R -> Z) (row : list R) : BC :=
  mkBC (to_unsigned (nth 0 row 0)) (to_unsigned (nth 1 row 0)) (nth 2 row 0).

Definition force_of_row (to_unsigned : R -> Z) (row : list R) : Force :=
  mkForce (to_unsigned (nth 0 row 0)) (to_unsigned (nth 1 row 0)) (nth 2 row 0).

Definition tie_of_row (to_unsigned : R -> Z) (row : list R) : Tie :=
  mkTie (to_unsigned (nth 0 row 0)) (to_unsigned (nth 1 row 0))
        (nth 2 row 0) (nth 3 row 0).

(** The node, the connectivity and the properties a row of a table gives. *)
Definition node_of_row (row : list R) : Node :=
  Vec3 (nth 0 row 0) (nth 1 row 0) (nth 2 row 0).

Definition connectivity_of_row (row : list Z) : Z * Z :=
  (UInt.to_int (nth 0 row 0%Z), UInt.to_int (nth 1 row 0%Z)).

Definition props_of_row (row : list R) : Props :=
  mkProps (nth 0 row 0) (nth 1 row 0) (nth 2 row 0) (nth 3 row 0)
          (Vec3 (nth 4 row 0) (nth 5 row 0) (nth 6 row 0)).

Section CSVWrite.

(** The text [output_file << std::fixed << std::setprecision(precision)
    << x] appends, and whether the file of a name can be opened. *)
Variable format_fixed : Z -> R -> list ascii.
Variable is_open : string -> bool.

(** The inner loop of [CSVParser::write] from column [j] on; [num_cols]
    is a [size_t]. *)
Fixpoint write_row (precision : Z) (delimiter : list ascii) (row : list R)
    (j num_cols : Z) (output_file : list ascii) : list ascii :=
  match row with
  | [] => output_file
  | x :: rest =>
    let output_file := output_file ++ format_fixed precision x in
    let output_file :=
      if (j <? (num_cols - 1) mod 2 ^ 64)%Z then output_file ++ delimiter
      else output_file in
    write_row precision delimiter rest (j + 1)%Z num_cols output_file
  end.

(** The outer loop over the rows. *)
Fixpoint write_rows (precision : Z) (delimiter : list ascii) (data : list (list R))
    (output_file : list ascii) : list ascii :=
  match data with
  | [] => output_file
  | row :: rest =>
    let num_cols := Z.of_nat (length row) in
    let output_file := write_row precision delimiter row 0 num_cols output_file in
    write_rows precision delimiter rest (output_file ++ ["010"%char])
  end.

(** [CSVParser::write(filename, data, precision, delimiter)]: the text
    the file holds afterwards. *)
Definition write (filename : string) (data : list (list R)) (precision : Z)
    (delimiter : list ascii) : Result (list ascii) :=
  if negb (is_open filename) then Throw (CannotOpen filename)
  else Ok (write_rows precision delimiter data []).

End CSVWrite.

(** Fields joined by a separator, none after the last. *)
Fixpoint join (sep : list ascii) (fields : list (list ascii)) : list ascii :=
  match fields with
  | [] => []
  | [f] => f
  | f :: rest => f ++ sep ++ join sep rest
  end.

(* ================================================================== *)
(** * Properties *)

(** ** Machine integers *)

Lemma wrap_small (z : Z) : (0 <= z < UInt.modulus)%Z -> UInt.wrap z = z.
Proof. intros H. unfold UInt.wrap. now apply Z.mod_small. Qed.

Lemma to_int_small (z : Z) : (0 <= z <= UInt.INT_MAX)%Z -> UInt.to_int z = z.
Proof.
  intros H. unfold UInt.to_int, UInt.INT_MAX in *.
  rewrite wrap_small by (unfold UInt.modulus; lia).
  destruct (z <? 2 ^ 31)%Z eqn:E; [reflexivity|].
  apply Z.ltb_ge in E. lia.
Qed.

(** ** The assignments of the kernel *)

Ltac split12 r :=
  destruct r as [|[|[|[|[|[|[|[|[|[|[|[|r]]]]]]]]]]]].

Ltac run_assign :=
  cbv [assign fold_left mset W fst snd Nat.eqb andb
       Klocal_writes Aelem_writes AelemT_writes].

Lemma Klocal_assigned (K : LocalMatrix) (EA EIz EIy GJ L : R) :
  (forall r c, beam_pattern r c = false -> K r c = 0) ->
  forall r c,
    assign K (Klocal_writes EA EIz EIy GJ L) r c =
    spec_Klocal (EA / L) (GJ / L)
                (12 * EIz / (L * L * L)) (6 * EIz / (L * L)) (EIz / L)
                (12 * EIy / (L * L * L)) (6 * EIy / (L * L)) (EIy / L) r c.
Proof.
  intros HK r c.
  split12 r; split12 c; run_assign; cbv [spec_Klocal];
    try reflexivity; apply HK; reflexivity.
Qed.

Lemma Aelem_assigned (A : LocalMatrix) (nx ny nz : Vector3d) :
  (forall r c, block_diag r c = false -> A r c = 0) ->
  forall r c, assign A (Aelem_writes nx ny nz) r c = spec_rotation nx ny nz r c.
Proof.
  intros HA r c.
  split12 r; split12 c; run_assign; cbv [spec_rotation];
    try reflexivity; apply HA; reflexivity.
Qed.

Lemma AelemT_assigned (A : LocalMatrix) (nx ny nz : Vector3d) :
  (forall r c, block_diag r c = false -> A r c = 0) ->
  forall r c, assign A (AelemT_writes nx ny nz) r c = spec_rotation nx ny nz c r.
Proof.
  intros HA r c.
  split12 r; split12 c; run_assign; cbv [spec_rotation];
    try reflexivity; apply HA; reflexivity.
Qed.

Lemma spec_Klocal_zero_off_pattern a t z3 z2 z1 y3 y2 y1 r c :
  beam_pattern r c = false -> spec_Klocal a t z3 z2 z1 y3 y2 y1 r c = 0.
Proof.
  split12 r; split12 c; intros H; try reflexivity; discriminate H.
Qed.

Lemma spec_Klocal_symmetric a t z3 z2 z1 y3 y2 y1 r c :
  spec_Klocal a t z3 z2 z1 y3 y2 y1 r c = spec_Klocal a t z3 z2 z1 y3 y2 y1 c r.
Proof. split12 r; split12 c; reflexivity. Qed.

Lemma spec_rotation_zero_off_blocks nx ny nz r c :
  block_diag r c = false -> spec_rotation nx ny nz r c = 0.
Proof. intros H. unfold spec_rotation. now rewrite H. Qed.

Lemma block_diag_sym r c : block_diag r c = block_diag c r.
Proof.
  unfold block_diag.
  rewrite (Nat.eqb_sym (r / 3) (c / 3)).
  now rewrite (andb_comm (r <? 12)%nat (c <? 12)%nat).
Qed.

Lemma clean_new : clean GlobalStiffAssembler_new.
Proof. split; reflexivity. Qed.

Lemma clean_calcAelem st nx ny : clean st -> clean (calcAelem st nx ny).
Proof.
  intros [HK HA HT]. split; cbn [calcAelem Klocal Aelem AelemT]; intros r c H.
  - now apply HK.
  - rewrite Aelem_assigned by exact HA. now apply spec_rotation_zero_off_blocks.
  - rewrite AelemT_assigned by exact HT.
    apply spec_rotation_zero_off_blocks. now rewrite block_diag_sym.
Qed.

Lemma calcKelem_inv st i job st' :
  calcKelem st i job = Some st' ->
  exists pr nn1 nn2 p1 p2,
    nth_error (props job) i = Some pr /\
    nth_error (elems job) i = Some (nn1, nn2) /\
    at_index (nodes job) nn1 = Some p1 /\
    at_index (nodes job) nn2 = Some p2 /\
    let st1 :=
      calcAelem (mkAssembler (Kelem st)
                   (assign (Klocal st)
                      (Klocal_writes (EA pr) (EIz pr) (EIy pr) (GJ pr) (norm p1 p2)))
                   (Aelem st) (AelemT st))
                (Vector3d_ops.normalized (Vector3d_ops.sub p2 p1))
                (Vector3d_ops.normalized (normal_vec pr)) in
    st' = mkAssembler (mmul (mmul (AelemT st1) (Klocal st1)) (Aelem st1))
                      (Klocal st1) (Aelem st1) (AelemT st1).
Proof.
  unfold calcKelem. intros H.
  destruct (nth_error (props job) i) as [pr|] eqn:E1; [|discriminate].
  destruct (nth_error (elems job) i) as [[nn1 nn2]|] eqn:E2; [|discriminate].
  destruct (at_index (nodes job) nn1) as [p1|] eqn:E3; [|discriminate].
  destruct (at_index (nodes job) nn2) as [p2|] eqn:E4; [|discriminate].
  exists pr, nn1, nn2, p1, p2.
  injection H as <-. cbv zeta. auto 6.
Qed.

Lemma clean_calcKelem st i job st' :
  clean st -> calcKelem st i job = Some st' -> clean st'.
Proof.
  intros Hc H. apply calcKelem_inv in H.
  destruct H as (pr & nn1 & nn2 & p1 & p2 & _ & _ & _ & _ & ->).
  match goal with |- clean (mkAssembler _ (Klocal ?s) _ _) => assert (Hs : clean s) end.
  { apply clean_calcAelem. destruct Hc as [HK HA HT]. split; cbn [Klocal Aelem AelemT]; auto.
    intros r c H. rewrite Klocal_assigned by exact HK.
    now apply spec_Klocal_zero_off_pattern. }
  destruct Hs as [HK HA HT]. split; cbn [Klocal Aelem AelemT]; auto.
Qed.

(** ** The local stiffness matrix *)

Lemma norm_pos (p1 p2 : Node) : p1 <> p2 -> 0 < norm p1 p2.
Proof.
  intros Hd. unfold norm, Vector3d_ops.norm. apply sqrt_lt_R0.
  destruct p1 as [x1 y1 z1], p2 as [x2 y2 z2].
  cbv [Vector3d_ops.squaredNorm Vector3d_ops.dot Vector3d_ops.sub vx vy vz].
  pose proof (Rle_0_sqr (x2 - x1)) as Hx.
  pose proof (Rle_0_sqr (y2 - y1)) as Hy.
  pose proof (Rle_0_sqr (z2 - z1)) as Hz.
  unfold Rsqr in *.
  destruct (Req_dec_T x1 x2) as [->|Nx].
  - destruct (Req_dec_T y1 y2) as [->|Ny].
    + destruct (Req_dec_T z1 z2) as [->|Nz]; [now elim Hd|].
      assert (0 < Rsqr (z2 - z1)) by (apply Rsqr_pos_lt; lra).
      unfold Rsqr in *. lra.
    + assert (0 < Rsqr (y2 - y1)) by (apply Rsqr_pos_lt; lra).
      unfold Rsqr in *. lra.
  - assert (0 < Rsqr (x2 - x1)) by (apply Rsqr_pos_lt; lra).
    unfold Rsqr in *. lra.
Qed.

(** C1. For an element whose two endpoints are distinct, so that its length
    [L] is positive, [calcKelem] returns and leaves in [Klocal] the matrix
    of the specification for a = EA/L, t = GJ/L, z3 = 12 EIz/L^3,
    z2 = 6 EIz/L^2, z1 = EIz/L, y3 = 12 EIy/L^3, y2 = 6 EIy/L^2, y1 = EIy/L:
    the listed entries, zero everywhere else, and a symmetric matrix. *)
Theorem calcKelem_local_stiffness :
  forall st job i pr nn1 nn2 p1 p2,
    clean st ->
    nth_error (props job) i = Some pr ->
    nth_error (elems job) i = Some (nn1, nn2) ->
    at_index (nodes job) nn1 = Some p1 ->
    at_index (nodes job) nn2 = Some p2 ->
    p1 <> p2 ->
    let L := norm p1 p2 in
    0 < L /\
    exists st',
      calcKelem st i job = Some st' /\
      (forall r c,
         Klocal st' r c =
         spec_Klocal (EA pr / L) (GJ pr / L)
                     (12 * EIz pr / L ^ 3) (6 * EIz pr / L ^ 2) (EIz pr / L)
                     (12 * EIy pr / L ^ 3) (6 * EIy pr / L ^ 2) (EIy pr / L) r c) /\
      (forall r c, Klocal st' r c = Klocal st' c r).
Proof.
  intros st job i pr nn1 nn2 p1 p2 Hc Hp He H1 H2 Hd L.
  assert (HL : 0 < L) by now apply norm_pos.
  split; [exact HL|].
  unfold calcKelem. rewrite Hp, He, H1, H2.
  eexists. split; [reflexivity|].
  cbn [Klocal calcAelem]. fold L.
  replace (L ^ 3) with (L * L * L) by ring.
  replace (L ^ 2) with (L * L) by ring.
  split; intros r c.
  - apply Klocal_assigned. apply Hc.
  - rewrite !Klocal_assigned by apply Hc. apply spec_Klocal_symmetric.
Qed.

Lemma calcKelem_local_stiffness_witness :
  0 < norm (Vec3 0 0 0) (Vec3 1 0 0) /\
  exists st',
    calcKelem GlobalStiffAssembler_new 0 JOB_CANTILEVER = Some st' /\
    (forall r c,
       Klocal st' r c =
       spec_Klocal (1 / norm (Vec3 0 0 0) (Vec3 1 0 0))
                   (1 / norm (Vec3 0 0 0) (Vec3 1 0 0))
                   (12 * 1 / norm (Vec3 0 0 0) (Vec3 1 0 0) ^ 3)
                   (6 * 1 / norm (Vec3 0 0 0) (Vec3 1 0 0) ^ 2)
                   (1 / norm (Vec3 0 0 0) (Vec3 1 0 0))
                   (12 * 1 / norm (Vec3 0 0 0) (Vec3 1 0 0) ^ 3)
                   (6 * 1 / norm (Vec3 0 0 0) (Vec3 1 0 0) ^ 2)
                   (1 / norm (Vec3 0 0 0) (Vec3 1 0 0)) r c) /\
    (forall r c, Klocal st' r c = Klocal st' c r).
Proof.
  apply (@calcKelem_local_stiffness GlobalStiffAssembler_new JOB_CANTILEVER 0%nat
           (mkProps 1 1 1 1 (Vec3 0 0 1)) 0%Z 1%Z (Vec3 0 0 0) (Vec3 1 0 0)).
  - exact clean_new.
  - reflexivity.
  - reflexivity.
  - reflexivity.
  - reflexivity.
  - intros H. injection H as H. lra.
Defined.

(** ** The rotation matrix *)

(** What [calcAelem] leaves in [Aelem] and [AelemT]: the rows [nx], [ny]
    and the cross product divided by its squared norm. *)
Lemma calcAelem_rows st nx ny :
  clean st ->
  let nz := Vector3d_ops.div (Vector3d_ops.cross nx ny)
              (Vector3d_ops.squaredNorm (Vector3d_ops.cross nx ny)) in
  (forall r c, Aelem (calcAelem st nx ny) r c = spec_rotation nx ny nz r c) /\
  (forall r c, AelemT (calcAelem st nx ny) r c = spec_rotation nx ny nz c r).
Proof.
  intros [_ HA HT] nz. split; intros r c; cbn [calcAelem Aelem AelemT].
  - now apply Aelem_assigned.
  - now apply AelemT_assigned.
Qed.

Lemma calcAelem_transposed st nx ny r c :
  clean st -> AelemT (calcAelem st nx ny) r c = transpose (Aelem (calcAelem st nx ny)) r c.
Proof.
  intros Hc. destruct (calcAelem_rows nx ny Hc) as [HA HT].
  unfold transpose. now rewrite HA, HT.
Qed.

Ltac run_rotation :=
  cbv [spec_rotation block_diag Nat.ltb Nat.leb Nat.eqb andb Nat.div Nat.modulo
       Nat.divmod fst snd Nat.sub Vector3d_ops.coord].

(** C3. On the unit axis (1, 0, 0) with the unit normal (3/5, 4/5, 0),
    whose cross product (0, 0, 4/5) is not zero, [calcAelem] writes the rows
    [nx] and [ny] and the third row (0, 0, 5/4): the cross product divided
    by its squared norm 16/25, a row of Euclidean norm 5/4 and not 1. *)
Theorem calcAelem_third_row_not_unit :
  let nx := Vec3 1 0 0 in
  let ny := Vec3 (3 / 5) (4 / 5) 0 in
  let A := Aelem (calcAelem GlobalStiffAssembler_new nx ny) in
  Vector3d_ops.squaredNorm nx = 1 /\
  Vector3d_ops.squaredNorm ny = 1 /\
  Vector3d_ops.cross nx ny = Vec3 0 0 (4 / 5) /\
  (A@[0, 0] = 1 /\ A@[0, 1] = 0 /\ A@[0, 2] = 0) /\
  (A@[1, 0] = 3 / 5 /\ A@[1, 1] = 4 / 5 /\ A@[1, 2] = 0) /\
  (A@[2, 0] = 0 /\ A@[2, 1] = 0 /\ A@[2, 2] = 5 / 4) /\
  sqrt (A@[2, 0] * A@[2, 0] + A@[2, 1] * A@[2, 1] + A@[2, 2] * A@[2, 2]) = 5 / 4 /\
  sqrt (A@[2, 0] * A@[2, 0] + A@[2, 1] * A@[2, 1] + A@[2, 2] * A@[2, 2]) <> 1.
Proof.
  intros nx ny A.
  assert (E20 : A@[2, 0] = 0).
  { subst A nx ny. cbn [calcAelem Aelem]. run_assign.
    cbv [Vector3d_ops.div Vector3d_ops.cross Vector3d_ops.squaredNorm
         Vector3d_ops.dot vx vy vz]. field. }
  assert (E21 : A@[2, 1] = 0).
  { subst A nx ny. cbn [calcAelem Aelem]. run_assign.
    cbv [Vector3d_ops.div Vector3d_ops.cross Vector3d_ops.squaredNorm
         Vector3d_ops.dot vx vy vz]. field. }
  assert (E22 : A@[2, 2] = 5 / 4).
  { subst A nx ny. cbn [calcAelem Aelem]. run_assign.
    cbv [Vector3d_ops.div Vector3d_ops.cross Vector3d_ops.squaredNorm
         Vector3d_ops.dot vx vy vz]. field. }
  assert (Es : sqrt (A@[2, 0] * A@[2, 0] + A@[2, 1] * A@[2, 1] + A@[2, 2] * A@[2, 2]) = 5 / 4).
  { rewrite E20, E21, E22.
    replace (0 * 0 + 0 * 0 + 5 / 4 * (5 / 4)) with (Rsqr (5 / 4)) by (unfold Rsqr; lra).
    apply sqrt_Rsqr. lra. }
  repeat split; try exact E20; try exact E21; try exact E22; try exact Es;
    try (subst A nx ny; cbn [calcAelem Aelem]; run_assign; reflexivity);
    try (rewrite Es; lra).
  - cbv [nx Vector3d_ops.squaredNorm Vector3d_ops.dot vx vy vz]. lra.
  - cbv [ny Vector3d_ops.squaredNorm Vector3d_ops.dot vx vy vz]. lra.
  - cbv [nx ny Vector3d_ops.cross vx vy vz]. f_equal; lra.
Qed.

Ltac run_vector :=
  cbv [Vector3d_ops.div Vector3d_ops.cross Vector3d_ops.squaredNorm
       Vector3d_ops.dot vx vy vz].

Lemma calcAelem_not_orthogonal :
  let nx := Vec3 1 0 0 in
  let ny := Vec3 (3 / 5) (4 / 5) 0 in
  let Rot := Aelem (calcAelem GlobalStiffAssembler_new nx ny) in
  Vector3d_ops.squaredNorm nx = 1 /\
  Vector3d_ops.squaredNorm ny = 1 /\
  Vector3d_ops.cross nx ny <> Vec3 0 0 0 /\
  (mmul (transpose Rot) Rot)@[0, 1] = 12 / 25 /\
  ~ (forall r c, (r < 12)%nat -> (c < 12)%nat ->
       mmul (transpose Rot) Rot r c = identity r c).
Proof.
  intros nx ny Rot.
  assert (E : (mmul (transpose Rot) Rot)@[0, 1] = 12 / 25).
  { subst Rot nx ny. unfold mmul, transpose. cbn [sum_upto calcAelem Aelem].
    run_assign. run_vector. cbv [GlobalStiffAssembler_new Aelem setZero]. field. }
  split; [cbv [nx]; run_vector; lra|].
  split; [cbv [ny]; run_vector; lra|].
  split.
  - cbv [nx ny]. run_vector. intros H. injection H as H. lra.
  - split; [exact E|]. intros H.
    specialize (H 0%nat 1%nat ltac:(lia) ltac:(lia)).
    rewrite E in H. cbv [identity Nat.eqb] in H. lra.
Qed.

Lemma squaredNorm_cross_perpendicular (nx ny : Vector3d) :
  Vector3d_ops.squaredNorm nx = 1 ->
  Vector3d_ops.squaredNorm ny = 1 ->
  Vector3d_ops.dot nx ny = 0 ->
  Vector3d_ops.squaredNorm (Vector3d_ops.cross nx ny) = 1.
Proof.
  destruct nx as [a0 a1 a2], ny as [b0 b1 b2].
  cbv [Vector3d_ops.cross Vector3d_ops.squaredNorm Vector3d_ops.dot vx vy vz].
  intros Ha Hb Hab. nsatz.
Qed.

Lemma div_by_one (v : Vector3d) : Vector3d_ops.div v 1 = v.
Proof. destruct v. unfold Vector3d_ops.div. cbn [vx vy vz]. f_equal; field. Qed.

Lemma spec_rotation_orthogonal (nx ny : Vector3d) :
  Vector3d_ops.squaredNorm nx = 1 ->
  Vector3d_ops.squaredNorm ny = 1 ->
  Vector3d_ops.dot nx ny = 0 ->
  let Rot := spec_rotation nx ny (Vector3d_ops.cross nx ny) in
  forall r c, (r < 12)%nat -> (c < 12)%nat ->
    sum_upto 12 (fun k => Rot k r * Rot k c) = identity r c.
Proof.
  destruct nx as [a0 a1 a2], ny as [b0 b1 b2].
  cbv [Vector3d_ops.squaredNorm Vector3d_ops.dot vx vy vz].
  intros Ha Hb Hab r c Hr Hc.
  cbn [sum_upto].
  split12 r; try lia; split12 c; try lia; run_rotation;
    cbv [identity Nat.eqb Vector3d_ops.cross vx vy vz];
    first [ ring | nsatz ].
Qed.

Lemma spec_rotation_identity r c :
  (r < 12)%nat -> (c < 12)%nat ->
  spec_rotation (Vec3 1 0 0) (Vec3 0 1 0) (Vec3 0 0 1) r c = identity r c.
Proof.
  intros Hr Hc. split12 r; try lia; split12 c; try lia; reflexivity.
Qed.

(** C4 (amended). With the axis (1, 0, 0) and the normal (0, 1, 0) the
    rotation matrix [calcAelem] builds is the identity; and for every unit
    axis [nx] and unit normal [ny] perpendicular to it, the matrix [R] it
    builds satisfies R^T R = I. *)
Theorem calcAelem_identity_and_orthogonal :
  forall st nx ny,
    clean st ->
    Vector3d_ops.squaredNorm nx = 1 ->
    Vector3d_ops.squaredNorm ny = 1 ->
    Vector3d_ops.dot nx ny = 0 ->
    (forall r c, (r < 12)%nat -> (c < 12)%nat ->
       Aelem (calcAelem st (Vec3 1 0 0) (Vec3 0 1 0)) r c = identity r c) /\
    (forall r c, (r < 12)%nat -> (c < 12)%nat ->
       mmul (transpose (Aelem (calcAelem st nx ny))) (Aelem (calcAelem st nx ny)) r c
       = identity r c).
Proof.
  intros st nx ny Hc Hx Hy Hxy. split; intros r c Hr Hcc.
  - destruct (calcAelem_rows (Vec3 1 0 0) (Vec3 0 1 0) Hc) as [HA _].
    rewrite HA.
    replace (Vector3d_ops.div _ _) with (Vec3 0 0 1)
      by (run_vector; f_equal; field).
    now apply spec_rotation_identity.
  - destruct (calcAelem_rows nx ny Hc) as [HA _].
    unfold mmul, transpose. cbn [sum_upto]. rewrite !HA.
    rewrite squaredNorm_cross_perpendicular by assumption.
    rewrite div_by_one.
    now apply (spec_rotation_orthogonal Hx Hy Hxy).
Qed.

Lemma calcAelem_identity_and_orthogonal_witness :
  let nx := Vec3 (3 / 5) (4 / 5) 0 in
  let ny := Vec3 (- 4 / 5) (3 / 5) 0 in
  (Vector3d_ops.squaredNorm nx = 1 /\
   Vector3d_ops.squaredNorm ny = 1 /\
   Vector3d_ops.dot nx ny = 0) /\
  (forall r c, (r < 12)%nat -> (c < 12)%nat ->
     Aelem (calcAelem GlobalStiffAssembler_new (Vec3 1 0 0) (Vec3 0 1 0)) r c
     = identity r c) /\
  (forall r c, (r < 12)%nat -> (c < 12)%nat ->
     mmul (transpose (Aelem (calcAelem GlobalStiffAssembler_new nx ny)))
          (Aelem (calcAelem GlobalStiffAssembler_new nx ny)) r c
     = identity r c).
Proof.
  intros nx ny.
  assert (Hx : Vector3d_ops.squaredNorm nx = 1) by (cbv [nx]; run_vector; lra).
  assert (Hy : Vector3d_ops.squaredNorm ny = 1) by (cbv [ny]; run_vector; lra).
  assert (Hxy : Vector3d_ops.dot nx ny = 0) by (cbv [nx ny]; run_vector; lra).
  split; [auto|].
  exact (@calcAelem_identity_and_orthogonal GlobalStiffAssembler_new nx ny
           clean_new Hx Hy Hxy).
Defined.

(** The element kernel on a normal parallel to the axis *)

Lemma calcAelem_parallel_normal_returns :
  let nx := Vec3 1 0 0 in
  let ny := Vec3 1 0 0 in
  Vector3d_ops.cross nx ny = Vec3 0 0 0 /\
  (forall what, calcAelem_call GlobalStiffAssembler_new nx ny <> Thrown what) /\
  exists st', calcAelem_call GlobalStiffAssembler_new nx ny = Returned st'.
Proof.
  intros nx ny. split; [|split].
  - cbv [nx ny]. run_vector. f_equal; lra.
  - intros what H. discriminate H.
  - eexists. reflexivity.
Qed.

(** C8 (amended). For a normal parallel to the axis, the cross product zero
    or near zero (its squared norm [dlz] within any tolerance), [calcAelem]
    signals no error: it returns. *)
Theorem calcAelem_parallel_normal_no_error :
  forall st nx ny tol,
    0 <= tol ->
    Vector3d_ops.squaredNorm (Vector3d_ops.cross nx ny) <= tol ->
    (exists st', calcAelem_call st nx ny = Returned st') /\
    (forall what, calcAelem_call st nx ny <> Thrown what).
Proof.
  intros st nx ny tol _ _. split.
  - exists (calcAelem st nx ny). reflexivity.
  - intros what H. discriminate H.
Qed.

Lemma calcAelem_parallel_normal_no_error_witness :
  let nx := Vec3 1 0 0 in
  let ny := Vec3 1 (1 / 1000) 0 in
  let tol := 1 / 1000000 in
  (0 <= tol /\ Vector3d_ops.squaredNorm (Vector3d_ops.cross nx ny) <= tol) /\
  (exists st', calcAelem_call GlobalStiffAssembler_new nx ny = Returned st') /\
  (forall what, calcAelem_call GlobalStiffAssembler_new nx ny <> Thrown what).
Proof.
  intros nx ny tol.
  assert (Ht : 0 <= tol) by (cbv [tol]; lra).
  assert (Hz : Vector3d_ops.squaredNorm (Vector3d_ops.cross nx ny) <= tol)
    by (cbv [nx ny tol]; run_vector; lra).
  split; [split; assumption|].
  exact (@calcAelem_parallel_normal_no_error GlobalStiffAssembler_new nx ny tol Ht Hz).
Defined.

(** ** Sums of triplets and [setFromTriplets] *)

Lemma triplet_sum_app ts1 ts2 i j :
  triplet_sum (ts1 ++ ts2) i j = triplet_sum ts1 i j + triplet_sum ts2 i j.
Proof.
  induction ts1 as [|t ts1 IH]; cbn [app triplet_sum]; [ring|].
  rewrite IH. ring.
Qed.

Lemma triplet_sum_flat_map_seq (g : nat -> list Triplet) n i j :
  triplet_sum (flat_map g (seq 0 n)) i j = sum_upto n (fun k => triplet_sum (g k) i j).
Proof.
  induction n as [|n IH]; [reflexivity|].
  rewrite seq_S, flat_map_app, triplet_sum_app, IH.
  cbn [flat_map sum_upto Nat.add]. rewrite app_nil_r. reflexivity.
Qed.

Lemma sum_upto_ext n f g :
  (forall k, (k < n)%nat -> f k = g k) -> sum_upto n f = sum_upto n g.
Proof.
  induction n as [|n IH]; intros H; [reflexivity|].
  cbn [sum_upto]. rewrite IH, H by auto with arith. reflexivity.
Qed.

Lemma sum_upto_plus n f g :
  sum_upto n (fun k => f k + g k) = sum_upto n f + sum_upto n g.
Proof.
  induction n as [|n IH]; cbn [sum_upto]; [ring|]. rewrite IH. ring.
Qed.

Lemma sum_upto_zero n : sum_upto n (fun _ => 0) = 0.
Proof. induction n as [|n IH]; cbn [sum_upto]; [reflexivity|]. rewrite IH. ring. Qed.

Lemma sum_upto_scale n a f :
  sum_upto n (fun k => a * f k) = a * sum_upto n f.
Proof.
  induction n as [|n IH]; cbn [sum_upto]; [ring|]. rewrite IH. ring.
Qed.

Lemma sum_upto_swap n m (f : nat -> nat -> R) :
  sum_upto n (fun r => sum_upto m (fun c => f r c)) =
  sum_upto m (fun c => sum_upto n (fun r => f r c)).
Proof.
  induction n as [|n IH]; cbn [sum_upto].
  - now rewrite sum_upto_zero.
  - rewrite IH. now rewrite <- sum_upto_plus.
Qed.

(** A sum with a single term that is not zero. *)
Lemma sum_upto_single n (k : nat) (v : R) :
  sum_upto n (fun m => if (m =? k)%nat then v else 0) = if (k <? n)%nat then v else 0.
Proof.
  induction n as [|n IH]; [reflexivity|].
  cbn [sum_upto]. rewrite IH.
  destruct (Nat.eqb_spec n k) as [->|Hne].
  - rewrite Nat.ltb_irrefl.
    replace (k <? S k)%nat with true by (symmetry; apply Nat.ltb_lt; lia). ring.
  - destruct (Nat.ltb_spec k n); destruct (Nat.ltb_spec k (S n)); try lia; ring.
Qed.

Lemma triplet_sum_not_touched ts i j :
  ~ In (i, j) (map (fun t => (t_row t, t_col t)) ts) -> triplet_sum ts i j = 0.
Proof.
  induction ts as [|t ts IH]; intros H; [reflexivity|].
  cbn [triplet_sum]. cbn [map In] in H.
  rewrite IH by tauto.
  unfold at_coord.
  destruct (Z.eqb_spec (t_row t) i); destruct (Z.eqb_spec (t_col t) j);
    cbn [andb]; try ring.
  subst. exfalso. apply H. now left.
Qed.

(** One coefficient per coordinate, holding [f] of the coordinate. *)
Lemma triplet_sum_one_per_coord (f : Z * Z -> R) (l : list (Z * Z)) i j :
  NoDup l ->
  triplet_sum (map (fun rc => mkTriplet (fst rc) (snd rc) (f rc)) l) i j =
  if in_dec coord_eq_dec (i, j) l then f (i, j) else 0.
Proof.
  induction 1 as [|[a b] l Hnin Hnd IH]; [reflexivity|].
  cbn [map triplet_sum]. rewrite IH. unfold at_coord. cbn [t_row t_col t_value fst snd].
  destruct (in_dec coord_eq_dec (i, j) ((a, b) :: l)) as [Hin|Hout];
    destruct (in_dec coord_eq_dec (i, j) l) as [Hin'|Hout'].
  - destruct (Z.eqb_spec a i); destruct (Z.eqb_spec b j); cbn [andb]; try ring.
    subst. now elim Hnin.
  - destruct Hin as [E|Hin]; [|now elim Hout'].
    injection E as -> ->. rewrite !Z.eqb_refl. cbn [andb]. ring.
  - elim Hout. now right.
  - destruct (Z.eqb_spec a i); destruct (Z.eqb_spec b j); cbn [andb]; try ring.
    subst. elim Hout. now left.
Qed.

(** [setFromTriplets] sums the triplets given for one coordinate. *)
Lemma setFromTriplets_coeff M ts M' :
  setFromTriplets M ts = Some M' ->
  rows M' = rows M /\ cols M' = cols M /\
  forall i j, coeff M' i j = triplet_sum ts i j.
Proof.
  unfold setFromTriplets. destruct (forallb _ ts); [|discriminate].
  intros H. injection H as <-. cbn [rows cols]. repeat split.
  intros i j. unfold coeff. cbn [stored].
  rewrite triplet_sum_one_per_coord by apply NoDup_nodup.
  destruct (in_dec coord_eq_dec (i, j) (coords ts)) as [Hin|Hout]; [reflexivity|].
  symmetry. apply triplet_sum_not_touched.
  intros Hin. apply Hout. unfold coords. now apply nodup_In.
Qed.

Lemma setFromTriplets_stored_in_range M ts M' :
  setFromTriplets M ts = Some M' ->
  Forall (fun t => in_range (rows M) (cols M) t = true) (stored M').
Proof.
  unfold setFromTriplets. destruct (forallb _ ts) eqn:E; [|discriminate].
  intros H. injection H as <-. cbn [stored].
  rewrite forallb_forall in E.
  apply Forall_forall. intros t Ht. apply in_map_iff in Ht.
  destruct Ht as ([a b] & <- & Hin). unfold coords in Hin.
  apply nodup_In in Hin. apply in_map_iff in Hin.
  destruct Hin as (t & Et & Hin). injection Et as <- <-.
  specialize (E t Hin). unfold in_range in *. exact E.
Qed.

Lemma setFromTriplets_succeeds M ts :
  Forall (fun t => in_range (rows M) (cols M) t = true) ts ->
  exists M', setFromTriplets M ts = Some M'.
Proof.
  intros H. unfold setFromTriplets.
  replace (forallb _ ts) with true; [eexists; reflexivity|].
  symmetry. apply forallb_forall. now apply Forall_forall.
Qed.

(** ** Index arithmetic of the scatter *)

Lemma to_int_add_mul (a b : Z) :
  (0 <= NUM_DOFS * a + b <= UInt.INT_MAX)%Z ->
  UInt.to_int (UInt.add (UInt.mul NUM_DOFS a) b) = (NUM_DOFS * a + b)%Z.
Proof.
  intros H. unfold UInt.add, UInt.mul, UInt.wrap.
  rewrite Z.add_mod_idemp_l by (unfold UInt.modulus; lia).
  unfold UInt.to_int, UInt.wrap. rewrite Z.mod_mod by (unfold UInt.modulus; lia).
  assert (Hs : ((NUM_DOFS * a + b) mod UInt.modulus = NUM_DOFS * a + b)%Z).
  { apply Z.mod_small. unfold UInt.INT_MAX, UInt.modulus in *. lia. }
  rewrite Hs. cbv zeta.
  destruct (NUM_DOFS * a + b <? 2 ^ 31)%Z eqn:E; [reflexivity|].
  apply Z.ltb_ge in E. unfold UInt.INT_MAX in H. lia.
Qed.

(** The four branches of the innermost loop, with their [nn2 - 1] and
    wrap-around, are the scatter policy of the specification. *)
Lemma scatter_spec (nn1 nn2 : Z) (r c : nat) (v : R) :
  (0 <= nn1)%Z -> (0 <= nn2)%Z ->
  (6 * nn1 + 5 <= UInt.INT_MAX)%Z -> (6 * nn2 + 5 <= UInt.INT_MAX)%Z ->
  (r < 12)%nat -> (c < 12)%nat ->
  scatter nn1 nn2 (r, c, v) =
  mkTriplet (spec_scatter_index nn1 nn2 r) (spec_scatter_index nn1 nn2 c) v.
Proof.
  intros H1 H2 B1 B2 Hr Hc.
  unfold scatter, spec_scatter_index, Triplet_of_unsigned. cbn [fst snd].
  destruct (Z.ltb_spec (Z.of_nat r) 6) as [Lr|Lr];
    destruct (Z.ltb_spec (Z.of_nat c) 6) as [Lc|Lc];
    destruct (Nat.ltb_spec r 6); destruct (Nat.ltb_spec c 6); try lia;
    rewrite !to_int_add_mul by (unfold NUM_DOFS; lia);
    unfold NUM_DOFS; f_equal; lia.
Qed.

Lemma spec_scatter_index_bounds (n1 n2 N : Z) (r : nat) :
  (0 <= n1 < N)%Z -> (0 <= n2 < N)%Z -> (r < 12)%nat ->
  (0 <= spec_scatter_index n1 n2 r < 6 * N)%Z.
Proof.
  intros H1 H2 Hr. unfold spec_scatter_index.
  destruct (Nat.ltb_spec r 6); lia.
Qed.

(** ** The entries of [sparseView] *)

Lemma sparseView_entries_ext (K K' : LocalMatrix) :
  (forall r c, K r c = K' r c) -> sparseView_entries K = sparseView_entries K'.
Proof.
  intros H. unfold sparseView_entries.
  apply flat_map_ext. intros j. apply flat_map_ext. intros r.
  now rewrite H.
Qed.

Lemma sparseView_entries_in (K : LocalMatrix) e :
  In e (sparseView_entries K) ->
  (fst (fst e) < 12)%nat /\ (snd (fst e) < 12)%nat /\
  snd e = K (fst (fst e)) (snd (fst e)) /\ snd e <> 0.
Proof.
  unfold sparseView_entries. intros H.
  apply in_flat_map in H. destruct H as (j & Hj & H).
  apply in_flat_map in H. destruct H as (r & Hr & H).
  apply in_seq in Hj. apply in_seq in Hr.
  destruct (Req_dec_T (K r j) 0) as [E|E]; [contradiction|].
  destruct H as [<-|[]]. cbn [fst snd]. repeat split; try lia. exact E.
Qed.

Lemma triplet_sum_scatter (K : LocalMatrix) (nn1 nn2 : Z) (I J : Z) :
  (0 <= nn1)%Z -> (0 <= nn2)%Z ->
  (6 * nn1 + 5 <= UInt.INT_MAX)%Z -> (6 * nn2 + 5 <= UInt.INT_MAX)%Z ->
  triplet_sum (map (scatter nn1 nn2) (sparseView_entries K)) I J =
  scattered_sum K nn1 nn2 I J.
Proof.
  intros H1 H2 B1 B2. unfold scattered_sum, sparseView_entries.
  rewrite sum_upto_swap.
  rewrite flat_map_concat_map, concat_map, map_map, <- flat_map_concat_map.
  rewrite triplet_sum_flat_map_seq.
  apply sum_upto_ext. intros j Hj.
  rewrite flat_map_concat_map, concat_map, map_map, <- flat_map_concat_map.
  rewrite triplet_sum_flat_map_seq.
  apply sum_upto_ext. intros r Hr.
  destruct (Req_dec_T (K r j) 0) as [E|E].
  - cbn [map triplet_sum]. rewrite E. now destruct (_ && _)%bool.
  - cbn [map triplet_sum]. rewrite scatter_spec by assumption.
    unfold at_coord. cbn [t_row t_col t_value]. ring.
Qed.

(** ** The loop over the elements *)

Lemma at_index_some {A : Type} (v : list A) (k : Z) :
  (0 <= k < Z.of_nat (length v))%Z -> exists x, at_index v k = Some x.
Proof.
  intros H. unfold at_index.
  destruct (Z.ltb_spec k 0); [lia|].
  destruct (nth_error v (Z.to_nat k)) as [x|] eqn:E; [now exists x|].
  apply nth_error_None in E. lia.
Qed.

Lemma mmul_ext (A A' B B' : LocalMatrix) :
  (forall r c, A r c = A' r c) -> (forall r c, B r c = B' r c) ->
  forall r c, mmul A B r c = mmul A' B' r c.
Proof.
  intros HA HB r c. unfold mmul. apply sum_upto_ext. intros k _.
  now rewrite HA, HB.
Qed.

(** The element matrix does not depend on what earlier elements left in
    the assembler. *)
Lemma calcKelem_canonical st i job st' :
  clean st -> calcKelem st i job = Some st' ->
  forall r c, Kelem st' r c = element_matrix job i r c.
Proof.
  intros Hc H. unfold element_matrix.
  destruct (calcKelem_inv _ _ _ H) as (pr & nn1 & nn2 & p1 & p2 & Ep & Ee & E1 & E2 & ->).
  unfold calcKelem. rewrite Ep, Ee, E1, E2.
  cbn [Kelem]. cbn [calcAelem Klocal Aelem AelemT].
  destruct Hc as [HK HA HT]. pose proof clean_new as [HK0 HA0 HT0].
  apply mmul_ext; [apply mmul_ext|]; intros r c.
  - now rewrite !AelemT_assigned.
  - now rewrite !Klocal_assigned.
  - now rewrite !Aelem_assigned.
Qed.

Lemma calcKelem_succeeds st i job n1 n2 :
  (i < length (props job))%nat ->
  nth_error (elems job) i = Some (n1, n2) ->
  valid_node job n1 -> valid_node job n2 ->
  exists st', calcKelem st i job = Some st'.
Proof.
  intros Hp He H1 H2. unfold calcKelem. rewrite He.
  destruct (nth_error (props job) i) as [pr|] eqn:Ep;
    [|apply nth_error_None in Ep; lia].
  destruct (at_index_some (nodes job) H1) as [p1 ->].
  destruct (at_index_some (nodes job) H2) as [p2 ->].
  eexists. reflexivity.
Qed.

Lemma in_range_mono (p q p' q' : Z) t :
  (p <= p')%Z -> (q <= q')%Z -> in_range p q t = true -> in_range p' q' t = true.
Proof.
  unfold in_range. intros Hp Hq H.
  apply andb_true_iff in H. destruct H as [H H4].
  apply andb_true_iff in H. destruct H as [H H3].
  apply andb_true_iff in H. destruct H as [H1 H2].
  apply Z.leb_le in H1, H3. apply Z.ltb_lt in H2, H4.
  repeat (apply andb_true_iff; split);
    try (apply Z.leb_le; lia); apply Z.ltb_lt; lia.
Qed.

Lemma in_range_iff (p q : Z) t :
  in_range p q t = true <-> (0 <= t_row t < p /\ 0 <= t_col t < q)%Z.
Proof.
  unfold in_range. rewrite !andb_true_iff, !Z.leb_le, !Z.ltb_lt. lia.
Qed.

Lemma scatter_in_range (job : Job) (K : LocalMatrix) (n1 n2 : Z) :
  valid_node job n1 -> valid_node job n2 ->
  (6 * Z.of_nat (length (nodes job)) <= UInt.INT_MAX)%Z ->
  Forall (fun t => in_range (6 * Z.of_nat (length (nodes job)))
                            (6 * Z.of_nat (length (nodes job))) t = true)
         (map (scatter n1 n2) (sparseView_entries K)).
Proof.
  intros H1 H2 Hs. unfold valid_node in *.
  apply Forall_forall. intros t Ht. apply in_map_iff in Ht.
  destruct Ht as ([[r c] v] & <- & Hin).
  apply sparseView_entries_in in Hin. cbn [fst snd] in Hin.
  destruct Hin as (Hr & Hc & _ & _).
  rewrite scatter_spec by lia. apply in_range_iff. cbn [t_row t_col].
  split; apply spec_scatter_index_bounds; assumption.
Qed.

Lemma sum_upto_shift n (f : nat -> R) :
  sum_upto (S n) f = f 0%nat + sum_upto n (fun k => f (S k)).
Proof.
  induction n as [|n IH]; [cbn [sum_upto]; ring|].
  change (sum_upto (S (S n)) f) with (sum_upto (S n) f + f (S n)).
  rewrite IH. cbn [sum_upto]. ring.
Qed.

Lemma element_loop (job : Job) :
  (length (elems job) <= length (props job))%nat ->
  Forall (fun e => valid_node job (fst e) /\ valid_node job (snd e)) (elems job) ->
  (6 * Z.of_nat (length (nodes job)) <= UInt.INT_MAX)%Z ->
  forall n a st ts,
    clean st -> (a + n <= length (elems job))%nat ->
    exists st' ts',
      fold_left (element_step job) (seq a n) (Some (st, ts)) = Some (st', ts ++ ts') /\
      clean st' /\
      Forall (fun t => in_range (6 * Z.of_nat (length (nodes job)))
                                (6 * Z.of_nat (length (nodes job))) t = true) ts' /\
      forall I J,
        triplet_sum ts' I J =
        sum_upto n (fun k => element_contribution job (a + k) I J).
Proof.
  intros Hp He Hs. induction n as [|n IH]; intros a st ts Hc Ha.
  - exists st, []. cbn [seq fold_left sum_upto triplet_sum].
    rewrite app_nil_r. auto.
  - cbn [seq fold_left]. unfold element_step at 2.
    destruct (nth_error (elems job) a) as [[n1 n2]|] eqn:Ee;
      [|apply nth_error_None in Ee; lia].
    assert (Hv : valid_node job n1 /\ valid_node job n2).
    { rewrite Forall_forall in He.
      apply (He (n1, n2)). eapply nth_error_In; eassumption. }
    destruct Hv as [Hv1 Hv2].
    destruct (@calcKelem_succeeds st a job n1 n2) as [st1 E1]; try assumption; try lia.
    rewrite E1.
    assert (Hc1 : clean st1) by (eapply clean_calcKelem; eassumption).
    destruct (IH (S a) st1
                (ts ++ map (scatter n1 n2) (sparseView_entries (Kelem st1))) Hc1)
      as (st' & ts' & Ef & Hc' & Hr & Hsum); [lia|].
    exists st', (map (scatter n1 n2) (sparseView_entries (Kelem st1)) ++ ts').
    rewrite Ef, app_assoc. split; [reflexivity|]. split; [exact Hc'|]. split.
    + apply Forall_app. split; [|exact Hr]. now apply scatter_in_range.
    + intros I J. rewrite triplet_sum_app, Hsum, sum_upto_shift.
      rewrite Nat.add_0_r. f_equal.
      * unfold valid_node in *.
        rewrite triplet_sum_scatter by lia.
        unfold element_contribution. rewrite Ee.
        unfold scattered_sum. apply sum_upto_ext. intros r _.
        apply sum_upto_ext. intros c _.
        now rewrite (calcKelem_canonical _ _ Hc E1).
      * apply sum_upto_ext. intros k _. now rewrite Nat.add_succ_r.
Qed.

(** ** Ties and the assembled matrix *)

Lemma tie_triplets_in_range (job : Job) (tie : Tie) :
  valid_node job (node_number_1 tie) -> valid_node job (node_number_2 tie) ->
  (6 * Z.of_nat (length (nodes job)) <= UInt.INT_MAX)%Z ->
  Forall (fun t => in_range (6 * Z.of_nat (length (nodes job)))
                            (6 * Z.of_nat (length (nodes job))) t = true)
         (flat_map (tie_triplets_dof tie) dof_range).
Proof.
  intros H1 H2 Hs. unfold valid_node in *.
  apply Forall_forall. intros t Ht. apply in_flat_map in Ht.
  destruct Ht as (j & Hj & Ht).
  assert (Hjr : (0 <= j < 6)%Z) by (cbv [dof_range In] in Hj; lia).
  unfold tie_triplets_dof, Triplet_of_unsigned in Ht.
  rewrite !to_int_add_mul in Ht by (unfold NUM_DOFS; lia).
  unfold NUM_DOFS in Ht. apply in_range_iff.
  cbn [In] in Ht.
  destruct Ht as [<-|[<-|[<-|[<-|[]]]]]; cbn [t_row t_col]; lia.
Qed.

Lemma loadTies_in_range (job : Job) (ties : list Tie) :
  Forall (fun t => valid_node job (node_number_1 t) /\
                   valid_node job (node_number_2 t)) ties ->
  (6 * Z.of_nat (length (nodes job)) <= UInt.INT_MAX)%Z ->
  Forall (fun t => in_range (6 * Z.of_nat (length (nodes job)))
                            (6 * Z.of_nat (length (nodes job))) t = true)
         (loadTies [] ties).
Proof.
  intros Hv Hs. unfold loadTies. cbn [app].
  induction Hv as [|tie ties [H1 H2] _ IH]; [constructor|].
  cbn [flat_map]. apply Forall_app. split; [|exact IH].
  now apply tie_triplets_in_range.
Qed.

Lemma loadTies_app ts ties : loadTies ts ties = ts ++ loadTies [] ties.
Proof. reflexivity. Qed.

(** What [operator()] leaves in [Kg], for a valid job and valid ties. *)
Lemma assemble_result st Kg job ties :
  clean st ->
  valid_input job [] [] ties ->
  (6 * Z.of_nat (length (nodes job)) <= rows Kg)%Z ->
  (6 * Z.of_nat (length (nodes job)) <= cols Kg)%Z ->
  exists st' Kg',
    assemble st Kg job ties = Some (st', Kg') /\
    rows Kg' = rows Kg /\ cols Kg' = cols Kg /\
    Forall (fun t => in_range (6 * Z.of_nat (length (nodes job)))
                              (6 * Z.of_nat (length (nodes job))) t = true)
           (stored Kg') /\
    forall I J,
      coeff Kg' I J =
      sum_upto (length (elems job)) (fun i => element_contribution job i I J)
      + triplet_sum (loadTies [] ties) I J.
Proof.
  intros Hc [Hp He _ _ Ht Hs] Hr Hcl. cbn [length] in Hs.
  assert (Hs' : (6 * Z.of_nat (length (nodes job)) <= UInt.INT_MAX)%Z) by lia.
  destruct (@element_loop job Hp He Hs' (length (elems job)) 0%nat st [] Hc)
    as (st' & ts' & Ef & _ & Hin & Hsum); [lia|].
  cbn [app] in Ef. unfold assemble. rewrite Ef.
  assert (Hall : Forall (fun t => in_range (6 * Z.of_nat (length (nodes job)))
                                    (6 * Z.of_nat (length (nodes job))) t = true)
                        (loadTies ts' ties)).
  { rewrite loadTies_app. apply Forall_app. split; [exact Hin|].
    now apply loadTies_in_range. }
  assert (Hall' : Forall (fun t => in_range (rows Kg) (cols Kg) t = true)
                         (loadTies ts' ties)).
  { eapply Forall_impl; [|exact Hall]. cbv beta. intros t.
    now apply in_range_mono. }
  destruct (setFromTriplets_succeeds Kg Hall') as [Kg' EK].
  rewrite EK. exists st', Kg'. split; [reflexivity|].
  destruct (setFromTriplets_coeff _ _ EK) as (Hrows & Hcols & Hco).
  split; [exact Hrows|]. split; [exact Hcols|]. split.
  - unfold setFromTriplets in EK.
    destruct (forallb _ (loadTies ts' ties)); [|discriminate].
    injection EK as <-. cbn [stored].
    apply Forall_forall. intros t Hin'. apply in_map_iff in Hin'.
    destruct Hin' as ([a b] & <- & Hab). unfold coords in Hab.
    apply nodup_In in Hab. apply in_map_iff in Hab.
    destruct Hab as (t & Et & Hint). injection Et as <- <-.
    rewrite Forall_forall in Hall. specialize (Hall t Hint).
    unfold in_range in *. exact Hall.
  - intros I J. rewrite Hco, loadTies_app, triplet_sum_app, Hsum.
    f_equal.
Qed.



(** ** Insertion into a sparse matrix *)

Lemma insert_some M i j v M' :
  insert M i j v = Some M' ->
  (0 <= i < rows M)%Z /\ (0 <= j < cols M)%Z /\
  M' = mkSparse (rows M) (cols M) (stored M ++ [mkTriplet i j v]).
Proof.
  unfold insert. destruct (in_range _ _ _) eqn:E; [|discriminate].
  apply in_range_iff in E. cbn [t_row t_col] in E.
  intros H. injection H as <-. tauto.
Qed.

Lemma insert_succeeds M i j v :
  (0 <= i < rows M)%Z -> (0 <= j < cols M)%Z ->
  insert M i j v = Some (mkSparse (rows M) (cols M) (stored M ++ [mkTriplet i j v])).
Proof.
  intros Hi Hj. unfold insert.
  replace (in_range _ _ _) with true; [reflexivity|].
  symmetry. apply in_range_iff. cbn [t_row t_col]. tauto.
Qed.

Lemma dof_index_small (node dof : Z) :
  (0 <= 6 * node + dof < UInt.modulus)%Z -> dof_index node dof = (6 * node + dof)%Z.
Proof.
  intros H. unfold dof_index, UInt.add, UInt.mul, UInt.wrap, NUM_DOFS.
  rewrite Z.add_mod_idemp_l by (unfold UInt.modulus; lia).
  now apply Z.mod_small.
Qed.

Lemma dense_fold_app (i j : Z) ts1 ts2 acc :
  fold_left (fun acc t => if at_coord i j t then t_value t else acc) (ts1 ++ ts2) acc =
  fold_left (fun acc t => if at_coord i j t then t_value t else acc) ts2
    (fold_left (fun acc t => if at_coord i j t then t_value t else acc) ts1 acc).
Proof. apply fold_left_app. Qed.

Lemma dense_fold_no_match (i j : Z) ts acc :
  Forall (fun t => at_coord i j t = false) ts ->
  fold_left (fun acc t => if at_coord i j t then t_value t else acc) ts acc = acc.
Proof.
  intros H. revert acc. induction H as [|t ts Ht _ IH]; intros acc; [reflexivity|].
  cbn [fold_left]. rewrite Ht. apply IH.
Qed.

Lemma triplet_sum_no_match (i j : Z) ts :
  Forall (fun t => at_coord i j t = false) ts -> triplet_sum ts i j = 0.
Proof.
  induction 1 as [|t ts Ht _ IH]; [reflexivity|].
  cbn [triplet_sum]. rewrite Ht, IH. ring.
Qed.

(** ** [loadBCs] *)

Lemma loadBCs_loop_stored BCs : forall i Kg fv g Kg' fv',
  loadBCs_loop i Kg fv BCs g = Some (Kg', fv') ->
  rows Kg' = rows Kg /\ cols Kg' = cols Kg /\
  rows fv' = rows fv /\ cols fv' = cols fv /\
  stored Kg' = stored Kg ++ bc_coefficients g i BCs /\
  stored fv' = stored fv ++ bc_rhs g i BCs.
Proof.
  induction BCs as [|bc rest IH]; intros i Kg fv g Kg' fv' H.
  - cbn in H. injection H as <- <-. cbn [bc_coefficients bc_rhs].
    now rewrite !app_nil_r.
  - cbn [loadBCs_loop] in H. fold (dof_index (bc_node bc) (bc_dof bc)) in H.
    destruct (insert Kg _ _ 1) as [Kg1|] eqn:E1; [|discriminate].
    destruct (insert Kg1 _ _ 1) as [Kg2|] eqn:E2; [|discriminate].
    apply insert_some in E1. destruct E1 as (_ & _ & ->).
    apply insert_some in E2. destruct E2 as (_ & _ & ->). cbn [rows cols stored] in H.
    cbn [bc_coefficients bc_rhs].
    destruct (Rgt_dec (Rabs (bc_value bc)) DBL_EPSILON).
    + destruct (insert fv _ 0 _) as [fv1|] eqn:E3; [|discriminate].
      apply insert_some in E3. destruct E3 as (_ & _ & ->).
      apply IH in H. cbn [rows cols stored] in H.
      destruct H as (-> & -> & -> & -> & -> & ->).
      rewrite <- !app_assoc. cbn [app]. auto 6.
    + apply IH in H. cbn [rows cols stored] in H.
      destruct H as (-> & -> & -> & -> & -> & ->).
      rewrite <- !app_assoc. cbn [app]. auto 6.
Qed.

Lemma loadBCs_loop_succeeds BCs : forall i Kg fv g,
  (0 <= g)%Z ->
  (g + Z.of_nat i + Z.of_nat (length BCs) <= rows Kg)%Z ->
  (g + Z.of_nat i + Z.of_nat (length BCs) <= cols Kg)%Z ->
  (g + Z.of_nat i + Z.of_nat (length BCs) <= rows fv)%Z ->
  (0 < cols fv)%Z ->
  Forall (fun bc => (0 <= dof_index (bc_node bc) (bc_dof bc) < g)%Z) BCs ->
  exists Kg' fv', loadBCs_loop i Kg fv BCs g = Some (Kg', fv').
Proof.
  induction BCs as [|bc rest IH]; intros i Kg fv g Hg Hr Hc Hf Hf1 Hv.
  - cbn. eauto.
  - cbn [length] in *. inversion Hv as [|? ? Hb Hv']; subst.
    cbn [loadBCs_loop]. fold (dof_index (bc_node bc) (bc_dof bc)).
    rewrite insert_succeeds by lia.
    rewrite insert_succeeds by (cbn [rows cols]; lia).
    destruct (Rgt_dec (Rabs (bc_value bc)) DBL_EPSILON).
    + rewrite insert_succeeds by lia.
      apply IH; cbn [rows cols]; try assumption; lia.
    + apply IH; cbn [rows cols]; try assumption; lia.
Qed.

Lemma bc_coefficients_outside (g : Z) BCs : forall i,
  (0 <= g)%Z ->
  Forall (fun t => (g <= t_row t \/ g <= t_col t)%Z) (bc_coefficients g i BCs).
Proof.
  induction BCs as [|bc rest IH]; intros i Hg; cbn [bc_coefficients].
  - constructor.
  - constructor; [cbn [t_row t_col]; lia|].
    constructor; [cbn [t_row t_col]; lia|]. now apply IH.
Qed.

Lemma at_coord_false (i j r c : Z) (v : R) :
  (r <> i \/ c <> j) -> at_coord i j (mkTriplet r c v) = false.
Proof.
  intros H. unfold at_coord. cbn [t_row t_col].
  destruct (Z.eqb_spec r i); destruct (Z.eqb_spec c j); cbn [andb]; try reflexivity.
  lia.
Qed.

Lemma at_coord_true (i j : Z) (v : R) : at_coord i j (mkTriplet i j v) = true.
Proof. unfold at_coord. cbn [t_row t_col]. now rewrite !Z.eqb_refl. Qed.

Lemma uint_mul_small (n : Z) :
  (0 <= n)%Z -> (6 * n < UInt.modulus)%Z -> UInt.mul NUM_DOFS n = (6 * n)%Z.
Proof.
  intros H0 H. unfold UInt.mul, UInt.wrap, NUM_DOFS. apply Z.mod_small. lia.
Qed.

Lemma loadBCs_stored Kg fv BCs n Kg' fv' :
  (0 <= n)%Z ->
  (6 * n < UInt.modulus)%Z ->
  loadBCs Kg fv BCs n = Some (Kg', fv') ->
  rows Kg' = rows Kg /\ cols Kg' = cols Kg /\
  stored Kg' = stored Kg ++ bc_coefficients (6 * n) 0 BCs /\
  stored fv' = stored fv ++ bc_rhs (6 * n) 0 BCs.
Proof.
  intros Hn Hs H. unfold loadBCs in H.
  rewrite uint_mul_small in H by assumption.
  apply loadBCs_loop_stored in H. tauto.
Qed.

Lemma triplet_sum_outside (m : Z) ts (I J : Z) :
  Forall (fun t => (m <= t_row t \/ m <= t_col t)%Z) ts ->
  (I < m)%Z -> (J < m)%Z -> triplet_sum ts I J = 0.
Proof.
  intros H HI HJ. apply triplet_sum_no_match.
  eapply Forall_impl; [|exact H]. cbv beta. intros [r c v] Ht.
  cbn [t_row t_col] in Ht. apply at_coord_false. lia.
Qed.

(** C10. Whatever the list of boundary conditions, every coefficient
    [loadBCs] stores has its row or its column at 6 |nodes| or beyond, so
    the leading 6|nodes| x 6|nodes| block of [Kg], which [solve] takes for
    the reaction forces, is the one the assembler left. *)
Theorem loadBCs_preserves_leading_block :
  forall Kg fv BCs n Kg' fv',
    (0 <= n)%Z ->
    (6 * n < UInt.modulus)%Z ->
    loadBCs Kg fv BCs n = Some (Kg', fv') ->
    (exists inserted,
       stored Kg' = stored Kg ++ inserted /\
       Forall (fun t => (6 * n <= t_row t \/ 6 * n <= t_col t)%Z) inserted) /\
    (forall I J, (I < 6 * n)%Z -> (J < 6 * n)%Z -> coeff Kg' I J = coeff Kg I J) /\
    topLeftCorner Kg' (6 * n) (6 * n) = topLeftCorner Kg (6 * n) (6 * n).
Proof.
  intros Kg fv BCs n Kg' fv' Hn Hs H.
  destruct (loadBCs_stored _ _ _ Hn Hs H) as (Hr & Hc & HK & _).
  pose proof (@bc_coefficients_outside (6 * n) BCs 0%nat ltac:(lia)) as Hout.
  split; [eauto|]. split.
  - intros I J HI HJ. unfold coeff. rewrite HK, triplet_sum_app.
    rewrite (triplet_sum_outside Hout HI HJ). ring.
  - unfold topLeftCorner. rewrite Hr, Hc, HK, filter_app.
    replace (filter _ (bc_coefficients (6 * n) 0 BCs)) with (@nil Triplet);
      [now rewrite app_nil_r|].
    symmetry. clear HK. induction Hout as [|t ts Ht _ IH]; [reflexivity|].
    cbn [filter]. replace (in_range (6 * n) (6 * n) t) with false; [exact IH|].
    symmetry. apply not_true_is_false. intros E. apply in_range_iff in E. lia.
Qed.

Lemma loadBCs_preserves_leading_block_witness :
  let Kg := mkSparse 13 13 [mkTriplet 0 0 5; mkTriplet 6 0 (- 5)] in
  let fv := mkSparse 13 1 [] in
  let BCs := [mkBC 0 0 0] in
  exists Kg' fv',
    loadBCs Kg fv BCs 2 = Some (Kg', fv') /\
    (exists inserted,
       stored Kg' = stored Kg ++ inserted /\
       Forall (fun t => (6 * 2 <= t_row t \/ 6 * 2 <= t_col t)%Z) inserted) /\
    (forall I J, (I < 6 * 2)%Z -> (J < 6 * 2)%Z -> coeff Kg' I J = coeff Kg I J) /\
    topLeftCorner Kg' (6 * 2) (6 * 2) = topLeftCorner Kg (6 * 2) (6 * 2).
Proof.
  intros Kg fv BCs.
  destruct (@loadBCs_loop_succeeds BCs 0%nat Kg fv 12%Z) as (Kg' & fv' & E);
    try (cbn; lia).
  { constructor; [|constructor]. vm_compute. split; [discriminate | reflexivity]. }
  exists Kg', fv'. split; [exact E|].
  apply (@loadBCs_preserves_leading_block Kg fv BCs 2%Z Kg' fv');
    [lia | unfold UInt.modulus; lia | exact E].
Defined.

(** The Lagrange coefficients of the boundary conditions that come later
    in the list do not touch the row and column of an earlier one. *)
Lemma bc_coefficients_later (g : Z) BCs : forall i1 a k,
  (a < g + Z.of_nat i1)%Z -> (k < g)%Z ->
  Forall (fun bc => (0 <= dof_index (bc_node bc) (bc_dof bc) < g)%Z) BCs ->
  triplet_sum (bc_coefficients g i1 BCs) a k = 0 /\
  triplet_sum (bc_coefficients g i1 BCs) k a = 0.
Proof.
  induction BCs as [|bc rest IH]; intros i1 a k Ha Hk Hv; [split; reflexivity|].
  inversion Hv as [|? ? Hb Hv']; subst.
  cbn [bc_coefficients triplet_sum].
  rewrite !at_coord_false by lia.
  destruct (IH (S i1) a k) as [E1 E2]; [lia|lia|assumption|].
  rewrite E1, E2. split; ring.
Qed.

Lemma bc_rhs_later (g : Z) BCs : forall i1 a,
  (a < g + Z.of_nat i1)%Z ->
  Forall (fun t => at_coord a 0 t = false) (bc_rhs g i1 BCs).
Proof.
  induction BCs as [|bc rest IH]; intros i1 a Ha; cbn [bc_rhs]; [constructor|].
  apply Forall_app. split; [|apply IH; lia].
  destruct (Rgt_dec _ _); constructor; [|constructor].
  apply at_coord_false. lia.
Qed.

Lemma bc_coefficients_sum (g : Z) BCs : forall i0 i bc,
  Forall (fun bc => (0 <= dof_index (bc_node bc) (bc_dof bc) < g)%Z) BCs ->
  nth_error BCs i = Some bc ->
  triplet_sum (bc_coefficients g i0 BCs)
              (g + Z.of_nat (i0 + i)) (dof_index (bc_node bc) (bc_dof bc)) = 1 /\
  triplet_sum (bc_coefficients g i0 BCs)
              (dof_index (bc_node bc) (bc_dof bc)) (g + Z.of_nat (i0 + i)) = 1.
Proof.
  induction BCs as [|bc0 rest IH]; intros i0 i bc Hv Hn; [now destruct i|].
  inversion Hv as [|? ? Hb0 Hv']; subst.
  assert (Hb : (0 <= dof_index (bc_node bc) (bc_dof bc) < g)%Z).
  { rewrite Forall_forall in Hv. apply Hv. eapply nth_error_In; eassumption. }
  cbn [bc_coefficients triplet_sum].
  destruct i as [|i].
  - cbn [nth_error] in Hn. injection Hn as ->. rewrite Nat.add_0_r.
    rewrite !at_coord_true.
    rewrite !at_coord_false by lia.
    destruct (@bc_coefficients_later g rest (S i0) (g + Z.of_nat i0)%Z
                (dof_index (bc_node bc) (bc_dof bc))) as [E1 E2];
      [lia|lia|assumption|].
    rewrite E1, E2. cbn [t_value]. split; ring.
  - cbn [nth_error] in Hn.
    rewrite !at_coord_false by lia.
    destruct (IH (S i0) i bc Hv' Hn) as [E1 E2].
    replace (i0 + S i)%nat with (S i0 + i)%nat by lia.
    rewrite E1, E2. cbn [t_value]. split; ring.
Qed.

Lemma bc_rhs_dense (g : Z) BCs : forall i0 i bc acc,
  nth_error BCs i = Some bc ->
  fold_left (fun acc t => if at_coord (g + Z.of_nat (i0 + i)) 0 t then t_value t else acc)
            (bc_rhs g i0 BCs) acc =
  if Rgt_dec (Rabs (bc_value bc)) DBL_EPSILON then bc_value bc else acc.
Proof.
  induction BCs as [|bc0 rest IH]; intros i0 i bc acc Hn; [now destruct i|].
  cbn [bc_rhs]. rewrite dense_fold_app.
  destruct i as [|i].
  - cbn [nth_error] in Hn. injection Hn as ->. rewrite Nat.add_0_r.
    rewrite dense_fold_no_match by (apply bc_rhs_later; lia).
    destruct (Rgt_dec _ _); cbn [fold_left]; [|reflexivity].
    now rewrite at_coord_true.
  - cbn [nth_error] in Hn.
    replace (i0 + S i)%nat with (S i0 + i)%nat by lia.
    rewrite (IH (S i0) i bc _ Hn).
    destruct (Rgt_dec (Rabs (bc_value bc)) DBL_EPSILON); [reflexivity|].
    destruct (Rgt_dec (Rabs (bc_value bc0)) DBL_EPSILON); cbn [fold_left]; [|reflexivity].
    rewrite at_coord_false by lia. reflexivity.
Qed.

Lemma valid_BCs_indices (n : Z) (BCs : list BC) :
  (0 <= n)%Z -> (6 * n <= UInt.INT_MAX)%Z ->
  Forall (fun bc => (0 <= bc_node bc < n)%Z /\ valid_dof (bc_dof bc)) BCs ->
  Forall (fun bc => dof_index (bc_node bc) (bc_dof bc) = (6 * bc_node bc + bc_dof bc)%Z /\
                    (0 <= dof_index (bc_node bc) (bc_dof bc) < 6 * n)%Z) BCs.
Proof.
  intros Hn Hs Hv. eapply Forall_impl; [|exact Hv]. cbv beta.
  intros bc [H1 H2]. unfold valid_dof in H2.
  rewrite dof_index_small by (unfold UInt.INT_MAX, UInt.modulus in *; lia). lia.
Qed.

Lemma DBL_EPSILON_pos : 0 < DBL_EPSILON.
Proof. unfold DBL_EPSILON. apply Rinv_0_lt_compat. apply pow_lt. lra. Qed.

Lemma loadBCs_drops_small_value :
  let Kg := mkSparse 7 7 [] in
  let fv := mkSparse 7 1 [] in
  let v := DBL_EPSILON in
  0 < Rabs v <= DBL_EPSILON /\
  exists Kg' fv',
    loadBCs Kg fv [mkBC 0 0 v] 1 = Some (Kg', fv') /\
    stored fv' = [] /\
    denseCoeff fv' (6 * 1 + 0) 0 = 0 /\
    denseCoeff fv' (6 * 1 + 0) 0 <> v.
Proof.
  intros Kg fv v. pose proof DBL_EPSILON_pos as Hp.
  assert (Ha : Rabs v = DBL_EPSILON) by (apply Rabs_pos_eq; unfold v; lra).
  split; [rewrite Ha; lra|].
  unfold loadBCs. cbn [loadBCs_loop].
  destruct (Rgt_dec (Rabs (bc_value (mkBC 0 0 v))) DBL_EPSILON) as [Hgt|_].
  - exfalso. cbn [bc_value] in Hgt. rewrite Ha in Hgt. lra.
  - eexists _, _. split; [reflexivity|].
    unfold denseCoeff, fv. cbn [stored fold_left].
    split; [reflexivity|]. split; [reflexivity|]. unfold v. lra.
Qed.

(** C6 (amended). After [loadBCs], for the boundary condition of index [i]
    on (node n, dof d, value v), with M = 6 |nodes|: Kg[M+i, 6n+d] =
    Kg[6n+d, M+i] = 1, and the right-hand side at M+i is v when |v| is
    greater than the machine epsilon and is left at 0 when it is not. *)
Theorem loadBCs_lagrange_rows :
  forall Kg fv BCs n,
    (0 <= n)%Z ->
    (6 * n + Z.of_nat (length BCs) <= UInt.INT_MAX)%Z ->
    (6 * n + Z.of_nat (length BCs) <= rows Kg)%Z ->
    (6 * n + Z.of_nat (length BCs) <= cols Kg)%Z ->
    (6 * n + Z.of_nat (length BCs) <= rows fv)%Z ->
    (0 < cols fv)%Z ->
    Forall (fun t => in_range (6 * n) (6 * n) t = true) (stored Kg) ->
    Forall (fun t => (t_row t < 6 * n)%Z) (stored fv) ->
    Forall (fun bc => (0 <= bc_node bc < n)%Z /\ valid_dof (bc_dof bc)) BCs ->
    exists Kg' fv',
      loadBCs Kg fv BCs n = Some (Kg', fv') /\
      forall i bc,
        nth_error BCs i = Some bc ->
        let M := (6 * n)%Z in
        coeff Kg' (M + Z.of_nat i) (6 * bc_node bc + bc_dof bc) = 1 /\
        coeff Kg' (6 * bc_node bc + bc_dof bc) (M + Z.of_nat i) = 1 /\
        denseCoeff fv' (M + Z.of_nat i) 0 =
          if Rgt_dec (Rabs (bc_value bc)) DBL_EPSILON then bc_value bc else 0.
Proof.
  intros Kg fv BCs n Hn Hs Hr Hc Hfr Hfc HK Hf Hv.
  assert (Hv' := @valid_BCs_indices n BCs Hn ltac:(lia) Hv).
  assert (Hb : Forall (fun bc => (0 <= dof_index (bc_node bc) (bc_dof bc) < 6 * n)%Z) BCs).
  { eapply Forall_impl; [|exact Hv']. cbv beta. tauto. }
  assert (Hg : UInt.mul NUM_DOFS n = (6 * n)%Z).
  { apply uint_mul_small; unfold UInt.INT_MAX, UInt.modulus in *; lia. }
  destruct (@loadBCs_loop_succeeds BCs 0%nat Kg fv (6 * n)%Z) as (Kg' & fv' & E);
    try assumption; try lia.
  exists Kg', fv'. unfold loadBCs. rewrite Hg. split; [exact E|].
  apply loadBCs_loop_stored in E. destruct E as (_ & _ & _ & _ & EK & Ef).
  intros i bc Hi. cbv zeta.
  assert (Hbc : dof_index (bc_node bc) (bc_dof bc) = (6 * bc_node bc + bc_dof bc)%Z /\
                (0 <= dof_index (bc_node bc) (bc_dof bc) < 6 * n)%Z).
  { rewrite Forall_forall in Hv'. apply Hv'. eapply nth_error_In; eassumption. }
  destruct Hbc as [Eb Hbb]. rewrite <- Eb.
  destruct (@bc_coefficients_sum (6 * n)%Z BCs 0%nat i bc Hb Hi) as [S1 S2].
  cbn [Nat.add] in S1, S2.
  unfold coeff, denseCoeff. rewrite EK, Ef, !triplet_sum_app, dense_fold_app.
  rewrite S1, S2.
  rewrite !(@triplet_sum_no_match _ _ (stored Kg)).
  - rewrite (@dense_fold_no_match _ _ (stored fv)).
    + pose proof (@bc_rhs_dense (6 * n)%Z BCs 0%nat i bc 0 Hi) as D.
      cbn [Nat.add] in D. rewrite D.
      repeat split; ring.
    + eapply Forall_impl; [|exact Hf]. cbv beta. intros [r c v] Ht.
      cbn [t_row] in Ht. apply at_coord_false. lia.
  - eapply Forall_impl; [|exact HK]. cbv beta. intros [r c v] Ht.
    apply in_range_iff in Ht. cbn [t_row t_col] in Ht. apply at_coord_false. lia.
  - eapply Forall_impl; [|exact HK]. cbv beta. intros [r c v] Ht.
    apply in_range_iff in Ht. cbn [t_row t_col] in Ht. apply at_coord_false. lia.
Qed.

Lemma loadBCs_lagrange_rows_witness :
  let Kg := mkSparse 13 13 [mkTriplet 0 0 5; mkTriplet 6 0 (- 5)] in
  let fv := mkSparse 13 1 [] in
  let BCs := [mkBC 0 1 (1 / 2)] in
  Forall (fun bc => (0 <= bc_node bc < 2)%Z /\ valid_dof (bc_dof bc)) BCs /\
  exists Kg' fv',
    loadBCs Kg fv BCs 2 = Some (Kg', fv') /\
    forall i bc,
      nth_error BCs i = Some bc ->
      let M := (6 * 2)%Z in
      coeff Kg' (M + Z.of_nat i) (6 * bc_node bc + bc_dof bc) = 1 /\
      coeff Kg' (6 * bc_node bc + bc_dof bc) (M + Z.of_nat i) = 1 /\
      denseCoeff fv' (M + Z.of_nat i) 0 =
        if Rgt_dec (Rabs (bc_value bc)) DBL_EPSILON then bc_value bc else 0.
Proof.
  intros Kg fv BCs.
  assert (Hv : Forall (fun bc => (0 <= bc_node bc < 2)%Z /\ valid_dof (bc_dof bc)) BCs).
  { constructor; [|constructor]. unfold valid_dof. cbn. lia. }
  split; [exact Hv|].
  apply (@loadBCs_lagrange_rows Kg fv BCs 2%Z); try exact Hv;
    try (unfold UInt.INT_MAX; cbn; lia).
  - constructor; [reflexivity|]. constructor; [reflexivity|]. constructor.
  - constructor.
Defined.

(** ** [loadForces] *)

Lemma loadForces_stored forces : forall fv fv',
  loadForces fv forces = Some fv' ->
  rows fv' = rows fv /\ cols fv' = cols fv /\
  stored fv' =
  stored fv ++ map (fun f => mkTriplet (dof_index (f_node f) (f_dof f)) 0 (f_value f)) forces.
Proof.
  induction forces as [|f rest IH]; intros fv fv' H.
  - cbn in H. injection H as <-. cbn [map]. now rewrite app_nil_r.
  - cbn [loadForces] in H. fold (dof_index (f_node f) (f_dof f)) in H.
    destruct (insert fv _ 0 _) as [fv1|] eqn:E; [|discriminate].
    apply insert_some in E. destruct E as (_ & _ & ->).
    apply IH in H. cbn [rows cols stored] in H. destruct H as (-> & -> & ->).
    cbn [map]. rewrite <- app_assoc. auto.
Qed.

Lemma loadForces_succeeds forces : forall fv,
  (0 < cols fv)%Z ->
  Forall (fun f => (0 <= dof_index (f_node f) (f_dof f) < rows fv)%Z) forces ->
  exists fv', loadForces fv forces = Some fv'.
Proof.
  induction forces as [|f rest IH]; intros fv Hc Hv.
  - cbn. eauto.
  - inversion Hv as [|? ? Hf Hv']; subst.
    cbn [loadForces]. fold (dof_index (f_node f) (f_dof f)).
    rewrite insert_succeeds by lia. apply IH; cbn [rows cols]; assumption.
Qed.

(** Reading the dense copy after a run of insertions: the last force given
    for the pair decides. *)
Lemma dense_fold_forces (n node dof : Z) forces : forall acc o,
  (0 <= n)%Z -> (6 * n <= UInt.INT_MAX)%Z ->
  (0 <= node < n)%Z -> valid_dof dof ->
  Forall (fun f => (0 <= f_node f < n)%Z /\ valid_dof (f_dof f)) forces ->
  fold_left (fun acc t => if at_coord (6 * node + dof) 0 t then t_value t else acc)
            (map (fun f => mkTriplet (dof_index (f_node f) (f_dof f)) 0 (f_value f)) forces)
            (match o with Some v => v | None => acc end) =
  match fold_left (fun acc f =>
                     if ((f_node f =? node) && (f_dof f =? dof))%Z
                     then Some (f_value f) else acc) forces o with
  | Some v => v
  | None => acc
  end.
Proof.
  induction forces as [|f rest IH]; intros acc o Hn Hs Hnode Hdof Hv; [reflexivity|].
  inversion Hv as [|? ? [Hf1 Hf2] Hv']; subst. unfold valid_dof in *.
  cbn [map fold_left].
  rewrite dof_index_small by (unfold UInt.INT_MAX, UInt.modulus in *; lia).
  unfold at_coord at 2. cbn [t_row t_col t_value]. rewrite Z.eqb_refl, andb_true_r.
  destruct (Z.eqb_spec (6 * f_node f + f_dof f) (6 * node + dof)) as [E|E].
  - assert (f_node f = node /\ f_dof f = dof) as [-> ->] by lia.
    rewrite !Z.eqb_refl. cbn [andb].
    now apply (IH acc (Some (f_value f))).
  - replace ((f_node f =? node) && (f_dof f =? dof))%Z with false.
    + now apply IH.
    + symmetry. apply andb_false_iff.
      destruct (Z.eqb_spec (f_node f) node); destruct (Z.eqb_spec (f_dof f) dof);
        auto. subst. lia.
Qed.

Lemma last_force_at_valid (n node dof : Z) forces v :
  Forall (fun f => (0 <= f_node f < n)%Z /\ valid_dof (f_dof f)) forces ->
  last_force_at node dof forces = Some v ->
  (0 <= node < n)%Z /\ valid_dof dof.
Proof.
  unfold last_force_at. intros Hv.
  assert (G : forall o,
             fold_left (fun acc f =>
                          if ((f_node f =? node) && (f_dof f =? dof))%Z
                          then Some (f_value f) else acc) forces o = Some v ->
             o = Some v \/ ((0 <= node < n)%Z /\ valid_dof dof)).
  { induction Hv as [|f rest [Hf1 Hf2] _ IH]; intros o H; [now left|].
    cbn [fold_left] in H. apply IH in H. destruct H as [H|H]; [|now right].
    destruct (Z.eqb_spec (f_node f) node); destruct (Z.eqb_spec (f_dof f) dof);
      cbn [andb] in H; subst; auto. }
  intros H. destruct (G None H) as [E|E]; [discriminate|exact E].
Qed.

(** C9. For a list of valid forces, [loadForces] returns, and where the
    list holds entries for a pair (node, dof), two or more in particular, the
    right-hand side read at 6 node + dof is the value of the last of them:
    the later entry overwrites, the values are not added. *)
Theorem loadForces_overwrites :
  forall fv forces n,
    (0 <= n)%Z ->
    (6 * n <= UInt.INT_MAX)%Z ->
    (6 * n <= rows fv)%Z ->
    (0 < cols fv)%Z ->
    Forall (fun f => (0 <= f_node f < n)%Z /\ valid_dof (f_dof f)) forces ->
    exists fv',
      loadForces fv forces = Some fv' /\
      forall node dof v,
        last_force_at node dof forces = Some v ->
        denseCoeff fv' (6 * node + dof) 0 = v.
Proof.
  intros fv forces n Hn Hs Hr Hc Hv.
  destruct (@loadForces_succeeds forces fv Hc) as [fv' E].
  { eapply Forall_impl; [|exact Hv]. cbv beta. intros f [H1 H2].
    unfold valid_dof in H2.
    rewrite dof_index_small by (unfold UInt.INT_MAX, UInt.modulus in *; lia). lia. }
  exists fv'. split; [exact E|].
  apply loadForces_stored in E. destruct E as (_ & _ & Es).
  intros node dof v Hl.
  destruct (last_force_at_valid _ _ Hv Hl) as [Hnode Hdof].
  unfold denseCoeff. rewrite Es, dense_fold_app.
  pose proof (@dense_fold_forces n node dof forces
                (fold_left (fun acc t => if at_coord (6 * node + dof) 0 t
                                         then t_value t else acc) (stored fv) 0)
                None Hn Hs Hnode Hdof Hv) as D.
  cbv beta iota in D. rewrite D.
  unfold last_force_at in Hl. now rewrite Hl.
Qed.

Lemma loadForces_overwrites_witness :
  let fv := mkSparse 12 1 [] in
  let forces := [mkForce 1 1 (1 / 10); mkForce 0 2 7; mkForce 1 1 (3 / 10)] in
  Forall (fun f => (0 <= f_node f < 2)%Z /\ valid_dof (f_dof f)) forces /\
  last_force_at 1 1 forces = Some (3 / 10) /\
  exists fv',
    loadForces fv forces = Some fv' /\
    forall node dof v,
      last_force_at node dof forces = Some v ->
      denseCoeff fv' (6 * node + dof) 0 = v.
Proof.
  intros fv forces.
  assert (Hv : Forall (fun f => (0 <= f_node f < 2)%Z /\ valid_dof (f_dof f)) forces).
  { unfold valid_dof. repeat (constructor; [cbn; lia|]). constructor. }
  split; [exact Hv|]. split; [reflexivity|].
  apply (@loadForces_overwrites fv forces 2%Z); try exact Hv;
    unfold UInt.INT_MAX; cbn; lia.
Defined.

(** The same three forces, run: the entry read at 6 * 1 + 1 is 3/10, the
    last value, and not 1/10 + 3/10. *)
Example loadForces_example :
  let forces := [mkForce 1 1 (1 / 10); mkForce 0 2 7; mkForce 1 1 (3 / 10)] in
  exists fv',
    loadForces (mkSparse 12 1 []) forces = Some fv' /\
    denseCoeff fv' 7 0 = 3 / 10 /\
    denseCoeff fv' 7 0 <> 1 / 10 + 3 / 10.
Proof.
  eexists. split; [reflexivity|].
  match goal with |- ?a = _ /\ _ => assert (E : a = 3 / 10) by reflexivity end.
  split; [exact E|]. rewrite E. lra.
Qed.

(** ** The system [solve] builds *)

Lemma valid_input_no_loads job BCs forces ties :
  valid_input job BCs forces ties -> valid_input job [] [] ties.
Proof.
  intros [Hp He _ _ Ht Hs]. split; try assumption; try constructor.
  cbn [length]. lia.
Qed.

(** For a valid input [solve] builds a square matrix and a right-hand
    side of order 6 |nodes| + |BCs|; the leading block of the matrix is the
    assembled stiffness. *)
Lemma build_system_result job BCs forces ties :
  valid_input job BCs forces ties ->
  let N := Z.of_nat (length (nodes job)) in
  let size := (6 * N + Z.of_nat (length BCs))%Z in
  exists Kg fv,
    build_system job BCs forces ties = Some (Kg, fv) /\
    rows Kg = size /\ cols Kg = size /\ rows fv = size /\ cols fv = 1%Z /\
    forall I J, (I < 6 * N)%Z -> (J < 6 * N)%Z ->
      coeff Kg I J =
      sum_upto (length (elems job)) (fun i => element_contribution job i I J)
      + triplet_sum (loadTies [] ties) I J.
Proof.
  intros Hv N size. pose proof Hv as [Hp He HB HF Ht Hs]. fold N in Hs.
  assert (HN : (0 <= N)%Z) by (unfold N; lia).
  unfold build_system. cbv zeta. fold N.
  change (NUM_DOFS * N + Z.of_nat (length BCs))%Z with size.
  rewrite to_int_small by (unfold size; lia).
  unfold SparseMat_new.
  replace ((0 <=? size) && (0 <=? size))%Z with true
    by (symmetry; apply andb_true_iff; split; apply Z.leb_le; unfold size; lia).
  replace ((0 <=? size) && (0 <=? 1))%Z with true
    by (symmetry; apply andb_true_iff; split; apply Z.leb_le; unfold size; lia).
  destruct (@assemble_result GlobalStiffAssembler_new (mkSparse size size []) job ties
              clean_new (valid_input_no_loads Hv))
    as (st' & Kg1 & Ea & Hr1 & Hc1 & Hin1 & Hco1);
    try (cbn [rows cols]; fold N; unfold size; lia).
  rewrite Ea. cbn [rows cols] in Hr1, Hc1. fold N in Hin1.
  assert (Hw : UInt.wrap N = N).
  { apply wrap_small. unfold UInt.INT_MAX, UInt.modulus in *. lia. }
  fold N. rewrite Hw.
  assert (Hg : UInt.mul NUM_DOFS N = (6 * N)%Z).
  { apply uint_mul_small; unfold UInt.INT_MAX, UInt.modulus in *; lia. }
  assert (HBi := @valid_BCs_indices N BCs HN ltac:(lia) HB).
  destruct (@loadBCs_loop_succeeds BCs 0%nat Kg1 (mkSparse size 1 []) (6 * N)%Z)
    as (Kg2 & fv2 & E2); try (cbn [rows cols]; unfold size; lia).
  { eapply Forall_impl; [|exact HBi]. cbv beta. tauto. }
  assert (EB : loadBCs Kg1 (mkSparse size 1 []) BCs N = Some (Kg2, fv2)).
  { unfold loadBCs. now rewrite Hg. }
  rewrite EB.
  assert (Hlead : forall I J, (I < 6 * N)%Z -> (J < 6 * N)%Z ->
                          coeff Kg2 I J = coeff Kg1 I J).
  { destruct (@loadBCs_stored Kg1 _ BCs N Kg2 fv2 HN
                ltac:(unfold UInt.INT_MAX, UInt.modulus in *; lia) EB)
      as (_ & _ & HK2 & _).
    intros I J HI HJ. unfold coeff. rewrite HK2, triplet_sum_app.
    rewrite (@triplet_sum_outside (6 * N)%Z (bc_coefficients (6 * N) 0 BCs) I J);
      [ring| |assumption|assumption].
    apply bc_coefficients_outside. lia. }
  apply loadBCs_loop_stored in E2. cbn [rows cols stored] in E2.
  destruct E2 as (Hr2 & Hc2 & Hfr & Hfc & _ & _).
  assert (HFi : Forall (fun f => (0 <= dof_index (f_node f) (f_dof f) < rows fv2)%Z) forces).
  { eapply Forall_impl; [|exact HF]. cbv beta. intros f [H1 H2].
    unfold valid_node, valid_dof in *. fold N in H1.
    rewrite dof_index_small by (unfold UInt.INT_MAX, UInt.modulus in *; lia).
    rewrite Hfr. unfold size. lia. }
  destruct (@loadForces_succeeds forces fv2 ltac:(lia) HFi) as [fv3 E3].
  destruct (0 <? length forces)%nat.
  - rewrite E3. apply loadForces_stored in E3. destruct E3 as (Hr3 & Hc3 & _).
    exists Kg2, fv3. repeat split; try congruence.
    intros I J HI HJ. rewrite Hlead by assumption. apply Hco1.
  - exists Kg2, fv2. repeat split; try congruence.
    intros I J HI HJ. rewrite Hlead by assumption. apply Hco1.
Qed.

(** C5. On the L-bracket job with its seven boundary conditions, [solve]
    builds a matrix and a right-hand side of order 6 * 4 + 7 = 31. The
    function takes no equation constraints, so whatever list of them the
    caller holds, the order has no row or column for any of them. *)
Theorem solve_order_ignores_equations :
  exists Kg fv,
    build_system JOB_L_BRACKET BCS_L_BRACKET [] [] = Some (Kg, fv) /\
    rows Kg = 31%Z /\ cols Kg = 31%Z /\ rows fv = 31%Z /\ cols fv = 1%Z /\
    (rows Kg <> 6 * 4 + 7 +
       Z.of_nat (length [mkEquation [mkTerm 0 0 1; mkTerm 0 1 (- 1)]]))%Z /\
    forall equations : list Equation,
      equations <> [] ->
      (rows Kg <> 6 * Z.of_nat (length (nodes JOB_L_BRACKET))
                  + Z.of_nat (length BCS_L_BRACKET)
                  + Z.of_nat (length equations))%Z.
Proof.
  assert (Hv : valid_input JOB_L_BRACKET BCS_L_BRACKET [] []).
  { split; cbn; unfold valid_node, valid_dof, UInt.INT_MAX; cbn;
      repeat (constructor; [cbn; lia|]); try constructor; lia. }
  destruct (build_system_result Hv) as (Kg & fv & E & Hr & Hc & Hfr & Hfc & _).
  cbn in Hr, Hc, Hfr.
  exists Kg, fv. repeat split; try assumption.
  - rewrite Hr. cbn. discriminate.
  - intros equations Hne. rewrite Hr. destruct equations as [|e equations]; [contradiction|].
    change (length (nodes JOB_L_BRACKET)) with 4%nat.
    change (length BCS_L_BRACKET) with 7%nat.
    cbn [length]. rewrite Nat2Z.inj_succ. intros H.
    pose proof (Nat2Z.is_nonneg (length equations)) as Hl. lia.
Qed.

(** ** Post-processing *)

Lemma denseCoeff_sparseView_column (x : Z -> R) (n : nat) (k : Z) :
  (0 <= k)%Z ->
  denseCoeff (sparseView_column n x) k 0 = if (k <? Z.of_nat n)%Z then x k else 0.
Proof.
  intros Hk. unfold denseCoeff, sparseView_column. cbn [stored].
  induction n as [|n IH].
  - cbn [seq flat_map fold_left]. destruct (k <? Z.of_nat 0)%Z eqn:E; [|reflexivity].
    apply Z.ltb_lt in E. lia.
  - rewrite seq_S, flat_map_app, dense_fold_app, IH. cbn [Nat.add flat_map].
    rewrite app_nil_r.
    destruct (Z.ltb_spec k (Z.of_nat n)); destruct (Z.ltb_spec k (Z.of_nat (S n)));
      try lia.
    + destruct (Req_dec_T (x (Z.of_nat n)) 0); cbn [fold_left]; [reflexivity|].
      rewrite at_coord_false by lia. reflexivity.
    + assert (k = Z.of_nat n) by lia. subst k.
      destruct (Req_dec_T (x (Z.of_nat n)) 0) as [E|E]; cbn [fold_left];
        [now rewrite E|].
      now rewrite at_coord_true.
    + destruct (Req_dec_T (x (Z.of_nat n)) 0); cbn [fold_left]; [reflexivity|].
      rewrite at_coord_false by lia. reflexivity.
Qed.

Lemma triplet_sum_sparseView_column (x : Z -> R) (n : nat) (k j : Z) :
  (0 <= k)%Z ->
  triplet_sum (stored (sparseView_column n x)) k j =
  if ((k <? Z.of_nat n) && (j =? 0))%Z then x k else 0.
Proof.
  intros Hk. unfold sparseView_column. cbn [stored].
  induction n as [|n IH].
  - cbn [seq flat_map triplet_sum].
    destruct (Z.ltb_spec k (Z.of_nat 0)); [lia|reflexivity].
  - rewrite seq_S, flat_map_app, triplet_sum_app, IH. cbn [Nat.add flat_map].
    rewrite app_nil_r.
    destruct (Z.ltb_spec k (Z.of_nat n)); destruct (Z.ltb_spec k (Z.of_nat (S n)));
      try lia; cbn [andb].
    + destruct (Req_dec_T (x (Z.of_nat n)) 0); cbn [triplet_sum]; [ring|].
      rewrite at_coord_false by lia. ring.
    + assert (k = Z.of_nat n) by lia. subst k.
      destruct (Req_dec_T (x (Z.of_nat n)) 0) as [E|E]; cbn [triplet_sum].
      * rewrite E. destruct (j =? 0)%Z; ring.
      * unfold at_coord. cbn [t_row t_col t_value]. rewrite Z.eqb_refl. cbn [andb].
        rewrite (Z.eqb_sym 0 j). destruct (j =? 0)%Z; ring.
    + destruct (Req_dec_T (x (Z.of_nat n)) 0); cbn [triplet_sum]; [ring|].
      rewrite at_coord_false by lia. ring.
Qed.

(** With one coefficient stored per coordinate the dense copy and the
    sum agree. *)
Lemma dense_one_per_coord (f : Z * Z -> R) (l : list (Z * Z)) i j :
  NoDup l ->
  fold_left (fun acc t => if at_coord i j t then t_value t else acc)
            (map (fun rc => mkTriplet (fst rc) (snd rc) (f rc)) l) 0 =
  if in_dec coord_eq_dec (i, j) l then f (i, j) else 0.
Proof.
  intros Hnd.
  destruct (in_dec coord_eq_dec (i, j) l) as [Hin|Hout].
  - apply in_split in Hin. destruct Hin as (l1 & l2 & ->).
    apply NoDup_remove_2 in Hnd.
    rewrite map_app, dense_fold_app. cbn [map fold_left].
    rewrite at_coord_true. cbn [t_value fst snd].
    apply dense_fold_no_match. apply Forall_forall. intros t Ht.
    apply in_map_iff in Ht. destruct Ht as ([a b] & <- & Hab).
    cbn [fst snd]. apply at_coord_false.
    destruct (Z.eq_dec a i); destruct (Z.eq_dec b j); auto.
    subst. elim Hnd. apply in_or_app. now right.
  - apply dense_fold_no_match. apply Forall_forall. intros t Ht.
    apply in_map_iff in Ht. destruct Ht as ([a b] & <- & Hab).
    cbn [fst snd]. apply at_coord_false.
    destruct (Z.eq_dec a i); destruct (Z.eq_dec b j); auto.
    subst. now elim Hout.
Qed.

Lemma sparse_mul_dense A B P :
  sparse_mul A B = Some P ->
  forall i j, denseCoeff P i j = triplet_sum (product_triplets A B) i j.
Proof.
  unfold sparse_mul. destruct (cols A =? rows B)%Z; [|discriminate].
  intros H i j. injection H as <-. unfold denseCoeff. cbn [stored].
  rewrite dense_one_per_coord by apply NoDup_nodup.
  destruct (in_dec coord_eq_dec (i, j) (coords (product_triplets A B))) as [Hin|Hout];
    [reflexivity|].
  symmetry. apply triplet_sum_not_touched.
  intros Hin. apply Hout. unfold coords. now apply nodup_In.
Qed.

Lemma product_row (a : Triplet) (B : list Triplet) (i j : Z) :
  triplet_sum
    (flat_map (fun b => if (t_col a =? t_row b)%Z
                        then [mkTriplet (t_row a) (t_col b) (t_value a * t_value b)]
                        else []) B) i j =
  if (t_row a =? i)%Z then t_value a * triplet_sum B (t_col a) j else 0.
Proof.
  induction B as [|b B IH]; cbn [flat_map triplet_sum].
  - destruct (t_row a =? i)%Z; ring.
  - rewrite triplet_sum_app, IH. unfold at_coord.
    rewrite (Z.eqb_sym (t_row b) (t_col a)).
    destruct (t_col a =? t_row b)%Z; cbn [triplet_sum andb].
    + unfold at_coord. cbn [t_row t_col t_value].
      destruct (t_row a =? i)%Z; destruct (t_col b =? j)%Z; cbn [andb]; ring.
    + destruct (t_row a =? i)%Z; ring.
Qed.

Lemma product_triplets_sum (A B : SparseMat) (i j : Z) :
  triplet_sum (product_triplets A B) i j =
  weighted_row_sum (stored A) i (fun c => triplet_sum (stored B) c j).
Proof.
  unfold product_triplets.
  induction (stored A) as [|a ts IH]; [reflexivity|].
  cbn [flat_map weighted_row_sum]. rewrite triplet_sum_app, IH, product_row.
  reflexivity.
Qed.

Lemma weighted_row_sum_dense (ts : list Triplet) (i : Z) (w : Z -> R) (m : nat) :
  Forall (fun t => (0 <= t_col t < Z.of_nat m)%Z) ts ->
  weighted_row_sum ts i w =
  sum_upto m (fun j => triplet_sum ts i (Z.of_nat j) * w (Z.of_nat j)).
Proof.
  induction 1 as [|t ts Ht _ IH]; cbn [weighted_row_sum triplet_sum].
  - rewrite (@sum_upto_ext m _ (fun _ => 0)); [now rewrite sum_upto_zero|].
    intros; ring.
  - rewrite IH.
    rewrite (@sum_upto_ext m
               (fun j => ((if at_coord i (Z.of_nat j) t then t_value t else 0)
                          + triplet_sum ts i (Z.of_nat j)) * w (Z.of_nat j))
               (fun j => (if (j =? Z.to_nat (t_col t))%nat
                          then (if (t_row t =? i)%Z then t_value t * w (t_col t) else 0)
                          else 0)
                         + triplet_sum ts i (Z.of_nat j) * w (Z.of_nat j))).
    + rewrite sum_upto_plus, sum_upto_single.
      replace (Z.to_nat (t_col t) <? m)%nat with true
        by (symmetry; apply Nat.ltb_lt; lia).
      reflexivity.
    + intros j _. unfold at_coord.
      destruct (Nat.eqb_spec j (Z.to_nat (t_col t))) as [->|Hne].
      * rewrite Z2Nat.id by lia. rewrite Z.eqb_refl, andb_true_r.
        destruct (t_row t =? i)%Z; ring.
      * replace (t_col t =? Z.of_nat j)%Z with false
          by (symmetry; apply Z.eqb_neq; lia).
        rewrite andb_false_r. ring.
Qed.

Lemma triplet_sum_filter_in_range (p q : Z) ts (i j : Z) :
  (0 <= i < p)%Z -> (0 <= j < q)%Z ->
  triplet_sum (filter (in_range p q) ts) i j = triplet_sum ts i j.
Proof.
  intros Hi Hj. induction ts as [|t ts IH]; [reflexivity|].
  cbn [filter triplet_sum]. destruct (in_range p q t) eqn:E.
  - cbn [triplet_sum]. now rewrite IH.
  - rewrite IH. destruct t as [r c v]. rewrite at_coord_false; [ring|].
    destruct (Z.eq_dec r i); destruct (Z.eq_dec c j); auto. subst.
    assert (in_range p q (mkTriplet i j v) = true)
      by (apply in_range_iff; cbn [t_row t_col]; lia).
    congruence.
Qed.

Lemma filter_in_range_cols (p q : Z) ts :
  Forall (fun t => (0 <= t_col t < q)%Z) (filter (in_range p q) ts).
Proof.
  apply Forall_forall. intros t Ht. apply filter_In in Ht.
  destruct Ht as [_ Ht]. apply in_range_iff in Ht. lia.
Qed.

(** ** Result tables *)

Lemma reshape_rounded_ext eps n (v v' : Z -> R) :
  (forall k, (0 <= k < 6 * Z.of_nat n)%Z -> v k = v' k) ->
  reshape_rounded eps n v = reshape_rounded eps n v'.
Proof.
  intros H. unfold reshape_rounded.
  apply map_ext_in. intros i Hi. apply in_seq in Hi.
  apply map_ext_in. intros j Hj.
  rewrite H; [reflexivity|].
  unfold NUM_DOFS. cbv [dof_range In] in Hj. lia.
Qed.

Lemma reshape_rounded_length eps n v : length (reshape_rounded eps n v) = n.
Proof. unfold reshape_rounded. now rewrite length_map, length_seq. Qed.

Lemma nth_map_seq {B : Type} (f : nat -> B) (d : B) (n i : nat) :
  (i < n)%nat -> nth i (map f (seq 0 n)) d = f i.
Proof.
  intros Hi.
  rewrite (nth_indep _ d (f 0%nat)) by (rewrite length_map, length_seq; exact Hi).
  rewrite map_nth, seq_nth by exact Hi. reflexivity.
Qed.

Lemma reshape_rounded_row eps n v i :
  (i < n)%nat ->
  nth i (reshape_rounded eps n v) [] =
  map (fun j => round_eps eps (v (NUM_DOFS * Z.of_nat i + j)%Z)) dof_range.
Proof.
  intros Hi. unfold reshape_rounded. now rewrite nth_map_seq.
Qed.

Lemma reshape_rounded_entry eps n v i j :
  (i < n)%nat -> (0 <= j < 6)%Z ->
  table_entry (reshape_rounded eps n v) i j = round_eps eps (v (6 * Z.of_nat i + j)%Z).
Proof.
  intros Hi Hj. unfold table_entry. rewrite reshape_rounded_row by assumption.
  unfold NUM_DOFS, dof_range.
  assert (E : (j = 0 \/ j = 1 \/ j = 2 \/ j = 3 \/ j = 4 \/ j = 5)%Z) by lia.
  destruct E as [->|[->|[->|[->|[->| ->]]]]]; reflexivity.
Qed.

Lemma all_some_succeeds {A : Type} (l : list (option A)) :
  Forall (fun o => exists a, o = Some a) l -> exists r, all_some l = Some r.
Proof.
  induction 1 as [|o l [a ->] _ [r IH]]; cbn [all_some]; [eauto|].
  rewrite IH. eauto.
Qed.

Lemma computeTieForces_succeeds ties eps n v :
  Forall (fun t => (0 <= node_number_1 t < Z.of_nat n)%Z /\
                   (0 <= node_number_2 t < Z.of_nat n)%Z) ties ->
  exists r, computeTieForces ties (reshape_rounded eps n v) = Some r.
Proof.
  intros Hv. unfold computeTieForces. apply all_some_succeeds.
  apply Forall_forall. intros o Ho. apply in_map_iff in Ho.
  destruct Ho as (tie & <- & Hin).
  rewrite Forall_forall in Hv. destruct (Hv tie Hin) as [H1 H2].
  apply all_some_succeeds. apply Forall_forall. intros o Ho.
  apply in_map_iff in Ho. destruct Ho as (j & <- & Hj).
  assert (Hrow : forall k, (0 <= k < Z.of_nat n)%Z ->
            at_index (reshape_rounded eps n v) k =
            Some (nth (Z.to_nat k) (reshape_rounded eps n v) [])).
  { intros k Hk. unfold at_index. destruct (Z.ltb_spec k 0); [lia|].
    apply nth_error_nth'. rewrite reshape_rounded_length. lia. }
  rewrite !Hrow by assumption.
  rewrite !reshape_rounded_row by lia.
  assert (Hcol : forall f : Z -> R, exists a, at_index (map f dof_range) j = Some a).
  { intros f. apply at_index_some. rewrite length_map.
    cbv [dof_range In] in Hj. cbn [length dof_range]. lia. }
  destruct (Hcol (fun j0 => round_eps eps
              (v (NUM_DOFS * Z.of_nat (Z.to_nat (node_number_1 tie)) + j0)%Z))) as [d1 ->].
  destruct (Hcol (fun j0 => round_eps eps
              (v (NUM_DOFS * Z.of_nat (Z.to_nat (node_number_2 tie)) + j0)%Z))) as [d2 ->].
  eauto.
Qed.

Lemma topLeftCorner_some (M : SparseMat) (p q : Z) :
  (0 <= p <= rows M)%Z -> (0 <= q <= cols M)%Z ->
  topLeftCorner M p q = Some (mkSparse p q (filter (in_range p q) (stored M))).
Proof.
  intros Hp Hq. unfold topLeftCorner.
  replace ((0 <=? p) && (p <=? rows M) && (0 <=? q) && (q <=? cols M))%Z with true;
    [reflexivity|].
  symmetry. rewrite !andb_true_iff, !Z.leb_le. lia.
Qed.

Lemma sparse_mul_succeeds (A B : SparseMat) :
  cols A = rows B -> exists P, sparse_mul A B = Some P.
Proof.
  intros H. unfold sparse_mul. rewrite H, Z.eqb_refl. eauto.
Qed.

(** The reaction column [solve] computes: the leading block of [Kg]
    applied to the leading entries of the solution. *)
Lemma reaction_column (Kg : SparseMat) (x : Z -> R) (n : nat) (Kfree dtop P : SparseMat) :
  (Z.of_nat n <= rows Kg)%Z -> (Z.of_nat n <= cols Kg)%Z ->
  topLeftCorner Kg (Z.of_nat n) (Z.of_nat n) = Some Kfree ->
  topRows (sparseView_column (Z.to_nat (rows Kg)) x) (Z.of_nat n) = Some dtop ->
  sparse_mul Kfree dtop = Some P ->
  forall k, (0 <= k < Z.of_nat n)%Z ->
    denseCoeff P k 0 =
    sum_upto n (fun j => coeff Kg k (Z.of_nat j) * x (Z.of_nat j)).
Proof.
  intros Hr Hc EK Ed EP k Hk.
  rewrite topLeftCorner_some in EK by lia. injection EK as <-.
  unfold topRows in Ed. rewrite topLeftCorner_some in Ed
    by (cbn [rows cols sparseView_column]; lia).
  injection Ed as <-.
  rewrite (sparse_mul_dense _ _ EP), product_triplets_sum. cbn [stored cols].
  rewrite (@weighted_row_sum_dense _ k _ n) by apply filter_in_range_cols.
  apply sum_upto_ext. intros j Hj.
  rewrite !triplet_sum_filter_in_range by lia.
  pose proof (@triplet_sum_sparseView_column x (Z.to_nat (rows Kg)) (Z.of_nat j) 0
                ltac:(lia)) as Ex.
  unfold sparseView_column in Ex. cbn [stored] in Ex. rewrite Ex.
  replace (Z.of_nat j <? Z.of_nat (Z.to_nat (rows Kg)))%Z with true
    by (symmetry; apply Z.ltb_lt; lia).
  reflexivity.
Qed.

Lemma round_eps_spec (eps y : R) :
  (Rabs y < eps -> round_eps eps y = 0) /\ (~ Rabs y < eps -> round_eps eps y = y).
Proof.
  unfold round_eps. destruct (Rlt_dec (Rabs y) eps); split; intros; tauto.
Qed.

(** C7. For a valid input [solve] returns a Summary. Its nodal forces are
    the |nodes| x 6 reshape of r = K_free u, where K_free is the leading
    6|nodes| x 6|nodes| block of the matrix handed to the solver (the
    stiffness assembled from elements and ties, before the Lagrange rows
    and columns) and u the leading 6|nodes| entries of the solution, each
    entry of magnitude strictly below [options.epsilon] replaced by 0; the
    nodal displacements are the reshape of u with the same rounding. *)
Theorem solve_nodal_forces_and_displacements :
  forall (SparseLU_solve : SparseMat -> SparseMat -> Z -> R)
         job BCs forces ties options,
    valid_input job BCs forces ties ->
    exists s Kg fv,
      solve SparseLU_solve job BCs forces ties options = Some s /\
      build_system job BCs forces ties = Some (Kg, fv) /\
      let n := length (nodes job) in
      let x := SparseLU_solve Kg fv in
      let K_free := fun i j : nat => coeff Kg (Z.of_nat i) (Z.of_nat j) in
      let u := fun j : nat => x (Z.of_nat j) in
      let r := fun i : nat => sum_upto (6 * n) (fun j => K_free i j * u j) in
      (forall i j, (i < 6 * n)%nat -> (j < 6 * n)%nat ->
         K_free i j =
         sum_upto (length (elems job))
           (fun e => element_contribution job e (Z.of_nat i) (Z.of_nat j))
         + triplet_sum (loadTies [] ties) (Z.of_nat i) (Z.of_nat j)) /\
      length (nodal_forces s) = n /\
      length (nodal_displacements s) = n /\
      forall i j, (i < n)%nat -> (j < 6)%nat ->
        table_entry (nodal_forces s) i (Z.of_nat j) =
          (if Rlt_dec (Rabs (r (6 * i + j)%nat)) (epsilon options)
           then 0 else r (6 * i + j)%nat) /\
        table_entry (nodal_displacements s) i (Z.of_nat j) =
          (if Rlt_dec (Rabs (u (6 * i + j)%nat)) (epsilon options)
           then 0 else u (6 * i + j)%nat).
Proof.
  intros solver job BCs forces ties options Hv.
  destruct (build_system_result Hv) as (Kg & fv & E & Hr & Hc & Hfr & Hfc & Hlead).
  cbv zeta in Hr, Hc, Hlead.
  set (n := length (nodes job)) in *.
  assert (Hn6 : (NUM_DOFS * Z.of_nat n)%Z = Z.of_nat (6 * n)) by (unfold NUM_DOFS; lia).
  assert (Hrows : (Z.of_nat (6 * n) <= rows Kg)%Z) by lia.
  assert (Hcols : (Z.of_nat (6 * n) <= cols Kg)%Z) by lia.
  destruct (topLeftCorner Kg (Z.of_nat (6 * n)) (Z.of_nat (6 * n))) as [Kfree|] eqn:EK;
    [|rewrite topLeftCorner_some in EK by lia; discriminate].
  destruct (topRows (sparseView_column (Z.to_nat (rows Kg)) (solver Kg fv))
                    (Z.of_nat (6 * n))) as [dtop|] eqn:Ed;
    [|unfold topRows in Ed; rewrite topLeftCorner_some in Ed
        by (cbn [rows cols sparseView_column]; lia); discriminate].
  destruct (@sparse_mul_succeeds Kfree dtop) as [P EP].
  { rewrite topLeftCorner_some in EK by lia. injection EK as <-.
    unfold topRows in Ed. rewrite topLeftCorner_some in Ed
      by (cbn [rows cols sparseView_column]; lia).
    injection Ed as <-. reflexivity. }
  pose proof (@reaction_column Kg (solver Kg fv) (6 * n) Kfree dtop P
                Hrows Hcols EK Ed EP) as Hreact.
  assert (Hties : exists tf,
            (if (0 <? length ties)%nat
             then computeTieForces ties
                    (reshape_rounded (epsilon options) n
                       (fun k => denseCoeff
                                   (sparseView_column (Z.to_nat (rows Kg)) (solver Kg fv)) k 0))
             else Some []) = Some tf).
  { destruct (0 <? length ties)%nat; [|eauto].
    apply computeTieForces_succeeds. destruct Hv as [_ _ _ _ Ht _]. exact Ht. }
  destruct Hties as [tf Etf].
  eexists _, Kg, fv. split.
  { unfold solve. rewrite E. cbv zeta. fold n. rewrite Hn6, EK, Ed, EP, Etf.
    reflexivity. }
  split; [exact E|]. cbv zeta. cbn [nodal_forces nodal_displacements]. split.
  { intros i j Hi Hj. apply Hlead; lia. }
  rewrite !reshape_rounded_length. split; [reflexivity|]. split; [reflexivity|].
  intros i j Hi Hj.
  rewrite !reshape_rounded_entry by lia.
  replace (6 * Z.of_nat i + Z.of_nat j)%Z with (Z.of_nat (6 * i + j)) by lia.
  rewrite Hreact by lia.
  rewrite denseCoeff_sparseView_column by lia.
  replace (Z.of_nat (6 * i + j) <? Z.of_nat (Z.to_nat (rows Kg)))%Z with true
    by (symmetry; apply Z.ltb_lt; lia).
  unfold round_eps. split; reflexivity.
Qed.

Lemma solve_nodal_forces_and_displacements_witness :
  let SparseLU_solve := fun (_ _ : SparseMat) (k : Z) => IZR k / 100 in
  let job := JOB_CANTILEVER in
  let BCs := BCS_CANTILEVER in
  let forces := FORCES_CANTILEVER in
  let ties := @nil Tie in
  let options := mkOptions (/ 10 ^ 14) in
  valid_input job BCs forces ties /\
  exists s Kg fv,
    solve SparseLU_solve job BCs forces ties options = Some s /\
    build_system job BCs forces ties = Some (Kg, fv) /\
    let n := length (nodes job) in
    let x := SparseLU_solve Kg fv in
    let K_free := fun i j : nat => coeff Kg (Z.of_nat i) (Z.of_nat j) in
    let u := fun j : nat => x (Z.of_nat j) in
    let r := fun i : nat => sum_upto (6 * n) (fun j => K_free i j * u j) in
    (forall i j, (i < 6 * n)%nat -> (j < 6 * n)%nat ->
       K_free i j =
       sum_upto (length (elems job))
         (fun e => element_contribution job e (Z.of_nat i) (Z.of_nat j))
       + triplet_sum (loadTies [] ties) (Z.of_nat i) (Z.of_nat j)) /\
    length (nodal_forces s) = n /\
    length (nodal_displacements s) = n /\
    forall i j, (i < n)%nat -> (j < 6)%nat ->
      table_entry (nodal_forces s) i (Z.of_nat j) =
        (if Rlt_dec (Rabs (r (6 * i + j)%nat)) (epsilon options)
         then 0 else r (6 * i + j)%nat) /\
      table_entry (nodal_displacements s) i (Z.of_nat j) =
        (if Rlt_dec (Rabs (u (6 * i + j)%nat)) (epsilon options)
         then 0 else u (6 * i + j)%nat).
Proof.
  intros SparseLU_solve job BCs forces ties options.
  assert (Hv : valid_input job BCs forces ties).
  { split; cbn; unfold valid_node, valid_dof, UInt.INT_MAX; cbn;
      repeat (constructor; [cbn; lia|]); try constructor; lia. }
  split; [exact Hv|].
  exact (@solve_nodal_forces_and_displacements SparseLU_solve job BCs forces ties
           options Hv).
Defined.

(** ** The tests of the repository, replayed on the model *)

Lemma norm_unit_x : norm (Vec3 0 0 0) (Vec3 1 0 0) = 1.
Proof.
  unfold norm, Vector3d_ops.norm. run_vector. cbv [Vector3d_ops.sub vx vy vz].
  replace ((1 - 0) * (1 - 0) + (0 - 0) * (0 - 0) + (0 - 0) * (0 - 0)) with 1 by ring.
  apply sqrt_1.
Qed.

Lemma normalized_unit_x :
  Vector3d_ops.normalized (Vector3d_ops.sub (Vec3 1 0 0) (Vec3 0 0 0)) = Vec3 1 0 0.
Proof.
  unfold Vector3d_ops.normalized.
  change (Vector3d_ops.norm (Vector3d_ops.sub (Vec3 1 0 0) (Vec3 0 0 0)))
    with (norm (Vec3 0 0 0) (Vec3 1 0 0)).
  rewrite norm_unit_x. cbv [Vector3d_ops.div Vector3d_ops.sub vx vy vz].
  f_equal; field.
Qed.

Lemma normalized_unit_y : Vector3d_ops.normalized (Vec3 0 1 0) = Vec3 0 1 0.
Proof.
  unfold Vector3d_ops.normalized, Vector3d_ops.norm. run_vector.
  replace (0 * 0 + 1 * 1 + 0 * 0) with 1 by ring. rewrite sqrt_1.
  f_equal; field.
Qed.

Lemma normalized_3_4_0 : Vector3d_ops.normalized (Vec3 3 4 0) = Vec3 (3 / 5) (4 / 5) 0.
Proof.
  unfold Vector3d_ops.normalized, Vector3d_ops.norm. run_vector.
  replace (3 * 3 + 4 * 4 + 0 * 0) with (Rsqr 5) by (unfold Rsqr; ring).
  rewrite sqrt_Rsqr by lra. f_equal; field.
Qed.

Lemma sum_upto_pick_r n (f : nat -> R) c :
  (c < n)%nat -> sum_upto n (fun k => f k * identity k c) = f c.
Proof.
  intros Hc.
  rewrite (@sum_upto_ext n _ (fun k => if (k =? c)%nat then f c else 0)).
  - rewrite sum_upto_single.
    replace (c <? n)%nat with true by (symmetry; now apply Nat.ltb_lt).
    reflexivity.
  - intros k _. unfold identity. destruct (Nat.eqb_spec k c) as [->|]; ring.
Qed.

Lemma sum_upto_pick_l n (f : nat -> R) r :
  (r < n)%nat -> sum_upto n (fun m => identity r m * f m) = f r.
Proof.
  intros Hr.
  rewrite (@sum_upto_ext n _ (fun m => if (m =? r)%nat then f r else 0)).
  - rewrite sum_upto_single.
    replace (r <? n)%nat with true by (symmetry; now apply Nat.ltb_lt).
    reflexivity.
  - intros m _. unfold identity. rewrite Nat.eqb_sym.
    destruct (Nat.eqb_spec m r) as [->|]; ring.
Qed.

(** [AssemblesElementalStiffness]: the element matrix of the first element
    of the L-bracket is the table the test expects. *)
Example test_AssemblesElementalStiffness :
  exists st',
    calcKelem GlobalStiffAssembler_new 0 JOB_L_BRACKET = Some st' /\
    forall r c, (r < 12)%nat -> (c < 12)%nat ->
      getKelem st' r c = spec_Klocal 10 10 120 60 10 120 60 10 r c.
Proof.
  eexists. split; [reflexivity|]. intros r c Hr Hc.
  cbn [getKelem Kelem calcAelem Klocal Aelem AelemT GlobalStiffAssembler_new
       EA EIz EIy GJ normal_vec].
  rewrite normalized_unit_x, normalized_unit_y, norm_unit_x.
  replace (Vector3d_ops.div _ _) with (Vec3 0 0 1) by (run_vector; f_equal; field).
  unfold mmul.
  rewrite (@sum_upto_ext 12 _
             (fun k => sum_upto 12
                         (fun m => identity r m *
                                   assign setZero (Klocal_writes 10 10 10 10 1) m k)
                       * identity k c)).
  - rewrite sum_upto_pick_r, sum_upto_pick_l by assumption.
    rewrite Klocal_assigned by reflexivity.
    replace (12 * 10 / (1 * 1 * 1)) with 120 by field.
    replace (6 * 10 / (1 * 1)) with 60 by field.
    replace (10 / 1) with 10 by field. reflexivity.
  - intros k Hk. rewrite Aelem_assigned by reflexivity.
    rewrite spec_rotation_identity by assumption. f_equal.
    apply sum_upto_ext. intros m Hm.
    rewrite AelemT_assigned by reflexivity.
    rewrite spec_rotation_identity by assumption.
    unfold identity. now rewrite Nat.eqb_sym.
Qed.

(** [TransformsLocalToGlobalCoords] calls [calcAelem] with (1, 0, 0) and
    (0, 0, 1) and compares the first twelve coefficients of [Aelem], its
    first row, with those of the identity. *)
Example test_TransformsLocalToGlobalCoords :
  forall c, (c < 12)%nat ->
    getAelem (calcAelem GlobalStiffAssembler_new (Vec3 1 0 0) (Vec3 0 0 1)) 0%nat c
    = identity 0%nat c.
Proof.
  intros c Hc. unfold getAelem. cbn [calcAelem Aelem].
  rewrite Aelem_assigned by reflexivity.
  split12 c; try lia; reflexivity.
Qed.

(** The element of [JOB_SKEW_NORMAL], through [calcKelem]: the normal is
    normalised to (3/5, 4/5, 0) and the third row of the rotation matrix
    comes out as (0, 0, 5/4). *)
Example calcKelem_skew_normal_third_row :
  exists st',
    calcKelem GlobalStiffAssembler_new 0 JOB_SKEW_NORMAL = Some st' /\
    (getAelem st')@[1, 0] = 3 / 5 /\ (getAelem st')@[1, 1] = 4 / 5 /\
    (getAelem st')@[2, 0] = 0 /\ (getAelem st')@[2, 1] = 0 /\
    (getAelem st')@[2, 2] = 5 / 4.
Proof.
  eexists. split; [reflexivity|].
  cbn [getAelem Kelem calcAelem Klocal Aelem AelemT GlobalStiffAssembler_new
       EA EIz EIy GJ normal_vec].
  rewrite normalized_unit_x, normalized_3_4_0.
  repeat split; run_assign; run_vector; field.
Qed.

(* ================================================================== *)
(** * Further properties of the code *)

(** ** [norm], [calcAelem], [calcKelem] *)

(** X1. [norm] is symmetric in its two nodes, never negative, and zero exactly
    for coincident nodes (the length [calcKelem] divides by). *)
Theorem norm_symmetric_zero_iff :
  forall n1 n2 : Node,
    norm n1 n2 = norm n2 n1 /\ 0 <= norm n1 n2 /\ (norm n1 n2 = 0 <-> n1 = n2).
Proof.
  intros n1 n2. split; [|split].
  - unfold norm, Vector3d_ops.norm. f_equal.
    destruct n1, n2. cbv [Vector3d_ops.squaredNorm Vector3d_ops.dot Vector3d_ops.sub vx vy vz].
    ring.
  - apply sqrt_pos.
  - split.
    + intros H0.
      destruct n1 as [x1 y1 z1], n2 as [x2 y2 z2].
      destruct (Req_dec_T x1 x2) as [Ex|Nx];
        [destruct (Req_dec_T y1 y2) as [Ey|Ny];
         [destruct (Req_dec_T z1 z2) as [Ez|Nz]; [now subst|]|]|];
        exfalso;
        (assert (Hp : 0 < norm (Vec3 x1 y1 z1) (Vec3 x2 y2 z2))
          by (apply norm_pos; intros E; injection E; intros; contradiction));
        rewrite H0 in Hp; lra.
    + intros ->. unfold norm, Vector3d_ops.norm.
      destruct n2. cbv [Vector3d_ops.squaredNorm Vector3d_ops.dot Vector3d_ops.sub vx vy vz].
      replace ((vx0 - vx0) * (vx0 - vx0) + (vy0 - vy0) * (vy0 - vy0)
               + (vz0 - vz0) * (vz0 - vz0)) with 0 by ring.
      apply sqrt_0.
Qed.

(** X2. [calcAelem] writes [AelemT] as the transpose of [Aelem], touches
    neither [Kelem] nor [Klocal], and what it leaves in the two rotation
    matrices does not depend on what they held before. *)
Theorem calcAelem_transpose_and_frame :
  forall st st0 nx ny,
    clean st -> clean st0 ->
    let st' := calcAelem st nx ny in
    (forall r c, AelemT st' r c = Aelem st' c r) /\
    (forall r c, Aelem st' r c = Aelem (calcAelem st0 nx ny) r c) /\
    (forall r c, AelemT st' r c = AelemT (calcAelem st0 nx ny) r c) /\
    Kelem st' = Kelem st /\ Klocal st' = Klocal st /\ clean st'.
Proof.
  intros st st0 nx ny Hc Hc0 st'. subst st'.
  destruct (calcAelem_rows nx ny Hc) as [HA HT].
  destruct (calcAelem_rows nx ny Hc0) as [HA0 HT0].
  split; [intros r c; now rewrite HA, HT|].
  split; [intros r c; now rewrite HA, HA0|].
  split; [intros r c; now rewrite HT, HT0|].
  split; [reflexivity|]. split; [reflexivity|]. now apply clean_calcAelem.
Qed.

Lemma calcAelem_transpose_and_frame_witness :
  let st := calcAelem GlobalStiffAssembler_new (Vec3 0 0 1) (Vec3 1 0 0) in
  let st' := calcAelem st (Vec3 1 0 0) (Vec3 0 1 0) in
  clean st /\
  (forall r c, AelemT st' r c = Aelem st' c r) /\
  (forall r c, Aelem st' r c =
               Aelem (calcAelem GlobalStiffAssembler_new (Vec3 1 0 0) (Vec3 0 1 0)) r c) /\
  (forall r c, AelemT st' r c =
               AelemT (calcAelem GlobalStiffAssembler_new (Vec3 1 0 0) (Vec3 0 1 0)) r c) /\
  Kelem st' = Kelem st /\ Klocal st' = Klocal st /\ clean st'.
Proof.
  intros st st'.
  assert (Hc : clean st) by (apply clean_calcAelem; exact clean_new).
  split; [exact Hc|].
  exact (@calcAelem_transpose_and_frame st GlobalStiffAssembler_new
           (Vec3 1 0 0) (Vec3 0 1 0) Hc clean_new).
Defined.

Lemma sum_upto_scale_r n a f :
  sum_upto n (fun k => f k * a) = sum_upto n f * a.
Proof.
  induction n as [|n IH]; cbn [sum_upto]; [ring|]. rewrite IH. ring.
Qed.

(** A^T K A is symmetric when K is. *)
Lemma congruence_symmetric (A AT K : LocalMatrix) :
  (forall r c, AT r c = A c r) -> (forall r c, K r c = K c r) ->
  forall r c, mmul (mmul AT K) A r c = mmul (mmul AT K) A c r.
Proof.
  intros HT HK r c. unfold mmul.
  rewrite (@sum_upto_ext 12 _
             (fun k => sum_upto 12 (fun m => A m r * K m k * A k c))).
  2:{ intros k _. rewrite <- sum_upto_scale_r. apply sum_upto_ext.
      intros m _. now rewrite HT. }
  rewrite (@sum_upto_ext 12 (fun k => sum_upto 12 (fun k0 => AT c k0 * K k0 k) * A k r)
             (fun k => sum_upto 12 (fun m => A m c * K m k * A k r))).
  2:{ intros k _. rewrite <- sum_upto_scale_r. apply sum_upto_ext.
      intros m _. now rewrite HT. }
  rewrite sum_upto_swap. apply sum_upto_ext. intros a _.
  apply sum_upto_ext. intros b _. rewrite (HK a b). ring.
Qed.

Lemma calcKelem_parts st i job st' :
  clean st -> calcKelem st i job = Some st' ->
  exists pr nn1 nn2 p1 p2 nz,
    nth_error (props job) i = Some pr /\
    nth_error (elems job) i = Some (nn1, nn2) /\
    at_index (nodes job) nn1 = Some p1 /\
    at_index (nodes job) nn2 = Some p2 /\
    let L := norm p1 p2 in
    let nx := Vector3d_ops.normalized (Vector3d_ops.sub p2 p1) in
    let ny := Vector3d_ops.normalized (normal_vec pr) in
    let K := spec_Klocal (EA pr / L) (GJ pr / L)
               (12 * EIz pr / (L * L * L)) (6 * EIz pr / (L * L)) (EIz pr / L)
               (12 * EIy pr / (L * L * L)) (6 * EIy pr / (L * L)) (EIy pr / L) in
    (forall r c, Klocal st' r c = K r c) /\
    (forall r c, Aelem st' r c = spec_rotation nx ny nz r c) /\
    (forall r c, AelemT st' r c = spec_rotation nx ny nz c r) /\
    (forall r c, Kelem st' r c = mmul (mmul (AelemT st') (Klocal st')) (Aelem st') r c).
Proof.
  intros Hc H.
  destruct (calcKelem_inv _ _ _ H) as (pr & nn1 & nn2 & p1 & p2 & Ep & Ee & E1 & E2 & ->).
  exists pr, nn1, nn2, p1, p2.
  eexists. repeat (split; [eassumption|]).
  cbn [Kelem Klocal Aelem AelemT calcAelem]. destruct Hc as [HK HA HT].
  split; [intros r c; now apply Klocal_assigned|].
  split; [intros r c; now apply Aelem_assigned|].
  split; [intros r c; now apply AelemT_assigned|].
  reflexivity.
Qed.

Lemma squaredNorm_pos (v : Vector3d) :
  v <> Vec3 0 0 0 -> 0 < Vector3d_ops.squaredNorm v.
Proof.
  intros Hv. destruct v as [x y z].
  cbv [Vector3d_ops.squaredNorm Vector3d_ops.dot vx vy vz].
  pose proof (Rle_0_sqr x) as Hx. pose proof (Rle_0_sqr y) as Hy.
  pose proof (Rle_0_sqr z) as Hz. unfold Rsqr in *.
  destruct (Req_dec_T x 0) as [->|Nx];
    [destruct (Req_dec_T y 0) as [->|Ny];
     [destruct (Req_dec_T z 0) as [->|Nz]; [now elim Hv|]|]|].
  - assert (0 < Rsqr z) by (apply Rsqr_pos_lt; lra). unfold Rsqr in *. lra.
  - assert (0 < Rsqr y) by (apply Rsqr_pos_lt; lra). unfold Rsqr in *. lra.
  - assert (0 < Rsqr x) by (apply Rsqr_pos_lt; lra). unfold Rsqr in *. lra.
Qed.

(** The three divisors of [calcKelem] and [calcAelem] are positive for a
    regular element. *)
Lemma regular_element_divisors (p1 p2 n : Vector3d) :
  Vector3d_ops.cross (Vector3d_ops.sub p2 p1) n <> Vec3 0 0 0 ->
  0 < norm p1 p2 /\
  0 < Vector3d_ops.norm n /\
  0 < Vector3d_ops.squaredNorm
        (Vector3d_ops.cross (Vector3d_ops.normalized (Vector3d_ops.sub p2 p1))
                            (Vector3d_ops.normalized n)).
Proof.
  intros Hc.
  assert (Ha : Vector3d_ops.sub p2 p1 <> Vec3 0 0 0).
  { intros E. apply Hc. rewrite E. cbv [Vector3d_ops.cross vx vy vz]. f_equal; ring. }
  assert (Hb : n <> Vec3 0 0 0).
  { intros E. apply Hc. rewrite E. cbv [Vector3d_ops.cross vx vy vz]. f_equal; ring. }
  assert (Hs : 0 < Vector3d_ops.norm (Vector3d_ops.sub p2 p1))
    by (apply sqrt_lt_R0, squaredNorm_pos, Ha).
  assert (Ht : 0 < Vector3d_ops.norm n) by (apply sqrt_lt_R0, squaredNorm_pos, Hb).
  split; [exact Hs|]. split; [exact Ht|].
  apply squaredNorm_pos. intros E. apply Hc.
  unfold Vector3d_ops.normalized in E.
  set (s := Vector3d_ops.norm (Vector3d_ops.sub p2 p1)) in *.
  set (t := Vector3d_ops.norm n) in *.
  destruct (Vector3d_ops.sub p2 p1) as [a1 a2 a3]. destruct n as [b1 b2 b3].
  cbv [Vector3d_ops.cross Vector3d_ops.div vx vy vz] in E |- *.
  injection E as E1 E2 E3.
  assert (Hst : s * t <> 0) by nra.
  f_equal.
  - replace (a2 * b3 - a3 * b2) with ((a2 / s * (b3 / t) - a3 / s * (b2 / t)) * (s * t))
      by (field; lra). rewrite E1. ring.
  - replace (a3 * b1 - a1 * b3) with ((a3 / s * (b1 / t) - a1 / s * (b3 / t)) * (s * t))
      by (field; lra). rewrite E2. ring.
  - replace (a1 * b2 - a2 * b1) with ((a1 / s * (b2 / t) - a2 / s * (b1 / t)) * (s * t))
      by (field; lra). rewrite E3. ring.
Qed.

Ltac regular_by_computation :=
  let pr := fresh "pr" in let nn1 := fresh "nn1" in let nn2 := fresh "nn2" in
  let p1 := fresh "p1" in let p2 := fresh "p2" in
  let Hp := fresh "Hp" in let He := fresh "He" in
  let H1 := fresh "H1" in let H2 := fresh "H2" in let E := fresh "E" in
  intros pr nn1 nn2 p1 p2 Hp He H1 H2;
  cbn in Hp, He; injection Hp as <-; injection He as <- <-;
  cbn in H1, H2; injection H1 as <-; injection H2 as <-;
  cbv [Vector3d_ops.cross Vector3d_ops.sub normal_vec vx vy vz];
  intros E; injection E; lra.

Lemma JOB_SKEW_NORMAL_regular : regular_element JOB_SKEW_NORMAL 0.
Proof. regular_by_computation. Qed.

Lemma JOB_L_BRACKET_regular : regular_job JOB_L_BRACKET.
Proof.
  intros i Hi. destruct i as [|[|[|i]]]; [| | |cbn in Hi; lia]; regular_by_computation.
Qed.

(** X3. The element matrix in global coordinates, Kelem = AelemT Klocal Aelem,
    is symmetric for every regular element, whatever the angle between its
    normal and its axis. *)
Theorem calcKelem_Kelem_symmetric :
  forall st i job st',
    clean st -> regular_element job i -> calcKelem st i job = Some st' ->
    forall r c, Kelem st' r c = Kelem st' c r.
Proof.
  intros st i job st' Hc _ H r c.
  destruct (calcKelem_parts _ _ Hc H)
    as (pr & nn1 & nn2 & p1 & p2 & nz & _ & _ & _ & _ & HK & HA & HT & HE).
  cbv zeta in HK, HA, HT.
  rewrite !HE. apply congruence_symmetric.
  - intros a b. now rewrite HT, HA.
  - intros a b. rewrite !HK. apply spec_Klocal_symmetric.
Qed.

Lemma calcKelem_Kelem_symmetric_witness :
  regular_element JOB_SKEW_NORMAL 0 /\
  exists st',
    calcKelem GlobalStiffAssembler_new 0 JOB_SKEW_NORMAL = Some st' /\
    forall r c, Kelem st' r c = Kelem st' c r.
Proof.
  split; [exact JOB_SKEW_NORMAL_regular|].
  eexists. split; [reflexivity|].
  exact (@calcKelem_Kelem_symmetric GlobalStiffAssembler_new 0%nat JOB_SKEW_NORMAL _
           clean_new JOB_SKEW_NORMAL_regular eq_refl).
Defined.

(** X4. The local stiffness matrix gives no end force for a rigid motion of
    the element: the three translations and the three small rotations all
    lie in its null space. *)
Theorem calcKelem_rigid_body_modes :
  forall st job i pr nn1 nn2 p1 p2,
    clean st ->
    nth_error (props job) i = Some pr ->
    nth_error (elems job) i = Some (nn1, nn2) ->
    at_index (nodes job) nn1 = Some p1 ->
    at_index (nodes job) nn2 = Some p2 ->
    p1 <> p2 ->
    exists st',
      calcKelem st i job = Some st' /\
      forall a b c alpha beta gamma r,
        sum_upto 12 (fun k => Klocal st' r k *
                              rigid_motion (norm p1 p2) a b c alpha beta gamma k) = 0.
Proof.
  intros st job i pr nn1 nn2 p1 p2 Hc Hp He H1 H2 Hd.
  pose proof (norm_pos Hd) as HL.
  unfold calcKelem. rewrite Hp, He, H1, H2. eexists. split; [reflexivity|].
  intros a b c alpha beta gamma r. cbn [Klocal calcAelem].
  rewrite (@sum_upto_ext 12 _
             (fun k => spec_Klocal (EA pr / norm p1 p2) (GJ pr / norm p1 p2)
                         (12 * EIz pr / (norm p1 p2 * norm p1 p2 * norm p1 p2))
                         (6 * EIz pr / (norm p1 p2 * norm p1 p2)) (EIz pr / norm p1 p2)
                         (12 * EIy pr / (norm p1 p2 * norm p1 p2 * norm p1 p2))
                         (6 * EIy pr / (norm p1 p2 * norm p1 p2)) (EIy pr / norm p1 p2)
                         r k
                       * rigid_motion (norm p1 p2) a b c alpha beta gamma k)).
  2:{ intros k _. rewrite Klocal_assigned by apply Hc. reflexivity. }
  generalize dependent (norm p1 p2). intros L HL.
  cbn [sum_upto].
  split12 r; cbv [spec_Klocal rigid_motion]; field; lra.
Qed.

Lemma calcKelem_rigid_body_modes_witness :
  Vec3 0 0 0 <> Vec3 1 0 0 /\
  exists st',
    calcKelem GlobalStiffAssembler_new 0 JOB_CANTILEVER = Some st' /\
    forall a b c alpha beta gamma r,
      sum_upto 12 (fun k => Klocal st' r k *
                            rigid_motion (norm (Vec3 0 0 0) (Vec3 1 0 0))
                                         a b c alpha beta gamma k) = 0.
Proof.
  assert (Hd : Vec3 0 0 0 <> Vec3 1 0 0) by (intros H; injection H as H; lra).
  split; [exact Hd|].
  exact (@calcKelem_rigid_body_modes GlobalStiffAssembler_new JOB_CANTILEVER 0%nat
           (mkProps 1 1 1 1 (Vec3 0 0 1)) 0%Z 1%Z (Vec3 0 0 0) (Vec3 1 0 0)
           clean_new eq_refl eq_refl eq_refl eq_refl Hd).
Defined.

(** The translation column, read at the twelve local places. *)
Lemma global_translation_local t0 t1 t2 k :
  (k < 12)%nat ->
  global_translation t0 t1 t2 (Z.of_nat k) =
  match k with
  | 0%nat | 6%nat => t0
  | 1%nat | 7%nat => t1
  | 2%nat | 8%nat => t2
  | _ => 0
  end.
Proof. intros Hk. split12 k; try lia; reflexivity. Qed.

Lemma global_translation_shift t0 t1 t2 (n J : Z) :
  global_translation t0 t1 t2 (6 * n + J) = global_translation t0 t1 t2 J.
Proof.
  unfold global_translation.
  replace ((6 * n + J) mod 6)%Z with (J mod 6)%Z; [reflexivity|].
  rewrite Z.add_comm, Z.mul_comm. now rewrite Z_mod_plus_full.
Qed.

Lemma triple_product_vector (A AT K : LocalMatrix) (T : nat -> R) (r : nat) :
  sum_upto 12 (fun k => mmul (mmul AT K) A r k * T k) =
  sum_upto 12 (fun a => AT r a *
    sum_upto 12 (fun b => K a b * sum_upto 12 (fun k => A b k * T k))).
Proof.
  unfold mmul.
  rewrite (@sum_upto_ext 12 _
             (fun k => sum_upto 12 (fun b =>
                sum_upto 12 (fun a => AT r a * K a b * (A b k * T k))))).
  2:{ intros k _. rewrite <- sum_upto_scale_r. apply sum_upto_ext. intros b _.
      rewrite Rmult_assoc. rewrite <- sum_upto_scale_r. reflexivity. }
  rewrite sum_upto_swap.
  rewrite (@sum_upto_ext 12 _
             (fun b => sum_upto 12 (fun a =>
                sum_upto 12 (fun k => AT r a * K a b * (A b k * T k))))).
  2:{ intros b _. apply sum_upto_swap. }
  rewrite sum_upto_swap. apply sum_upto_ext. intros a _.
  rewrite <- sum_upto_scale. apply sum_upto_ext. intros b _.
  rewrite <- sum_upto_scale.
  rewrite (@sum_upto_ext 12 _ (fun k => AT r a * (K a b * (A b k * T k)))).
  2:{ intros k _. ring. }
  now rewrite !sum_upto_scale.
Qed.

(** X5. The element matrix in global coordinates gives no force for a
    translation of the element as a whole, for every regular element,
    whatever its orientation and the angle between its normal and its
    axis. *)
Theorem calcKelem_translation_invariant :
  forall st i job st',
    clean st -> regular_element job i -> calcKelem st i job = Some st' ->
    forall t0 t1 t2 r,
      sum_upto 12 (fun k => Kelem st' r k *
                            global_translation t0 t1 t2 (Z.of_nat k)) = 0.
Proof.
  intros st i job st' Hc _ H t0 t1 t2 r.
  destruct (calcKelem_parts _ _ Hc H)
    as (pr & nn1 & nn2 & p1 & p2 & nz & _ & _ & _ & _ & HK & HA & HT & HE).
  cbv zeta in HK, HA, HT.
  rewrite (@sum_upto_ext 12 _
             (fun k => mmul (mmul (AelemT st') (Klocal st')) (Aelem st') r k *
                       global_translation t0 t1 t2 (Z.of_nat k))).
  2:{ intros k _. now rewrite HE. }
  rewrite triple_product_vector.
  rewrite (@sum_upto_ext 12 _ (fun _ => 0)); [apply sum_upto_zero|].
  intros a _.
  match goal with |- _ * ?s = 0 => assert (Hs : s = 0); [|rewrite Hs; ring] end.
  set (nx := Vector3d_ops.normalized (Vector3d_ops.sub p2 p1)) in *.
  set (ny := Vector3d_ops.normalized (normal_vec pr)) in *.
  rewrite (@sum_upto_ext 12 _
             (fun b => Klocal st' a b *
                (match b with
                 | 0%nat | 6%nat => vx nx * t0 + vy nx * t1 + vz nx * t2
                 | 1%nat | 7%nat => vx ny * t0 + vy ny * t1 + vz ny * t2
                 | 2%nat | 8%nat => vx nz * t0 + vy nz * t1 + vz nz * t2
                 | _ => 0
                 end))).
  2:{ intros b Hb. f_equal.
      rewrite (@sum_upto_ext 12 _
                 (fun k => spec_rotation nx ny nz b k *
                           match k with
                           | 0%nat | 6%nat => t0
                           | 1%nat | 7%nat => t1
                           | 2%nat | 8%nat => t2
                           | _ => 0
                           end)).
      2:{ intros k Hk. now rewrite HA, global_translation_local. }
      cbn [sum_upto]. split12 b; try lia; run_rotation; ring. }
  rewrite (@sum_upto_ext 12 _
             (fun b => spec_Klocal (EA pr / norm p1 p2) (GJ pr / norm p1 p2)
                         (12 * EIz pr / (norm p1 p2 * norm p1 p2 * norm p1 p2))
                         (6 * EIz pr / (norm p1 p2 * norm p1 p2)) (EIz pr / norm p1 p2)
                         (12 * EIy pr / (norm p1 p2 * norm p1 p2 * norm p1 p2))
                         (6 * EIy pr / (norm p1 p2 * norm p1 p2)) (EIy pr / norm p1 p2)
                         a b *
                (match b with
                 | 0%nat | 6%nat => vx nx * t0 + vy nx * t1 + vz nx * t2
                 | 1%nat | 7%nat => vx ny * t0 + vy ny * t1 + vz ny * t2
                 | 2%nat | 8%nat => vx nz * t0 + vy nz * t1 + vz nz * t2
                 | _ => 0
                 end))).
  2:{ intros b _. now rewrite HK. }
  cbn [sum_upto]. split12 a; cbv [spec_Klocal]; ring.
Qed.

Lemma calcKelem_translation_invariant_witness :
  regular_element JOB_SKEW_NORMAL 0 /\
  exists st',
    calcKelem GlobalStiffAssembler_new 0 JOB_SKEW_NORMAL = Some st' /\
    forall t0 t1 t2 r,
      sum_upto 12 (fun k => Kelem st' r k *
                            global_translation t0 t1 t2 (Z.of_nat k)) = 0.
Proof.
  split; [exact JOB_SKEW_NORMAL_regular|].
  eexists. split; [reflexivity|].
  exact (@calcKelem_translation_invariant GlobalStiffAssembler_new 0%nat JOB_SKEW_NORMAL _
           clean_new JOB_SKEW_NORMAL_regular eq_refl).
Defined.

(** ** Symmetry of the assembled system *)

Lemma scattered_sum_symmetric (K : LocalMatrix) (n1 n2 I J : Z) :
  (forall r c, K r c = K c r) ->
  scattered_sum K n1 n2 I J = scattered_sum K n1 n2 J I.
Proof.
  intros HK. unfold scattered_sum. rewrite sum_upto_swap.
  apply sum_upto_ext. intros r _. apply sum_upto_ext. intros c _.
  rewrite andb_comm, (HK c r). reflexivity.
Qed.

Lemma element_matrix_symmetric (job : Job) (i : nat) r c :
  element_matrix job i r c = element_matrix job i c r.
Proof.
  unfold element_matrix.
  destruct (calcKelem GlobalStiffAssembler_new i job) as [st'|] eqn:E; [|reflexivity].
  destruct (calcKelem_parts _ _ clean_new E)
    as (pr & nn1 & nn2 & p1 & p2 & nz & _ & _ & _ & _ & HK & HA & HT & HE).
  cbv zeta in HK, HA, HT.
  rewrite !HE. apply congruence_symmetric.
  - intros a b. now rewrite HT, HA.
  - intros a b. rewrite !HK. apply spec_Klocal_symmetric.
Qed.

Lemma triplet_sum_flat_map_symmetric {A : Type} (f : A -> list Triplet) (l : list A) I J :
  (forall x, triplet_sum (f x) I J = triplet_sum (f x) J I) ->
  triplet_sum (flat_map f l) I J = triplet_sum (flat_map f l) J I.
Proof.
  intros H. induction l as [|x l IH]; [reflexivity|].
  cbn [flat_map]. now rewrite !triplet_sum_app, H, IH.
Qed.

Lemma tie_triplets_symmetric (tie : Tie) (j I J : Z) :
  triplet_sum (tie_triplets_dof tie j) I J = triplet_sum (tie_triplets_dof tie j) J I.
Proof.
  unfold tie_triplets_dof, Triplet_of_unsigned. cbn [triplet_sum].
  unfold at_coord. cbn [t_row t_col t_value].
  destruct (UInt.to_int (UInt.add (UInt.mul NUM_DOFS (node_number_1 tie)) j) =? I)%Z;
    destruct (UInt.to_int (UInt.add (UInt.mul NUM_DOFS (node_number_1 tie)) j) =? J)%Z;
    destruct (UInt.to_int (UInt.add (UInt.mul NUM_DOFS (node_number_2 tie)) j) =? I)%Z;
    destruct (UInt.to_int (UInt.add (UInt.mul NUM_DOFS (node_number_2 tie)) j) =? J)%Z;
    cbn [andb]; ring.
Qed.

Lemma loadTies_symmetric (ties : list Tie) (I J : Z) :
  triplet_sum (loadTies [] ties) I J = triplet_sum (loadTies [] ties) J I.
Proof.
  unfold loadTies. cbn [app].
  apply triplet_sum_flat_map_symmetric. intros tie.
  apply triplet_sum_flat_map_symmetric. intros j.
  apply tie_triplets_symmetric.
Qed.

(** X6. The matrix [operator()] assembles from a valid job of regular
    elements and valid ties is symmetric. *)
Theorem assemble_symmetric :
  forall st Kg job ties,
    clean st ->
    valid_input job [] [] ties ->
    regular_job job ->
    (6 * Z.of_nat (length (nodes job)) <= rows Kg)%Z ->
    (6 * Z.of_nat (length (nodes job)) <= cols Kg)%Z ->
    exists st' Kg',
      assemble st Kg job ties = Some (st', Kg') /\
      forall I J, coeff Kg' I J = coeff Kg' J I.
Proof.
  intros st Kg job ties Hc Hv _ Hr Hcl.
  destruct (assemble_result Kg Hc Hv Hr Hcl) as (st' & Kg' & Ea & _ & _ & _ & Hco).
  exists st', Kg'. split; [exact Ea|].
  intros I J. rewrite !Hco. f_equal; [|apply loadTies_symmetric].
  apply sum_upto_ext. intros i _. unfold element_contribution.
  destruct (nth_error (elems job) i) as [[n1 n2]|]; [|reflexivity].
  apply scattered_sum_symmetric. intros r c. apply element_matrix_symmetric.
Qed.

Lemma assemble_symmetric_witness :
  let job := JOB_L_BRACKET in
  let ties := [mkTie 1 2 100 100] in
  let Kg := mkSparse 24 24 [] in
  valid_input job [] [] ties /\
  regular_job job /\
  exists st' Kg',
    assemble GlobalStiffAssembler_new Kg job ties = Some (st', Kg') /\
    forall I J, coeff Kg' I J = coeff Kg' J I.
Proof.
  intros job ties Kg.
  assert (Hv : valid_input job [] [] ties).
  { split; cbn; unfold valid_node, valid_dof, UInt.INT_MAX; cbn;
      repeat constructor; cbn; lia. }
  split; [exact Hv|]. split; [exact JOB_L_BRACKET_regular|].
  apply (@assemble_symmetric GlobalStiffAssembler_new Kg job ties clean_new Hv
           JOB_L_BRACKET_regular);
    cbn; lia.
Defined.

Lemma bc_coefficients_symmetric (g : Z) BCs : forall i I J,
  triplet_sum (bc_coefficients g i BCs) I J = triplet_sum (bc_coefficients g i BCs) J I.
Proof.
  induction BCs as [|bc rest IH]; intros i I J; [reflexivity|].
  cbn [bc_coefficients triplet_sum]. rewrite (IH (S i) I J).
  unfold at_coord. cbn [t_row t_col t_value].
  destruct (dof_index (bc_node bc) (bc_dof bc) =? I)%Z;
    destruct (dof_index (bc_node bc) (bc_dof bc) =? J)%Z;
    destruct (g + Z.of_nat i =? I)%Z; destruct (g + Z.of_nat i =? J)%Z;
    cbn [andb]; ring.
Qed.

(** X7. [loadBCs] keeps a symmetric matrix symmetric: the two coefficients of
    a boundary condition are stored at mirrored places, whatever the list
    of boundary conditions holds. *)
Theorem loadBCs_keeps_symmetry :
  forall Kg fv BCs n Kg' fv',
    loadBCs Kg fv BCs n = Some (Kg', fv') ->
    (forall I J, coeff Kg I J = coeff Kg J I) ->
    forall I J, coeff Kg' I J = coeff Kg' J I.
Proof.
  intros Kg fv BCs n Kg' fv' H Hs I J. unfold loadBCs in H.
  apply loadBCs_loop_stored in H. destruct H as (_ & _ & _ & _ & HK & _).
  unfold coeff in *. rewrite HK, !triplet_sum_app, (Hs I J).
  f_equal. apply bc_coefficients_symmetric.
Qed.

Lemma loadBCs_keeps_symmetry_witness :
  let Kg := mkSparse 14 14 [mkTriplet 0 0 5] in
  let fv := mkSparse 14 1 [] in
  let BCs := [mkBC 0 0 0; mkBC 0 0 1] in
  (forall I J, coeff Kg I J = coeff Kg J I) /\
  exists Kg' fv',
    loadBCs Kg fv BCs 2 = Some (Kg', fv') /\
    forall I J, coeff Kg' I J = coeff Kg' J I.
Proof.
  intros Kg fv BCs.
  assert (Hs : forall I J, coeff Kg I J = coeff Kg J I).
  { intros I J. unfold coeff, Kg. cbn [stored triplet_sum]. unfold at_coord.
    cbn [t_row t_col]. now rewrite andb_comm. }
  split; [exact Hs|].
  destruct (@loadBCs_loop_succeeds BCs 0%nat Kg fv 12%Z) as (Kg' & fv' & E);
    try (unfold Kg, fv, BCs; cbn; lia).
  { repeat (constructor; [vm_compute; split; [discriminate | reflexivity]|]).
    constructor. }
  exists Kg', fv'. split; [exact E|].
  exact (@loadBCs_keeps_symmetry Kg fv BCs 2%Z Kg' fv' E Hs).
Defined.

(** ** Ties and translations of the whole structure *)

(** X8. A tie whose two node numbers are the same adds nothing to any
    coefficient: its four triplets per degree of freedom cancel. *)
Theorem loadTies_same_node_adds_nothing :
  forall ts ties I J,
    Forall (fun t => node_number_1 t = node_number_2 t) ties ->
    triplet_sum (loadTies ts ties) I J = triplet_sum ts I J.
Proof.
  intros ts ties I J H. unfold loadTies. rewrite triplet_sum_app.
  match goal with |- _ + ?s = _ => assert (E : s = 0); [|rewrite E; ring] end.
  induction H as [|tie ties Htie _ IH]; [reflexivity|].
  cbn [flat_map]. rewrite triplet_sum_app, IH.
  match goal with |- ?s + 0 = 0 => assert (E : s = 0); [|rewrite E; ring] end.
  assert (Hj : forall j, triplet_sum (tie_triplets_dof tie j) I J = 0).
  { intros j. unfold tie_triplets_dof. rewrite <- Htie. cbn [triplet_sum].
    unfold Triplet_of_unsigned, at_coord. cbn [t_row t_col t_value].
    match goal with |- context [if ?b then _ else _] => destruct b end; ring. }
  unfold dof_range. cbn [flat_map]. rewrite !triplet_sum_app, !Hj.
  cbn [triplet_sum]. ring.
Qed.

Lemma loadTies_same_node_adds_nothing_witness :
  let ties := [mkTie 1 1 100 7; mkTie 0 0 3 3] in
  let ts := [mkTriplet 6 6 2] in
  Forall (fun t => node_number_1 t = node_number_2 t) ties /\
  forall I J, triplet_sum (loadTies ts ties) I J = triplet_sum ts I J.
Proof.
  intros ties ts.
  assert (H : Forall (fun t => node_number_1 t = node_number_2 t) ties)
    by (repeat constructor).
  split; [exact H|].
  intros I J. exact (@loadTies_same_node_adds_nothing ts ties I J H).
Defined.

Lemma weighted_row_sum_app ts1 ts2 i w :
  weighted_row_sum (ts1 ++ ts2) i w = weighted_row_sum ts1 i w + weighted_row_sum ts2 i w.
Proof.
  induction ts1 as [|t ts1 IH]; cbn [app weighted_row_sum]; [ring|].
  rewrite IH. ring.
Qed.

Lemma tie_translation (job : Job) (tie : Tie) (j I : Z) t0 t1 t2 :
  valid_node job (node_number_1 tie) -> valid_node job (node_number_2 tie) ->
  (6 * Z.of_nat (length (nodes job)) <= UInt.INT_MAX)%Z ->
  (0 <= j < 6)%Z ->
  weighted_row_sum (tie_triplets_dof tie j) I (global_translation t0 t1 t2) = 0.
Proof.
  intros H1 H2 Hs Hj. unfold valid_node in *.
  unfold tie_triplets_dof, Triplet_of_unsigned.
  rewrite !to_int_add_mul by (unfold NUM_DOFS; lia).
  unfold NUM_DOFS. cbn [weighted_row_sum t_row t_col t_value].
  rewrite !global_translation_shift.
  destruct (6 * node_number_1 tie + j =? I)%Z;
    destruct (6 * node_number_2 tie + j =? I)%Z; ring.
Qed.

Lemma loadTies_translation (job : Job) (ties : list Tie) (I : Z) t0 t1 t2 :
  Forall (fun t => valid_node job (node_number_1 t) /\
                   valid_node job (node_number_2 t)) ties ->
  (6 * Z.of_nat (length (nodes job)) <= UInt.INT_MAX)%Z ->
  weighted_row_sum (loadTies [] ties) I (global_translation t0 t1 t2) = 0.
Proof.
  intros Hv Hs. unfold loadTies. cbn [app].
  induction Hv as [|tie ties [H1 H2] _ IH]; [reflexivity|].
  cbn [flat_map]. rewrite weighted_row_sum_app, IH.
  unfold dof_range. cbn [flat_map]. rewrite !weighted_row_sum_app.
  rewrite !(@tie_translation job tie) by (assumption || lia).
  cbn [weighted_row_sum]. ring.
Qed.

Lemma scattered_translation (K : LocalMatrix) (n1 n2 : Z) (N : nat) (I : Z) t0 t1 t2 :
  (0 <= n1 < Z.of_nat N)%Z -> (0 <= n2 < Z.of_nat N)%Z ->
  (forall r, sum_upto 12 (fun c => K r c * global_translation t0 t1 t2 (Z.of_nat c)) = 0) ->
  sum_upto (6 * N)
    (fun J => scattered_sum K n1 n2 I (Z.of_nat J) *
              global_translation t0 t1 t2 (Z.of_nat J)) = 0.
Proof.
  intros H1 H2 HK. unfold scattered_sum.
  set (T := global_translation t0 t1 t2).
  rewrite (@sum_upto_ext (6 * N) _
             (fun J => sum_upto 12 (fun r => sum_upto 12 (fun c =>
                (if ((spec_scatter_index n1 n2 r =? I) &&
                     (spec_scatter_index n1 n2 c =? Z.of_nat J))%Z
                 then K r c else 0) * T (Z.of_nat J))))).
  2:{ intros J _. rewrite <- sum_upto_scale_r. apply sum_upto_ext. intros r _.
      now rewrite <- sum_upto_scale_r. }
  rewrite sum_upto_swap.
  rewrite (@sum_upto_ext 12 _ (fun _ => 0)); [apply sum_upto_zero|].
  intros r Hr. rewrite sum_upto_swap.
  rewrite (@sum_upto_ext 12 _
             (fun c => if (spec_scatter_index n1 n2 r =? I)%Z
                       then K r c * T (Z.of_nat c) else 0)).
  - destruct (spec_scatter_index n1 n2 r =? I)%Z; [apply HK|apply sum_upto_zero].
  - intros c Hc.
    pose proof (@spec_scatter_index_bounds n1 n2 (Z.of_nat N) c H1 H2 Hc) as Hb.
    rewrite (@sum_upto_ext (6 * N) _
               (fun J => if (J =? Z.to_nat (spec_scatter_index n1 n2 c))%nat
                         then (if (spec_scatter_index n1 n2 r =? I)%Z
                               then K r c * T (spec_scatter_index n1 n2 c) else 0)
                         else 0)).
    + rewrite sum_upto_single.
      replace (Z.to_nat (spec_scatter_index n1 n2 c) <? 6 * N)%nat with true
        by (symmetry; apply Nat.ltb_lt; lia).
      destruct (spec_scatter_index n1 n2 r =? I)%Z; [|reflexivity].
      f_equal. unfold spec_scatter_index, T.
      destruct (Nat.ltb_spec c 6).
      * apply global_translation_shift.
      * rewrite global_translation_shift.
        replace (Z.of_nat c) with (6 * 1 + (Z.of_nat c - 6))%Z at 2 by lia.
        now rewrite global_translation_shift.
    + intros J _.
      destruct (Nat.eqb_spec J (Z.to_nat (spec_scatter_index n1 n2 c))) as [->|Hne].
      * rewrite Z2Nat.id by lia. rewrite Z.eqb_refl, andb_true_r.
        destruct (spec_scatter_index n1 n2 r =? I)%Z; ring.
      * replace (spec_scatter_index n1 n2 c =? Z.of_nat J)%Z with false
          by (symmetry; apply Z.eqb_neq; lia).
        rewrite andb_false_r. ring.
Qed.

Lemma element_matrix_translation (job : Job) (i : nat) t0 t1 t2 r :
  sum_upto 12 (fun c => element_matrix job i r c *
                        global_translation t0 t1 t2 (Z.of_nat c)) = 0.
Proof.
  unfold element_matrix.
  destruct (calcKelem GlobalStiffAssembler_new i job) as [st'|] eqn:E.
  - destruct (calcKelem_parts _ _ clean_new E)
      as (pr & nn1 & nn2 & p1 & p2 & nz & _ & _ & _ & _ & HK & HA & HT & HE).
    cbv zeta in HK, HA, HT.
    rewrite (@sum_upto_ext 12 _
               (fun k => mmul (mmul (AelemT st') (Klocal st')) (Aelem st') r k *
                         global_translation t0 t1 t2 (Z.of_nat k))).
    2:{ intros k _. now rewrite HE. }
    rewrite triple_product_vector.
    rewrite (@sum_upto_ext 12 _ (fun _ => 0)); [apply sum_upto_zero|].
    intros a _.
    match goal with |- _ * ?s = 0 => assert (Hs : s = 0); [|rewrite Hs; ring] end.
    set (nx := Vector3d_ops.normalized (Vector3d_ops.sub p2 p1)) in *.
    set (ny := Vector3d_ops.normalized (normal_vec pr)) in *.
    rewrite (@sum_upto_ext 12 _
               (fun b => Klocal st' a b *
                  (match b with
                   | 0%nat | 6%nat => vx nx * t0 + vy nx * t1 + vz nx * t2
                   | 1%nat | 7%nat => vx ny * t0 + vy ny * t1 + vz ny * t2
                   | 2%nat | 8%nat => vx nz * t0 + vy nz * t1 + vz nz * t2
                   | _ => 0
                   end))).
    2:{ intros b Hb. f_equal.
        rewrite (@sum_upto_ext 12 _
                   (fun k => spec_rotation nx ny nz b k *
                             match k with
                             | 0%nat | 6%nat => t0
                             | 1%nat | 7%nat => t1
                             | 2%nat | 8%nat => t2
                             | _ => 0
                             end)).
        2:{ intros k Hk. now rewrite HA, global_translation_local. }
        cbn [sum_upto]. split12 b; try lia; run_rotation; ring. }
    rewrite (@sum_upto_ext 12 _
               (fun b => spec_Klocal (EA pr / norm p1 p2) (GJ pr / norm p1 p2)
                           (12 * EIz pr / (norm p1 p2 * norm p1 p2 * norm p1 p2))
                           (6 * EIz pr / (norm p1 p2 * norm p1 p2)) (EIz pr / norm p1 p2)
                           (12 * EIy pr / (norm p1 p2 * norm p1 p2 * norm p1 p2))
                           (6 * EIy pr / (norm p1 p2 * norm p1 p2)) (EIy pr / norm p1 p2)
                           a b *
                  (match b with
                   | 0%nat | 6%nat => vx nx * t0 + vy nx * t1 + vz nx * t2
                   | 1%nat | 7%nat => vx ny * t0 + vy ny * t1 + vz ny * t2
                   | 2%nat | 8%nat => vx nz * t0 + vy nz * t1 + vz nz * t2
                   | _ => 0
                   end))).
    2:{ intros b _. now rewrite HK. }
    cbn [sum_upto]. split12 a; cbv [spec_Klocal]; ring.
  - rewrite (@sum_upto_ext 12 _ (fun _ => 0)); [apply sum_upto_zero|].
    intros c _. unfold setZero. ring.
Qed.

(** X9. Translation of the whole structure: for a valid job of regular
    elements and valid ties, the assembled matrix applied to a column that
    moves every node by the same (t0, t1, t2) and turns none gives zero in
    every row, for all elements and ties together. *)
Theorem assemble_translation_invariant :
  forall st Kg job ties,
    clean st ->
    valid_input job [] [] ties ->
    regular_job job ->
    (6 * Z.of_nat (length (nodes job)) <= rows Kg)%Z ->
    (6 * Z.of_nat (length (nodes job)) <= cols Kg)%Z ->
    exists st' Kg',
      assemble st Kg job ties = Some (st', Kg') /\
      forall t0 t1 t2 I,
        sum_upto (6 * length (nodes job))
          (fun J => coeff Kg' I (Z.of_nat J) *
                    global_translation t0 t1 t2 (Z.of_nat J)) = 0.
Proof.
  intros st Kg job ties Hc Hv _ Hr Hcl.
  destruct (assemble_result Kg Hc Hv Hr Hcl) as (st' & Kg' & Ea & _ & _ & _ & Hco).
  exists st', Kg'. split; [exact Ea|].
  intros t0 t1 t2 I. destruct Hv as [_ He _ _ Ht Hs]. cbn [length] in Hs.
  set (n := length (nodes job)) in *.
  rewrite (@sum_upto_ext (6 * n) _
             (fun J => sum_upto (length (elems job))
                         (fun i => element_contribution job i I (Z.of_nat J) *
                                   global_translation t0 t1 t2 (Z.of_nat J))
                       + triplet_sum (loadTies [] ties) I (Z.of_nat J) *
                         global_translation t0 t1 t2 (Z.of_nat J))).
  2:{ intros J _. rewrite Hco, Rmult_plus_distr_r. f_equal.
      now rewrite sum_upto_scale_r. }
  rewrite sum_upto_plus, sum_upto_swap.
  rewrite (@sum_upto_ext (length (elems job)) _ (fun _ => 0)).
  - rewrite sum_upto_zero.
    rewrite <- (@weighted_row_sum_dense (loadTies [] ties) I
                  (global_translation t0 t1 t2) (6 * n)).
    + rewrite (@loadTies_translation job ties I t0 t1 t2 Ht) by (fold n; lia). ring.
    + pose proof (@loadTies_in_range job ties Ht ltac:(fold n; lia)) as Hin.
      eapply Forall_impl; [|exact Hin]. cbv beta. intros t Hin'.
      apply in_range_iff in Hin'. fold n in Hin'. lia.
  - intros i Hi. unfold element_contribution.
    destruct (nth_error (elems job) i) as [[n1 n2]|] eqn:Ee.
    + rewrite Forall_forall in He.
      destruct (He (n1, n2) (nth_error_In _ _ Ee)) as [H1 H2].
      cbn [fst snd] in H1, H2. unfold valid_node in H1, H2. fold n in H1, H2.
      apply scattered_translation; try assumption.
      intros r. apply element_matrix_translation.
    + rewrite (@sum_upto_ext (6 * n) _ (fun _ => 0)); [apply sum_upto_zero|].
      intros; ring.
Qed.

Lemma assemble_translation_invariant_witness :
  let job := JOB_L_BRACKET in
  let ties := [mkTie 1 2 100 100] in
  let Kg := mkSparse 24 24 [] in
  valid_input job [] [] ties /\
  regular_job job /\
  exists st' Kg',
    assemble GlobalStiffAssembler_new Kg job ties = Some (st', Kg') /\
    forall t0 t1 t2 I,
      sum_upto (6 * length (nodes job))
        (fun J => coeff Kg' I (Z.of_nat J) *
                  global_translation t0 t1 t2 (Z.of_nat J)) = 0.
Proof.
  intros job ties Kg.
  assert (Hv : valid_input job [] [] ties).
  { split; cbn; unfold valid_node, valid_dof, UInt.INT_MAX; cbn;
      repeat constructor; cbn; lia. }
  split; [exact Hv|]. split; [exact JOB_L_BRACKET_regular|].
  apply (@assemble_translation_invariant GlobalStiffAssembler_new Kg job ties clean_new Hv
           JOB_L_BRACKET_regular);
    cbn; lia.
Defined.

(** ** The whole system [solve] hands to the solver *)

(** What [Kg] and [force_vec] store when [solve] calls the solver: the
    assembled coefficients followed by those of [loadBCs]; the right-hand
    sides of [loadBCs] followed by the forces. *)
Lemma build_system_stored job BCs forces ties :
  valid_input job BCs forces ties ->
  let N := Z.of_nat (length (nodes job)) in
  exists Kg1 Kg fv,
    build_system job BCs forces ties = Some (Kg, fv) /\
    stored Kg = stored Kg1 ++ bc_coefficients (6 * N) 0 BCs /\
    Forall (fun t => in_range (6 * N) (6 * N) t = true) (stored Kg1) /\
    (forall I J,
       coeff Kg1 I J =
       sum_upto (length (elems job)) (fun i => element_contribution job i I J)
       + triplet_sum (loadTies [] ties) I J) /\
    stored fv =
    bc_rhs (6 * N) 0 BCs ++
    map (fun f => mkTriplet (dof_index (f_node f) (f_dof f)) 0 (f_value f)) forces.
Proof.
  intros Hv N. pose proof Hv as [Hp He HB HF Ht Hs]. fold N in Hs.
  assert (HN : (0 <= N)%Z) by (unfold N; lia).
  set (size := (6 * N + Z.of_nat (length BCs))%Z).
  unfold build_system. cbv zeta. fold N.
  change (NUM_DOFS * N + Z.of_nat (length BCs))%Z with size.
  rewrite to_int_small by (unfold size; lia).
  unfold SparseMat_new.
  replace ((0 <=? size) && (0 <=? size))%Z with true
    by (symmetry; apply andb_true_iff; split; apply Z.leb_le; unfold size; lia).
  replace ((0 <=? size) && (0 <=? 1))%Z with true
    by (symmetry; apply andb_true_iff; split; apply Z.leb_le; unfold size; lia).
  destruct (@assemble_result GlobalStiffAssembler_new (mkSparse size size []) job ties
              clean_new (valid_input_no_loads Hv))
    as (st' & Kg1 & Ea & Hr1 & Hc1 & Hin1 & Hco1);
    try (cbn [rows cols]; fold N; unfold size; lia).
  rewrite Ea. cbn [rows cols] in Hr1, Hc1. fold N in Hin1.
  assert (Hw : UInt.wrap N = N).
  { apply wrap_small. unfold UInt.INT_MAX, UInt.modulus in *. lia. }
  fold N. rewrite Hw.
  assert (Hg : UInt.mul NUM_DOFS N = (6 * N)%Z).
  { apply uint_mul_small; unfold UInt.INT_MAX, UInt.modulus in *; lia. }
  assert (HBi := @valid_BCs_indices N BCs HN ltac:(lia) HB).
  destruct (@loadBCs_loop_succeeds BCs 0%nat Kg1 (mkSparse size 1 []) (6 * N)%Z)
    as (Kg2 & fv2 & E2); try (cbn [rows cols]; unfold size; lia).
  { eapply Forall_impl; [|exact HBi]. cbv beta. tauto. }
  assert (EB : loadBCs Kg1 (mkSparse size 1 []) BCs N = Some (Kg2, fv2)).
  { unfold loadBCs. now rewrite Hg. }
  rewrite EB.
  apply loadBCs_loop_stored in E2. cbn [rows cols stored] in E2.
  destruct E2 as (Hr2 & Hc2 & Hfr & Hfc & HK2 & Hf2). cbn [app] in Hf2.
  assert (HFi : Forall (fun f => (0 <= dof_index (f_node f) (f_dof f) < rows fv2)%Z) forces).
  { eapply Forall_impl; [|exact HF]. cbv beta. intros f [H1 H2].
    unfold valid_node, valid_dof in *. fold N in H1.
    rewrite dof_index_small by (unfold UInt.INT_MAX, UInt.modulus in *; lia).
    rewrite Hfr. unfold size. lia. }
  destruct (@loadForces_succeeds forces fv2 ltac:(lia) HFi) as [fv3 E3].
  destruct forces as [|f0 forces'].
  - cbn [length Nat.ltb Nat.leb]. exists Kg1, Kg2, fv2.
    cbn [map]. rewrite app_nil_r. auto.
  - change (0 <? length (f0 :: forces'))%nat with true. cbv iota.
    rewrite E3. apply loadForces_stored in E3. destruct E3 as (_ & _ & Hf3).
    exists Kg1, Kg2, fv3. rewrite Hf3, Hf2. auto.
Qed.

(** X10. For a valid input with regular elements, the matrix handed to the
    solver, Lagrange rows and columns included, is symmetric. *)
Theorem build_system_symmetric :
  forall job BCs forces ties,
    valid_input job BCs forces ties ->
    regular_job job ->
    exists Kg fv,
      build_system job BCs forces ties = Some (Kg, fv) /\
      forall I J, coeff Kg I J = coeff Kg J I.
Proof.
  intros job BCs forces ties Hv _.
  destruct (build_system_stored Hv) as (Kg1 & Kg & fv & E & HK & _ & Hco & _).
  exists Kg, fv. split; [exact E|].
  intros I J. unfold coeff. rewrite HK, !triplet_sum_app.
  f_equal; [|apply bc_coefficients_symmetric].
  fold (coeff Kg1 I J). fold (coeff Kg1 J I). rewrite !Hco.
  f_equal; [|apply loadTies_symmetric].
  apply sum_upto_ext. intros i _. unfold element_contribution.
  destruct (nth_error (elems job) i) as [[n1 n2]|]; [|reflexivity].
  apply scattered_sum_symmetric. intros r c. apply element_matrix_symmetric.
Qed.

Lemma build_system_symmetric_witness :
  let job := JOB_L_BRACKET in
  let BCs := BCS_L_BRACKET in
  let forces := [mkForce 3 0 (1 / 10)] in
  let ties := [mkTie 1 2 100 100] in
  valid_input job BCs forces ties /\
  regular_job job /\
  exists Kg fv,
    build_system job BCs forces ties = Some (Kg, fv) /\
    forall I J, coeff Kg I J = coeff Kg J I.
Proof.
  intros job BCs forces ties.
  assert (Hv : valid_input job BCs forces ties).
  { split; cbn; unfold valid_node, valid_dof, UInt.INT_MAX; cbn;
      repeat (constructor; [cbn; lia|]); try constructor; lia. }
  split; [exact Hv|]. split; [exact JOB_L_BRACKET_regular|].
  exact (@build_system_symmetric job BCs forces ties Hv JOB_L_BRACKET_regular).
Defined.

Lemma bc_coefficients_row_later (g : Z) BCs : forall i1 a J,
  (g <= a < g + Z.of_nat i1)%Z ->
  Forall (fun bc => (0 <= dof_index (bc_node bc) (bc_dof bc) < g)%Z) BCs ->
  triplet_sum (bc_coefficients g i1 BCs) a J = 0.
Proof.
  induction BCs as [|bc rest IH]; intros i1 a J Ha Hv; [reflexivity|].
  inversion Hv as [|? ? Hb Hv']; subst.
  cbn [bc_coefficients triplet_sum].
  rewrite !at_coord_false by lia.
  rewrite (IH (S i1) a J) by (assumption || lia). ring.
Qed.

Lemma bc_coefficients_row (g : Z) BCs : forall i0 i bc J,
  Forall (fun bc => (0 <= dof_index (bc_node bc) (bc_dof bc) < g)%Z) BCs ->
  nth_error BCs i = Some bc ->
  triplet_sum (bc_coefficients g i0 BCs) (g + Z.of_nat (i0 + i)) J =
  if (J =? dof_index (bc_node bc) (bc_dof bc))%Z then 1 else 0.
Proof.
  induction BCs as [|bc0 rest IH]; intros i0 i bc J Hv Hn; [now destruct i|].
  inversion Hv as [|? ? Hb0 Hv']; subst.
  cbn [bc_coefficients triplet_sum].
  destruct i as [|i].
  - cbn [nth_error] in Hn. injection Hn as ->. rewrite Nat.add_0_r.
    rewrite (@at_coord_false _ _ (dof_index (bc_node bc) (bc_dof bc))) by lia.
    rewrite (@bc_coefficients_row_later g rest (S i0)) by (assumption || lia).
    unfold at_coord. cbn [t_row t_col t_value]. rewrite Z.eqb_refl. cbn [andb].
    rewrite (Z.eqb_sym J).
    destruct (dof_index (bc_node bc) (bc_dof bc) =? J)%Z; ring.
  - cbn [nth_error] in Hn.
    assert (Hb : (0 <= dof_index (bc_node bc) (bc_dof bc) < g)%Z).
    { rewrite Forall_forall in Hv'. apply Hv'. eapply nth_error_In; eassumption. }
    rewrite !at_coord_false by lia.
    replace (i0 + S i)%nat with (S i0 + i)%nat by lia.
    rewrite (IH (S i0) i bc J Hv' Hn). ring.
Qed.

(** X11. In the system handed to the solver, the row and the column of the
    boundary condition of index [i] hold the coefficient 1 at the degree
    of freedom it prescribes and 0 everywhere else, the block shared with
    the other boundary conditions included. *)
Theorem build_system_constraint_rows :
  forall job BCs forces ties,
    valid_input job BCs forces ties ->
    exists Kg fv,
      build_system job BCs forces ties = Some (Kg, fv) /\
      forall i bc J,
        nth_error BCs i = Some bc ->
        let M := (6 * Z.of_nat (length (nodes job)))%Z in
        let v := if (J =? 6 * bc_node bc + bc_dof bc)%Z then 1 else 0 in
        coeff Kg (M + Z.of_nat i) J = v /\ coeff Kg J (M + Z.of_nat i) = v.
Proof.
  intros job BCs forces ties Hv.
  destruct (build_system_stored Hv) as (Kg1 & Kg & fv & E & HK & Hin & _ & _).
  exists Kg, fv. split; [exact E|].
  intros i bc J Hi. cbv zeta.
  destruct Hv as [_ _ HB _ _ Hs].
  set (N := Z.of_nat (length (nodes job))) in *.
  assert (HN : (0 <= N)%Z) by (unfold N; lia).
  assert (HBi := @valid_BCs_indices N BCs HN ltac:(lia) HB).
  assert (Hb : Forall (fun bc => (0 <= dof_index (bc_node bc) (bc_dof bc) < 6 * N)%Z) BCs).
  { eapply Forall_impl; [|exact HBi]. cbv beta. tauto. }
  assert (Eb : dof_index (bc_node bc) (bc_dof bc) = (6 * bc_node bc + bc_dof bc)%Z).
  { rewrite Forall_forall in HBi. apply HBi. eapply nth_error_In; eassumption. }
  pose proof (@bc_coefficients_row (6 * N)%Z BCs 0%nat i bc J Hb Hi) as R.
  cbn [Nat.add] in R. rewrite Eb in R.
  unfold coeff. rewrite HK, !triplet_sum_app.
  rewrite (bc_coefficients_symmetric (6 * N) BCs 0 J), R.
  rewrite !(@triplet_sum_no_match _ _ (stored Kg1)).
  - split; ring.
  - eapply Forall_impl; [|exact Hin]. cbv beta. intros [r c v] Hrc.
    apply in_range_iff in Hrc. cbn [t_row t_col] in Hrc. apply at_coord_false. lia.
  - eapply Forall_impl; [|exact Hin]. cbv beta. intros [r c v] Hrc.
    apply in_range_iff in Hrc. cbn [t_row t_col] in Hrc. apply at_coord_false. lia.
Qed.

Lemma build_system_constraint_rows_witness :
  let job := JOB_L_BRACKET in
  let BCs := BCS_L_BRACKET in
  let forces := [mkForce 3 0 (1 / 10)] in
  let ties := @nil Tie in
  valid_input job BCs forces ties /\
  exists Kg fv,
    build_system job BCs forces ties = Some (Kg, fv) /\
    forall i bc J,
      nth_error BCs i = Some bc ->
      let M := (6 * Z.of_nat (length (nodes job)))%Z in
      let v := if (J =? 6 * bc_node bc + bc_dof bc)%Z then 1 else 0 in
      coeff Kg (M + Z.of_nat i) J = v /\ coeff Kg J (M + Z.of_nat i) = v.
Proof.
  intros job BCs forces ties.
  assert (Hv : valid_input job BCs forces ties).
  { split; cbn; unfold valid_node, valid_dof, UInt.INT_MAX; cbn;
      repeat (constructor; [cbn; lia|]); try constructor; lia. }
  split; [exact Hv|].
  exact (@build_system_constraint_rows job BCs forces ties Hv).
Defined.

(** X12. The right-hand side handed to the solver: at a degree of freedom of a
    node, the value of the last force given for it, and 0 when there is
    none; at the row of the boundary condition of index [i], its value
    when that is greater in magnitude than the machine epsilon, and 0
    otherwise. Forces never reach the rows of the boundary conditions. *)
Theorem build_system_right_hand_side :
  forall job BCs forces ties,
    valid_input job BCs forces ties ->
    exists Kg fv,
      build_system job BCs forces ties = Some (Kg, fv) /\
      (forall node dof,
         valid_node job node -> valid_dof dof ->
         denseCoeff fv (6 * node + dof) 0 =
         match last_force_at node dof forces with Some v => v | None => 0 end) /\
      (forall i bc,
         nth_error BCs i = Some bc ->
         denseCoeff fv (6 * Z.of_nat (length (nodes job)) + Z.of_nat i) 0 =
         if Rgt_dec (Rabs (bc_value bc)) DBL_EPSILON then bc_value bc else 0).
Proof.
  intros job BCs forces ties Hv.
  destruct (build_system_stored Hv) as (Kg1 & Kg & fv & E & _ & _ & _ & Hf).
  exists Kg, fv. split; [exact E|].
  destruct Hv as [_ _ _ HF _ Hs].
  set (N := Z.of_nat (length (nodes job))) in *.
  assert (HN : (0 <= N)%Z) by (unfold N; lia).
  split.
  - intros node dof Hnode Hdof. unfold valid_node in Hnode. fold N in Hnode.
    unfold denseCoeff. rewrite Hf, dense_fold_app.
    rewrite (@dense_fold_no_match _ _ (bc_rhs (6 * N) 0 BCs))
      by (apply bc_rhs_later; unfold valid_dof in Hdof; lia).
    exact (@dense_fold_forces N node dof forces 0 None HN ltac:(lia) Hnode Hdof HF).
  - intros i bc Hi. unfold denseCoeff. rewrite Hf, dense_fold_app.
    pose proof (@bc_rhs_dense (6 * N)%Z BCs 0%nat i bc 0 Hi) as D.
    cbn [Nat.add] in D. rewrite D.
    apply dense_fold_no_match.
    apply Forall_map. eapply Forall_impl; [|exact HF]. cbv beta.
    intros f [H1 H2]. unfold valid_node, valid_dof in *. fold N in H1.
    rewrite dof_index_small by (unfold UInt.INT_MAX, UInt.modulus in *; lia).
    apply at_coord_false. lia.
Qed.

Lemma build_system_right_hand_side_witness :
  let job := JOB_L_BRACKET in
  let BCs := BCS_L_BRACKET in
  let forces := [mkForce 3 0 (1 / 10); mkForce 2 1 5; mkForce 3 0 (1 / 5)] in
  let ties := @nil Tie in
  valid_input job BCs forces ties /\
  exists Kg fv,
    build_system job BCs forces ties = Some (Kg, fv) /\
    (forall node dof,
       valid_node job node -> valid_dof dof ->
       denseCoeff fv (6 * node + dof) 0 =
       match last_force_at node dof forces with Some v => v | None => 0 end) /\
    (forall i bc,
       nth_error BCs i = Some bc ->
       denseCoeff fv (6 * Z.of_nat (length (nodes job)) + Z.of_nat i) 0 =
       if Rgt_dec (Rabs (bc_value bc)) DBL_EPSILON then bc_value bc else 0).
Proof.
  intros job BCs forces ties.
  assert (Hv : valid_input job BCs forces ties).
  { split; cbn; unfold valid_node, valid_dof, UInt.INT_MAX; cbn;
      repeat (constructor; [cbn; lia|]); try constructor; lia. }
  split; [exact Hv|].
  exact (@build_system_right_hand_side job BCs forces ties Hv).
Defined.

(** ** Forces in the ties *)

Lemma all_some_map {A B : Type} (f : A -> option B) (g : A -> B) (l : list A) :
  (forall x, In x l -> f x = Some (g x)) -> all_some (map f l) = Some (map g l).
Proof.
  induction l as [|x l IH]; intros H; [reflexivity|].
  cbn [map all_some]. rewrite (H x (or_introl eq_refl)).
  rewrite IH by (intros y Hy; apply H; now right). reflexivity.
Qed.

Lemma at_index_nth {A : Type} (v : list A) (k : Z) (d : A) :
  (0 <= k < Z.of_nat (length v))%Z -> at_index v k = Some (nth (Z.to_nat k) v d).
Proof.
  intros Hk. unfold at_index. destruct (Z.ltb_spec k 0); [lia|].
  apply nth_error_nth'. lia.
Qed.

(** The table [computeTieForces] returns, row by row. *)
Lemma computeTieForces_value (ties : list Tie) (disp : list (list R)) :
  Forall (fun row => (6 <= length row)%nat) disp ->
  Forall (fun t => (0 <= node_number_1 t < Z.of_nat (length disp))%Z /\
                   (0 <= node_number_2 t < Z.of_nat (length disp))%Z) ties ->
  computeTieForces ties disp =
  Some (map (fun tie =>
          map (fun j => (if (j <? 3)%Z then lmult tie else rmult tie) *
                        (table_entry disp (Z.to_nat (node_number_2 tie)) j -
                         table_entry disp (Z.to_nat (node_number_1 tie)) j))
              dof_range) ties).
Proof.
  intros Hrows Hv. unfold computeTieForces. apply all_some_map.
  intros tie Hin. rewrite Forall_forall in Hv. destruct (Hv tie Hin) as [H1 H2].
  apply all_some_map. intros j Hj. cbv zeta.
  rewrite (@at_index_nth _ disp (node_number_1 tie) []) by assumption.
  rewrite (@at_index_nth _ disp (node_number_2 tie) []) by assumption.
  cbv iota.
  assert (Hlen : forall k, (0 <= k < Z.of_nat (length disp))%Z ->
                   (6 <= length (nth (Z.to_nat k) disp []))%nat).
  { intros k Hk. rewrite Forall_forall in Hrows. apply Hrows. apply nth_In. lia. }
  assert (Hj6 : (0 <= j < 6)%Z) by (cbv [dof_range In] in Hj; lia).
  pose proof (Hlen _ H1) as L1. pose proof (Hlen _ H2) as L2.
  rewrite (@at_index_nth _ (nth (Z.to_nat (node_number_1 tie)) disp []) j 0) by lia.
  rewrite (@at_index_nth _ (nth (Z.to_nat (node_number_2 tie)) disp []) j 0) by lia.
  reflexivity.
Qed.

Lemma tie_table_entry (F : Tie -> Z -> R) (ties : list Tie) (i : nat) (tie : Tie) (j : Z) :
  nth_error ties i = Some tie -> (0 <= j < 6)%Z ->
  table_entry (map (fun tie => map (F tie) dof_range) ties) i j = F tie j.
Proof.
  intros Hi Hj. unfold table_entry.
  assert (E : nth i (map (fun tie => map (F tie) dof_range) ties) [] =
              map (F tie) dof_range)
    by (apply nth_error_nth; now rewrite nth_error_map, Hi).
  rewrite E. clear E.
  unfold dof_range.
  assert (E : (j = 0 \/ j = 1 \/ j = 2 \/ j = 3 \/ j = 4 \/ j = 5)%Z) by lia.
  destruct E as [->|[->|[->|[->|[->| ->]]]]]; reflexivity.
Qed.

(** X13. [computeTieForces] returns one row of six forces per tie, in the order
    of the ties: the spring constant ([lmult] for the three translations,
    [rmult] for the three rotations) times the displacement of the second
    node less that of the first. *)
Theorem computeTieForces_entries :
  forall (ties : list Tie) (disp : list (list R)),
    Forall (fun row => (6 <= length row)%nat) disp ->
    Forall (fun t => (0 <= node_number_1 t < Z.of_nat (length disp))%Z /\
                     (0 <= node_number_2 t < Z.of_nat (length disp))%Z) ties ->
    exists tf,
      computeTieForces ties disp = Some tf /\
      length tf = length ties /\
      Forall (fun row => length row = 6%nat) tf /\
      forall i tie j,
        nth_error ties i = Some tie -> (0 <= j < 6)%Z ->
        table_entry tf i j =
        (if (j <? 3)%Z then lmult tie else rmult tie) *
        (table_entry disp (Z.to_nat (node_number_2 tie)) j -
         table_entry disp (Z.to_nat (node_number_1 tie)) j).
Proof.
  intros ties disp Hrows Hv. eexists. split; [now apply computeTieForces_value|].
  split; [now rewrite length_map|]. split.
  - apply Forall_map. apply Forall_forall. intros tie _. reflexivity.
  - intros i tie j Hi Hj.
    exact (@tie_table_entry
             (fun tie j => (if (j <? 3)%Z then lmult tie else rmult tie) *
                           (table_entry disp (Z.to_nat (node_number_2 tie)) j -
                            table_entry disp (Z.to_nat (node_number_1 tie)) j))
             ties i tie j Hi Hj).
Qed.

Lemma computeTieForces_entries_witness :
  let ties := [mkTie 0 1 100 7] in
  let disp := [[0; 0; 0; 0; 0; 0]; [1; 2; 3; 4; 5; 6]] in
  exists tf,
    computeTieForces ties disp = Some tf /\
    length tf = length ties /\
    Forall (fun row => length row = 6%nat) tf /\
    forall i tie j,
      nth_error ties i = Some tie -> (0 <= j < 6)%Z ->
      table_entry tf i j =
      (if (j <? 3)%Z then lmult tie else rmult tie) *
      (table_entry disp (Z.to_nat (node_number_2 tie)) j -
       table_entry disp (Z.to_nat (node_number_1 tie)) j).
Proof.
  intros ties disp.
  apply (@computeTieForces_entries ties disp).
  - repeat constructor.
  - repeat constructor; cbn; lia.
Defined.

(** What [solve] returns for a valid input, before the entries are read. *)
Lemma solve_summary (solver : SparseMat -> SparseMat -> Z -> R)
    job BCs forces ties options :
  valid_input job BCs forces ties ->
  exists s Kg fv,
    solve solver job BCs forces ties options = Some s /\
    build_system job BCs forces ties = Some (Kg, fv) /\
    rows Kg = (6 * Z.of_nat (length (nodes job)) + Z.of_nat (length BCs))%Z /\
    num_nodes s = length (nodes job) /\
    num_elems s = length (elems job) /\
    num_bcs s = length BCs /\
    num_ties s = length ties /\
    nodal_displacements s =
      reshape_rounded (epsilon options) (length (nodes job))
        (fun k => denseCoeff (sparseView_column (Z.to_nat (rows Kg)) (solver Kg fv)) k 0) /\
    (if (0 <? length ties)%nat then computeTieForces ties (nodal_displacements s)
     else Some []) = Some (tie_forces s).
Proof.
  intros Hv.
  destruct (build_system_result Hv) as (Kg & fv & E & Hr & Hc & Hfr & Hfc & _).
  cbv zeta in Hr, Hc.
  set (n := length (nodes job)) in *.
  assert (Hn6 : (NUM_DOFS * Z.of_nat n)%Z = Z.of_nat (6 * n)) by (unfold NUM_DOFS; lia).
  destruct (topLeftCorner Kg (Z.of_nat (6 * n)) (Z.of_nat (6 * n))) as [Kfree|] eqn:EK;
    [|rewrite topLeftCorner_some in EK by lia; discriminate].
  destruct (topRows (sparseView_column (Z.to_nat (rows Kg)) (solver Kg fv))
                    (Z.of_nat (6 * n))) as [dtop|] eqn:Ed;
    [|unfold topRows in Ed; rewrite topLeftCorner_some in Ed
        by (cbn [rows cols sparseView_column]; lia); discriminate].
  destruct (@sparse_mul_succeeds Kfree dtop) as [P EP].
  { rewrite topLeftCorner_some in EK by lia. injection EK as <-.
    unfold topRows in Ed. rewrite topLeftCorner_some in Ed
      by (cbn [rows cols sparseView_column]; lia).
    injection Ed as <-. reflexivity. }
  assert (Hties : exists tf,
            (if (0 <? length ties)%nat
             then computeTieForces ties
                    (reshape_rounded (epsilon options) n
                       (fun k => denseCoeff
                                   (sparseView_column (Z.to_nat (rows Kg)) (solver Kg fv)) k 0))
             else Some []) = Some tf).
  { destruct (0 <? length ties)%nat; [|eauto].
    apply computeTieForces_succeeds. destruct Hv as [_ _ _ _ Ht _]. exact Ht. }
  destruct Hties as [tf Etf].
  eexists _, Kg, fv. split.
  { unfold solve. rewrite E. cbv zeta. fold n. rewrite Hn6, EK, Ed, EP, Etf.
    reflexivity. }
  cbn [num_nodes num_elems num_bcs num_ties nodal_displacements tie_forces].
  repeat split; try assumption; try reflexivity.
Qed.

(** X14. The tie forces [solve] reports are computed from the displacements
    after rounding: for the tie of index [i] and the degree of freedom
    [j], the spring constant times the difference of the two rounded nodal
    displacements, and that product is not rounded again. *)
Theorem solve_tie_forces :
  forall (SparseLU_solve : SparseMat -> SparseMat -> Z -> R)
         job BCs forces ties options,
    valid_input job BCs forces ties ->
    exists s Kg fv,
      solve SparseLU_solve job BCs forces ties options = Some s /\
      build_system job BCs forces ties = Some (Kg, fv) /\
      length (tie_forces s) = length ties /\
      forall i tie j,
        nth_error ties i = Some tie -> (0 <= j < 6)%Z ->
        let u := fun node =>
          round_eps (epsilon options) (SparseLU_solve Kg fv (6 * node + j)%Z) in
        table_entry (tie_forces s) i j =
        (if (j <? 3)%Z then lmult tie else rmult tie) *
        (u (node_number_2 tie) - u (node_number_1 tie)).
Proof.
  intros solver job BCs forces ties options Hv.
  destruct (solve_summary solver options Hv)
    as (s & Kg & fv & Es & E & Hr & _ & _ & _ & _ & Hd & Ht).
  exists s, Kg, fv. split; [exact Es|]. split; [exact E|].
  destruct Hv as [_ _ _ _ Hties _].
  set (n := length (nodes job)) in *.
  set (F := fun (tie : Tie) (j : Z) =>
              (if (j <? 3)%Z then lmult tie else rmult tie) *
              (table_entry (nodal_displacements s) (Z.to_nat (node_number_2 tie)) j -
               table_entry (nodal_displacements s) (Z.to_nat (node_number_1 tie)) j)).
  assert (Etf : tie_forces s = map (fun tie => map (F tie) dof_range) ties).
  { destruct ties as [|t0 ties']; [cbn in Ht; now injection Ht as <-|].
    change (0 <? length (t0 :: ties'))%nat with true in Ht. cbv iota in Ht.
    rewrite computeTieForces_value in Ht.
    - now injection Ht as <-.
    - rewrite Hd. unfold reshape_rounded. apply Forall_map.
      apply Forall_forall. intros i _. rewrite length_map. cbn. lia.
    - rewrite Hd, reshape_rounded_length. exact Hties. }
  rewrite Etf. split; [now rewrite length_map|].
  intros i tie j Hi Hj. cbv zeta.
  rewrite (@tie_table_entry F ties i tie j Hi Hj). unfold F.
  rewrite Forall_forall in Hties.
  destruct (Hties tie (nth_error_In _ _ Hi)) as [H1 H2].
  unfold valid_node in H1, H2. fold n in H1, H2.
  rewrite Hd, !reshape_rounded_entry by lia.
  rewrite !denseCoeff_sparseView_column by lia.
  rewrite !Z2Nat.id by lia.
  replace (6 * node_number_2 tie + j <? rows Kg)%Z with true
    by (symmetry; apply Z.ltb_lt; lia).
  replace (6 * node_number_1 tie + j <? rows Kg)%Z with true
    by (symmetry; apply Z.ltb_lt; lia).
  reflexivity.
Qed.

Lemma solve_tie_forces_witness :
  let SparseLU_solve := fun (_ _ : SparseMat) (k : Z) => IZR k / 100 in
  let job := JOB_L_BRACKET in
  let BCs := BCS_L_BRACKET in
  let forces := @nil Force in
  let ties := [mkTie 1 2 100 7] in
  let options := mkOptions (/ 10 ^ 14) in
  valid_input job BCs forces ties /\
  exists s Kg fv,
    solve SparseLU_solve job BCs forces ties options = Some s /\
    build_system job BCs forces ties = Some (Kg, fv) /\
    length (tie_forces s) = length ties /\
    forall i tie j,
      nth_error ties i = Some tie -> (0 <= j < 6)%Z ->
      let u := fun node =>
        round_eps (epsilon options) (SparseLU_solve Kg fv (6 * node + j)%Z) in
      table_entry (tie_forces s) i j =
      (if (j <? 3)%Z then lmult tie else rmult tie) *
      (u (node_number_2 tie) - u (node_number_1 tie)).
Proof.
  intros SparseLU_solve job BCs forces ties options.
  assert (Hv : valid_input job BCs forces ties).
  { split; cbn; unfold valid_node, valid_dof, UInt.INT_MAX; cbn;
      repeat (constructor; [cbn; lia|]); try constructor; lia. }
  split; [exact Hv|].
  exact (@solve_tie_forces SparseLU_solve job BCs forces ties options Hv).
Defined.

(** ** The report: extreme entries and digit counts *)

Lemma findMinMax2D_cols_fold (input : list (list R)) (i : nat) (js : list nat) :
  (i < length input)%nat ->
  Forall (fun j => (j < length (nth i input []))%nat) js ->
  forall s,
    findMinMax2D_cols input i js s =
    Some (fold_left (fun s v => findMinMax2D_visit (loc_row (fst v)) (loc_col (fst v)) (snd v) s)
            (map (fun j => (mkLocation2D i j, entry_at input (mkLocation2D i j))) js) s).
Proof.
  intros Hi Hjs. induction Hjs as [|j js Hj _ IH]; intros s; [reflexivity|].
  cbn [findMinMax2D_cols map fold_left fst snd loc_row loc_col].
  rewrite (nth_error_nth' input [] Hi), (nth_error_nth' _ 0 Hj).
  apply IH.
Qed.

Lemma findMinMax2D_rows_fold (input : list (list R)) (num_cols : nat) (rs : list nat) :
  Forall (fun i => (i < length input)%nat /\ (num_cols <= length (nth i input []))%nat) rs ->
  forall s,
    findMinMax2D_rows input num_cols rs s =
    Some (fold_left (fun s v => findMinMax2D_visit (loc_row (fst v)) (loc_col (fst v)) (snd v) s)
            (visits input num_cols rs) s).
Proof.
  intros Hrs. induction Hrs as [|i rs [Hi Hc] _ IH]; intros s; [reflexivity|].
  cbn [findMinMax2D_rows]. unfold visits. cbn [flat_map].
  rewrite findMinMax2D_cols_fold; [|exact Hi|].
  - rewrite fold_left_app. apply IH.
  - apply Forall_forall. intros j Hj. apply in_seq in Hj. lia.
Qed.

(** The running maximum: either it was never replaced, or it sits at the
    first of the visited entries that no later one exceeds. *)
Lemma fold_visit_max (l : list (Location2D * R)) : forall s,
  let s' := fold_left (fun s v => findMinMax2D_visit (loc_row (fst v)) (loc_col (fst v))
                                    (snd v) s) l s in
  (max_elem s' = max_elem s /\ max_val s' = max_val s /\
   Forall (fun v => snd v <= max_val s) l) \/
  (exists l1 p x l2,
     l = l1 ++ (p, x) :: l2 /\ max_elem s' = p /\ max_val s' = x /\ max_val s < x /\
     Forall (fun v => snd v < x) l1 /\ Forall (fun v => snd v <= x) l2).
Proof.
  induction l as [|[[i j] y] l IH]; intros s; cbv zeta.
  - left. cbn. auto.
  - cbn [fold_left fst snd loc_row loc_col].
    specialize (IH (findMinMax2D_visit i j y s)). cbv zeta in IH.
    assert (Hm : (y > max_val s /\
                  max_elem (findMinMax2D_visit i j y s) = mkLocation2D i j /\
                  max_val (findMinMax2D_visit i j y s) = y) \/
                 (y <= max_val s /\
                  max_elem (findMinMax2D_visit i j y s) = max_elem s /\
                  max_val (findMinMax2D_visit i j y s) = max_val s)).
    { unfold findMinMax2D_visit.
      destruct (Rgt_dec y (max_val s)) as [H|H]; [left|right];
        (split; [lra|]); destruct (Rlt_dec _ _); cbn; auto. }
    destruct Hm as [(Hy & He & Hv)|(Hy & He & Hv)]; rewrite He, Hv in IH.
    + right. destruct IH as [(E1 & E2 & Hall)|(l1 & p & x & l2 & -> & E1 & E2 & Hx & H1 & H2)].
      * exists [], (mkLocation2D i j), y, l. cbn [app]. auto 10.
      * exists ((mkLocation2D i j, y) :: l1), p, x, l2. cbn [app].
        repeat split; try assumption; try lra.
        constructor; [cbn [snd]; lra|assumption].
    + destruct IH as [(E1 & E2 & Hall)|(l1 & p & x & l2 & -> & E1 & E2 & Hx & H1 & H2)].
      * left. repeat split; try assumption. constructor; [cbn [snd]; lra|assumption].
      * right. exists ((mkLocation2D i j, y) :: l1), p, x, l2. cbn [app].
        repeat split; try assumption.
        constructor; [cbn [snd]; lra|assumption].
Qed.

Lemma fold_visit_min (l : list (Location2D * R)) : forall s,
  let s' := fold_left (fun s v => findMinMax2D_visit (loc_row (fst v)) (loc_col (fst v))
                                    (snd v) s) l s in
  (min_elem s' = min_elem s /\ min_val s' = min_val s /\
   Forall (fun v => min_val s <= snd v) l) \/
  (exists l1 p x l2,
     l = l1 ++ (p, x) :: l2 /\ min_elem s' = p /\ min_val s' = x /\ x < min_val s /\
     Forall (fun v => x < snd v) l1 /\ Forall (fun v => x <= snd v) l2).
Proof.
  induction l as [|[[i j] y] l IH]; intros s; cbv zeta.
  - left. cbn. auto.
  - cbn [fold_left fst snd loc_row loc_col].
    specialize (IH (findMinMax2D_visit i j y s)). cbv zeta in IH.
    assert (Hm : (y < min_val s /\
                  min_elem (findMinMax2D_visit i j y s) = mkLocation2D i j /\
                  min_val (findMinMax2D_visit i j y s) = y) \/
                 (min_val s <= y /\
                  min_elem (findMinMax2D_visit i j y s) = min_elem s /\
                  min_val (findMinMax2D_visit i j y s) = min_val s)).
    { unfold findMinMax2D_visit.
      destruct (Rgt_dec y (max_val s)); cbn [min_val min_elem];
        destruct (Rlt_dec y (min_val s)) as [H|H]; [left|right|left|right];
        (split; [lra|]); cbn; auto. }
    destruct Hm as [(Hy & He & Hv)|(Hy & He & Hv)]; rewrite He, Hv in IH.
    + right. destruct IH as [(E1 & E2 & Hall)|(l1 & p & x & l2 & -> & E1 & E2 & Hx & H1 & H2)].
      * exists [], (mkLocation2D i j), y, l. cbn [app]. auto 10.
      * exists ((mkLocation2D i j, y) :: l1), p, x, l2. cbn [app].
        repeat split; try assumption; try lra.
        constructor; [cbn [snd]; lra|assumption].
    + destruct IH as [(E1 & E2 & Hall)|(l1 & p & x & l2 & -> & E1 & E2 & Hx & H1 & H2)].
      * left. repeat split; try assumption. constructor; [cbn [snd]; lra|assumption].
      * right. exists ((mkLocation2D i j, y) :: l1), p, x, l2. cbn [app].
        repeat split; try assumption.
        constructor; [cbn [snd]; lra|assumption].
Qed.

Lemma visits_in (input : list (list R)) (num_cols : nat) (rs : list nat) p x :
  In (p, x) (visits input num_cols rs) <->
  In (loc_row p) rs /\ (loc_col p < num_cols)%nat /\ x = entry_at input p.
Proof.
  unfold visits. rewrite in_flat_map. split.
  - intros (i & Hi & H). apply in_map_iff in H. destruct H as (j & E & Hj).
    injection E as <- <-. apply in_seq in Hj. cbn [loc_row loc_col]. auto with zarith.
  - intros (Hi & Hj & ->). exists (loc_row p). split; [exact Hi|].
    apply in_map_iff. exists (loc_col p). destruct p as [i j]. cbn [loc_row loc_col] in *.
    split; [reflexivity|]. apply in_seq. lia.
Qed.

(** Every entry visited before a given one lies before it in row-major
    order, and every entry visited after it lies after it. *)
Lemma visits_split (input : list (list R)) (num_cols : nat) : forall n a l1 p x l2,
  visits input num_cols (seq a n) = l1 ++ (p, x) :: l2 ->
  Forall (fun v => row_major_before (fst v) p) l1 /\
  Forall (fun v => row_major_before p (fst v)) l2.
Proof.
  assert (Hrow : forall i m b l1 p x l2,
            map (fun j => (mkLocation2D i j, entry_at input (mkLocation2D i j))) (seq b m) =
            l1 ++ (p, x) :: l2 ->
            loc_row p = i /\ (b <= loc_col p < b + m)%nat /\
            Forall (fun v => loc_row (fst v) = i /\ (b <= loc_col (fst v) < loc_col p)%nat) l1 /\
            Forall (fun v => loc_row (fst v) = i /\ (loc_col p < loc_col (fst v) < b + m)%nat) l2).
  { intros i m. induction m as [|m IH]; intros b l1 p x l2 H.
    - destruct l1; discriminate.
    - cbn [seq map] in H. destruct l1 as [|v l1]; cbn [app] in H.
      + injection H as <- _ <-. cbn [loc_row loc_col].
        repeat split; try lia; [constructor|].
        apply Forall_forall. intros v Hv. apply in_map_iff in Hv.
        destruct Hv as (j & <- & Hj). apply in_seq in Hj. cbn. lia.
      + injection H as <- H. apply IH in H. destruct H as (E & Hc & H1 & H2).
        repeat split; try lia.
        * constructor; [cbn; lia|]. eapply Forall_impl; [|exact H1]. cbv beta. lia.
        * eapply Forall_impl; [|exact H2]. cbv beta. lia. }
  induction n as [|n IH]; intros a l1 p x l2 H.
  - destruct l1; discriminate.
  - unfold visits in H. cbn [seq flat_map] in H. fold (visits input num_cols (seq (S a) n)) in H.
    assert (Hlater : Forall (fun v => (a < loc_row (fst v))%nat)
                            (visits input num_cols (seq (S a) n))).
    { apply Forall_forall. intros [q y] Hq. apply visits_in in Hq.
      destruct Hq as (Hq & _). apply in_seq in Hq. cbn [fst]. lia. }
    apply app_eq_app in H. destruct H as (l & [[E1 E2]|[E1 E2]]).
    + destruct l as [|v l].
      * (* the split falls between row a and the later rows *)
        rewrite app_nil_r in E1. cbn [app] in E2.
        destruct (IH (S a) [] p x l2 (eq_sym E2)) as [_ H2]. split; [|exact H2].
        assert (Hp : (a < loc_row p)%nat).
        { rewrite <- E2 in Hlater. inversion Hlater; subst. assumption. }
        rewrite <- E1. apply Forall_forall. intros w Hw. apply in_map_iff in Hw.
        destruct Hw as (j & <- & _). left. cbn. lia.
      * (* the split falls in row a *)
        cbn [app] in E2. injection E2 as Ev E2. subst v.
        destruct (Hrow _ _ _ _ _ _ _ E1) as (Ep & Hc & H1 & H2).
        split.
        -- eapply Forall_impl; [|exact H1]. cbv beta. intros w [Hw1 Hw2]. right. lia.
        -- rewrite E2. apply Forall_app. split.
           ++ eapply Forall_impl; [|exact H2]. cbv beta. intros w [Hw1 Hw2]. right. lia.
           ++ eapply Forall_impl; [|exact Hlater].
              cbv beta. intros w Hw. left. lia.
    + (* the split falls in the later rows *)
      destruct (IH (S a) l p x l2 E2) as [H1 H2]. split; [|exact H2].
      rewrite E1. apply Forall_app. split; [|exact H1].
      assert (Hp : (a < loc_row p)%nat).
      { rewrite E2 in Hlater. apply Forall_app in Hlater. destruct Hlater as [_ Hl].
        inversion Hl; subst. assumption. }
      apply Forall_forall. intros w Hw. apply in_map_iff in Hw.
      destruct Hw as (j & <- & _). left. cbn. lia.
Qed.

Lemma row_major_before_irrefl p : ~ row_major_before p p.
Proof. unfold row_major_before. lia. Qed.

Lemma row_major_before_asym p q : row_major_before p q -> ~ row_major_before q p.
Proof. unfold row_major_before. lia. Qed.

Lemma DBL_MAX_ge_4 : 4 <= DBL_MAX.
Proof.
  unfold DBL_MAX.
  assert (H1 : 1 <= 2 - / 2 ^ 52).
  { assert (0 < / 2 ^ 52 <= 1); [|lra]. split.
    - apply Rinv_0_lt_compat, pow_lt. lra.
    - rewrite <- Rinv_1. apply Rinv_le_contravar; [lra|].
      apply pow_R1_Rle. lra. }
  assert (H2 : 4 <= 2 ^ 1023).
  { replace 4 with (2 ^ 2) by ring. apply Rle_pow; [lra|lia]. }
  nra.
Qed.

(** X15. [findMinMax2D] on a table with a first row of at least one entry, no
    row shorter than the first and finite entries: it returns the
    location of a smallest and of a largest entry among the columns of the
    first row, and of several equal ones the first in row-major order.
    Entries of longer rows beyond the length of the first are not looked
    at. *)
Theorem findMinMax2D_first_extremes :
  forall (input : list (list R)) (row0 : list R),
    nth_error input 0 = Some row0 ->
    (0 < length row0)%nat ->
    Forall (fun row => (length row0 <= length row)%nat) input ->
    Forall (Forall (fun x => - DBL_MAX <= x <= DBL_MAX)) input ->
    exists mn mx,
      findMinMax2D input = Some (mn, mx) /\
      (loc_row mn < length input)%nat /\ (loc_col mn < length row0)%nat /\
      (loc_row mx < length input)%nat /\ (loc_col mx < length row0)%nat /\
      forall p,
        (loc_row p < length input)%nat -> (loc_col p < length row0)%nat ->
        entry_at input mn <= entry_at input p <= entry_at input mx /\
        (row_major_before p mn -> entry_at input mn < entry_at input p) /\
        (row_major_before p mx -> entry_at input p < entry_at input mx).
Proof.
  intros input row0 H0 Hnc Hlen Hfin.
  set (nc := length row0) in *.
  assert (Hrows : Forall (fun i => (i < length input)%nat /\
                                   (nc <= length (nth i input []))%nat)
                         (seq 0 (length input))).
  { apply Forall_forall. intros i Hi. apply in_seq in Hi. split; [lia|].
    rewrite Forall_forall in Hlen. apply Hlen. apply nth_In. lia. }
  unfold findMinMax2D. rewrite H0. cbv zeta. fold nc.
  rewrite (@findMinMax2D_rows_fold input nc _ Hrows).
  set (l := visits input nc (seq 0 (length input))).
  set (s0 := mkMinMax (mkLocation2D 0 0) (mkLocation2D 0 0) DBL_MAX (- DBL_MAX)).
  assert (Hn0 : (0 < length input)%nat).
  { destruct input; [discriminate|cbn; lia]. }
  assert (Hin : forall p, (loc_row p < length input)%nat -> (loc_col p < nc)%nat ->
                          In (p, entry_at input p) l).
  { intros p Hr Hc. apply visits_in. split; [apply in_seq; lia|]. auto. }
  assert (Hval : forall p x, In (p, x) l ->
                   x = entry_at input p /\ (loc_row p < length input)%nat /\
                   (loc_col p < nc)%nat /\ - DBL_MAX <= x <= DBL_MAX).
  { intros p x Hp. apply visits_in in Hp. destruct Hp as (Hr & Hc & ->).
    apply in_seq in Hr. repeat split; try lia.
    - rewrite Forall_forall in Hfin.
      assert (Hrow : In (nth (loc_row p) input []) input) by (apply nth_In; lia).
      specialize (Hfin _ Hrow). rewrite Forall_forall in Hfin.
      apply Hfin. apply nth_In.
      rewrite Forall_forall in Hlen. specialize (Hlen _ Hrow). lia.
    - rewrite Forall_forall in Hfin.
      assert (Hrow : In (nth (loc_row p) input []) input) by (apply nth_In; lia).
      specialize (Hfin _ Hrow). rewrite Forall_forall in Hfin.
      apply Hfin. apply nth_In.
      rewrite Forall_forall in Hlen. specialize (Hlen _ Hrow). lia. }
  assert (Hsplit : forall l1 p x l2, l = l1 ++ (p, x) :: l2 ->
                     Forall (fun v => row_major_before (fst v) p) l1 /\
                     Forall (fun v => row_major_before p (fst v)) l2).
  { intros l1 p x l2 E. exact (@visits_split input nc _ _ l1 p x l2 E). }
  assert (Hpos : forall l1 p x l2 q, l = l1 ++ (p, x) :: l2 ->
                   (loc_row q < length input)%nat -> (loc_col q < nc)%nat ->
                   (In (q, entry_at input q) l1 /\ row_major_before q p) \/
                   q = p \/
                   (In (q, entry_at input q) l2 /\ row_major_before p q)).
  { intros l1 p x l2 q E Hr Hc. pose proof (Hin q Hr Hc) as Hq.
    destruct (Hsplit _ _ _ _ E) as [S1 S2]. rewrite Forall_forall in S1, S2.
    rewrite E in Hq. apply in_app_or in Hq. destruct Hq as [Hq|[Hq|Hq]].
    - left. split; [exact Hq|]. exact (S1 _ Hq).
    - right. left. now injection Hq.
    - right. right. split; [exact Hq|]. exact (S2 _ Hq). }
  pose proof (fold_visit_max l s0) as Hmax. pose proof (fold_visit_min l s0) as Hmin.
  cbv zeta in Hmax, Hmin.
  set (s' := fold_left _ l s0) in *.
  exists (min_elem s'), (max_elem s').
  split; [reflexivity|].
  (* the largest entry *)
  assert (Mx : (loc_row (max_elem s') < length input)%nat /\
               (loc_col (max_elem s') < nc)%nat /\
               forall p, (loc_row p < length input)%nat -> (loc_col p < nc)%nat ->
                 entry_at input p <= entry_at input (max_elem s') /\
                 (row_major_before p (max_elem s') ->
                  entry_at input p < entry_at input (max_elem s'))).
  { destruct Hmax as [(E1 & E2 & Hall)|(l1 & p0 & x & l2 & E & E1 & E2 & Hx & H1 & H2)].
    - rewrite E1. cbn [s0 max_elem max_val loc_row loc_col] in *.
      split; [exact Hn0|]. split; [exact Hnc|].
      rewrite Forall_forall in Hall.
      assert (Hconst : forall p, (loc_row p < length input)%nat -> (loc_col p < nc)%nat ->
                         entry_at input p = - DBL_MAX).
      { intros p Hr Hc. pose proof (Hin p Hr Hc) as Hp.
        pose proof (Hall _ Hp) as Hle. cbn [snd] in Hle.
        destruct (Hval _ _ Hp) as (_ & _ & _ & Hb). lra. }
      intros p Hr Hc. rewrite (Hconst p Hr Hc).
      rewrite (Hconst (mkLocation2D 0 0)) by (cbn; assumption).
      split; [lra|]. unfold row_major_before. cbn [loc_row loc_col]. lia.
    - rewrite E1.
      assert (Hp0 : In (p0, x) l) by (rewrite E; apply in_or_app; right; now left).
      destruct (Hval _ _ Hp0) as (Ex & Hr0 & Hc0 & _).
      split; [exact Hr0|]. split; [exact Hc0|].
      rewrite Forall_forall in H1, H2. rewrite <- Ex.
      intros p Hr Hc.
      destruct (Hpos _ _ _ _ p E Hr Hc) as [[Hq Hb]|[->|[Hq Hb]]].
      + pose proof (H1 _ Hq) as Hlt. cbn [snd] in Hlt. split; [lra|]. intros _. exact Hlt.
      + rewrite <- Ex. split; [lra|]. intros Hb. now apply row_major_before_irrefl in Hb.
      + pose proof (H2 _ Hq) as Hle. cbn [snd] in Hle. split; [exact Hle|].
        intros Hb'. now apply row_major_before_asym in Hb. }
  (* the smallest entry *)
  assert (Mn : (loc_row (min_elem s') < length input)%nat /\
               (loc_col (min_elem s') < nc)%nat /\
               forall p, (loc_row p < length input)%nat -> (loc_col p < nc)%nat ->
                 entry_at input (min_elem s') <= entry_at input p /\
                 (row_major_before p (min_elem s') ->
                  entry_at input (min_elem s') < entry_at input p)).
  { destruct Hmin as [(E1 & E2 & Hall)|(l1 & p0 & x & l2 & E & E1 & E2 & Hx & H1 & H2)].
    - rewrite E1. cbn [s0 min_elem min_val loc_row loc_col] in *.
      split; [exact Hn0|]. split; [exact Hnc|].
      rewrite Forall_forall in Hall.
      assert (Hconst : forall p, (loc_row p < length input)%nat -> (loc_col p < nc)%nat ->
                         entry_at input p = DBL_MAX).
      { intros p Hr Hc. pose proof (Hin p Hr Hc) as Hp.
        pose proof (Hall _ Hp) as Hle. cbn [snd] in Hle.
        destruct (Hval _ _ Hp) as (_ & _ & _ & Hb). lra. }
      intros p Hr Hc. rewrite (Hconst p Hr Hc).
      rewrite (Hconst (mkLocation2D 0 0)) by (cbn; assumption).
      split; [lra|]. unfold row_major_before. cbn [loc_row loc_col]. lia.
    - rewrite E1.
      assert (Hp0 : In (p0, x) l) by (rewrite E; apply in_or_app; right; now left).
      destruct (Hval _ _ Hp0) as (Ex & Hr0 & Hc0 & _).
      split; [exact Hr0|]. split; [exact Hc0|].
      rewrite Forall_forall in H1, H2. rewrite <- Ex.
      intros p Hr Hc.
      destruct (Hpos _ _ _ _ p E Hr Hc) as [[Hq Hb]|[->|[Hq Hb]]].
      + pose proof (H1 _ Hq) as Hlt. cbn [snd] in Hlt. split; [lra|]. intros _. exact Hlt.
      + rewrite <- Ex. split; [lra|]. intros Hb. now apply row_major_before_irrefl in Hb.
      + pose proof (H2 _ Hq) as Hle. cbn [snd] in Hle. split; [exact Hle|].
        intros Hb'. now apply row_major_before_asym in Hb. }
  destruct Mx as (Mx1 & Mx2 & Mx3). destruct Mn as (Mn1 & Mn2 & Mn3).
  repeat split; try assumption.
  - now apply Mn3.
  - now apply Mx3.
  - now apply Mn3.
  - now apply Mx3.
Qed.

Lemma findMinMax2D_first_extremes_witness :
  let input := [[1; -2; 3]; [3; -2; 0; 4]] in
  let row0 := [1; -2; 3] in
  exists mn mx,
    findMinMax2D input = Some (mn, mx) /\
    (loc_row mn < length input)%nat /\ (loc_col mn < length row0)%nat /\
    (loc_row mx < length input)%nat /\ (loc_col mx < length row0)%nat /\
    forall p,
      (loc_row p < length input)%nat -> (loc_col p < length row0)%nat ->
      entry_at input mn <= entry_at input p <= entry_at input mx /\
      (row_major_before p mn -> entry_at input mn < entry_at input p) /\
      (row_major_before p mx -> entry_at input p < entry_at input mx).
Proof.
  intros input row0. pose proof DBL_MAX_ge_4 as Hd.
  apply (@findMinMax2D_first_extremes input row0).
  - exact eq_refl.
  - unfold row0. cbn. lia.
  - unfold input, row0. repeat constructor; cbn; lia.
  - repeat (constructor; [repeat (constructor; [lra|]); constructor|]).
    constructor.
Defined.

Lemma findMinMax2D_cols_none (input : list (list R)) (i : nat) (js : list nat) :
  Exists (fun j => (length (nth i input []) <= j)%nat) js ->
  forall s, findMinMax2D_cols input i js s = None.
Proof.
  induction 1 as [j js Hj|j js _ IH]; intros s; cbn [findMinMax2D_cols].
  - destruct (nth_error input i) as [row|] eqn:E; [|reflexivity].
    rewrite (nth_error_nth _ _ [] E) in Hj.
    apply nth_error_None in Hj. now rewrite Hj.
  - destruct (nth_error input i) as [row|]; [|reflexivity].
    destruct (nth_error row j); [apply IH|reflexivity].
Qed.

Lemma findMinMax2D_rows_none (input : list (list R)) (num_cols : nat) (rs : list nat) :
  Exists (fun i => (length (nth i input []) < num_cols)%nat) rs ->
  forall s, findMinMax2D_rows input num_cols rs s = None.
Proof.
  induction 1 as [i rs Hi|i rs _ IH]; intros s; cbn [findMinMax2D_rows].
  - rewrite findMinMax2D_cols_none; [reflexivity|].
    apply Exists_exists. exists (length (nth i input [])). split; [|lia].
    apply in_seq. lia.
  - destruct (findMinMax2D_cols input i (seq 0 num_cols) s); [apply IH|reflexivity].
Qed.

(** X16. [findMinMax2D] reads outside its input exactly when the table has no
    row, or has a row shorter than the first one. *)
Theorem findMinMax2D_out_of_range_iff :
  forall input : list (list R),
    findMinMax2D input = None <->
    input = [] \/ Exists (fun row => (length row < length (hd [] input))%nat) input.
Proof.
  intros input. split.
  - intros H. destruct input as [|row0 rest]; [now left|]. right.
    cbn [hd].
    destruct (Forall_Exists_dec (fun row => ~ (length row < length row0)%nat)
                (fun row => match lt_dec (length row) (length row0) with
                            | left h => right (fun n => n h)
                            | right h => left h
                            end) (row0 :: rest)) as [Hall|Hex].
    + exfalso. unfold findMinMax2D in H. cbn [nth_error] in H. cbv zeta in H.
      rewrite findMinMax2D_rows_fold in H; [discriminate|].
      apply Forall_forall. intros i Hi. apply in_seq in Hi. split; [lia|].
      rewrite Forall_forall in Hall.
      assert (Hrow : In (nth i (row0 :: rest) []) (row0 :: rest)) by (apply nth_In; lia).
      specialize (Hall _ Hrow). lia.
    + eapply Exists_impl; [|exact Hex]. cbv beta. intros row Hrow. lia.
  - intros [->|H]; [reflexivity|].
    destruct input as [|row0 rest]; [inversion H|].
    cbn [hd] in H. unfold findMinMax2D. cbn [nth_error]. cbv zeta.
    rewrite findMinMax2D_rows_none; [reflexivity|].
    apply Exists_exists in H. destruct H as (row & Hin & Hlt).
    destruct (In_nth _ _ [] Hin) as (i & Hi & E).
    apply Exists_exists. exists i. split; [apply in_seq; lia|]. now rewrite E.
Qed.

Lemma findMinMax2D_out_of_range_iff_witness :
  findMinMax2D [[1; 2]; [3]] = None /\ findMinMax2D [[1]; [2; 3]] <> None.
Proof.
  split.
  - apply (proj2 (findMinMax2D_out_of_range_iff [[1; 2]; [3]])).
    right. apply Exists_cons_tl. apply Exists_cons_hd. cbn. lia.
  - intros H. apply (proj1 (findMinMax2D_out_of_range_iff [[1]; [2; 3]])) in H.
    destruct H as [H|H]; [discriminate|].
    cbn [hd length] in H.
    inversion H as [? ? H1|? ? H1]; subst; [cbn in H1; lia|].
    inversion H1 as [? ? H2|? ? H2]; subst; [cbn in H2; lia|].
    inversion H2.
Defined.

(** ** Digit counts *)

Lemma numDigits_loop_counts : forall fuel number digits,
  (Z.to_nat (Z.abs number) < fuel)%nat ->
  exists k,
    numDigits_loop fuel number digits = Some (digits + k)%Z /\
    (0 <= k)%Z /\
    (number = 0%Z -> k = 0%Z) /\
    (number <> 0%Z -> (10 ^ (k - 1) <= Z.abs number < 10 ^ k)%Z).
Proof.
  induction fuel as [|fuel IH]; intros number digits Hf; [lia|].
  cbn [numDigits_loop]. destruct (Z.eqb_spec number 0) as [->|Hne].
  - exists 0%Z. rewrite Z.add_0_r. repeat split; try lia; congruence.
  - assert (Hq : Z.abs (Z.quot number 10) = (Z.abs number / 10)%Z).
    { rewrite <- Z.quot_abs by lia. apply Z.quot_div_nonneg; lia. }
    assert (Hdiv : (Z.abs number / 10 < Z.abs number)%Z)
      by (apply Z.div_lt; lia).
    destruct (IH (Z.quot number 10) (digits + 1)%Z) as (k & E & Hk & H0 & H1); [lia|].
    exists (k + 1)%Z. rewrite E. split; [f_equal; lia|]. split; [lia|].
    split; [congruence|]. intros _.
    replace (k + 1 - 1)%Z with k by lia.
    pose proof (Z.div_mod (Z.abs number) 10 ltac:(lia)) as Hdm.
    pose proof (Z.mod_pos_bound (Z.abs number) 10 ltac:(lia)) as Hmod.
    destruct (Z.eq_dec (Z.quot number 10) 0) as [Ez|Ez].
    + rewrite (H0 Ez). rewrite Ez in Hq. cbn [Z.abs] in Hq.
      change (10 ^ 0)%Z with 1%Z. change (10 ^ (0 + 1))%Z with 10%Z. lia.
    + specialize (H1 Ez). rewrite Hq in H1.
      assert (Hk1 : (1 <= k)%Z).
      { destruct (Z.eq_dec k 0) as [->|]; [|lia]. cbn in H1. lia. }
      rewrite Z.pow_add_r by lia. change (10 ^ 1)%Z with 10%Z.
      replace (10 ^ k)%Z with (10 * 10 ^ (k - 1))%Z in *
        by (rewrite <- (Z.pow_succ_r 10 (k - 1)) by lia; f_equal; lia).
      lia.
Qed.

(** X17. [numDigits] returns for every integer: 0 for zero, the number of
    decimal digits for a positive number, and that number plus one, for the
    sign, for a negative one. *)
Theorem numDigits_counts_digits :
  forall number : Z,
    exists d,
      (forall fuel, (Z.to_nat (Z.abs number) < fuel)%nat ->
                    numDigits fuel number = Some d) /\
      (number = 0 -> d = 0)%Z /\
      (0 < number -> 10 ^ (d - 1) <= number < 10 ^ d)%Z /\
      (number < 0 -> 10 ^ (d - 2) <= - number < 10 ^ (d - 1))%Z.
Proof.
  intros number.
  destruct (@numDigits_loop_counts (S (Z.to_nat (Z.abs number))) number
              (if (number <? 0)%Z then 1%Z else 0%Z) ltac:(lia))
    as (k & _ & Hk & H0 & H1).
  exists ((if (number <? 0)%Z then 1 else 0) + k)%Z. split.
  - intros fuel Hf. unfold numDigits. cbv zeta.
    destruct (@numDigits_loop_counts fuel number
                (if (number <? 0)%Z then 1%Z else 0%Z) Hf) as (k' & E & Hk' & H0' & H1').
    rewrite E. f_equal. f_equal.
    destruct (Z.eq_dec number 0) as [Ez|Ez]; [rewrite H0, H0'; auto|].
    specialize (H1 Ez). specialize (H1' Ez).
    destruct (Z.lt_trichotomy k k') as [Hlt|[Heq|Hlt]]; [|auto|]; exfalso.
    + assert (10 ^ k <= 10 ^ (k' - 1))%Z by (apply Z.pow_le_mono_r; lia). lia.
    + assert (10 ^ k' <= 10 ^ (k - 1))%Z by (apply Z.pow_le_mono_r; lia). lia.
  - destruct (Z.ltb_spec number 0) as [Hneg|Hpos].
    + split; [lia|]. split; [lia|]. intros _.
      specialize (H1 ltac:(lia)). rewrite Z.abs_neq in H1 by lia.
      replace (1 + k - 2)%Z with (k - 1)%Z by lia.
      replace (1 + k - 1)%Z with k by lia. exact H1.
    + split; [intros Ez; rewrite (H0 Ez); lia|]. split; [|lia]. intros Hp.
      specialize (H1 ltac:(lia)). rewrite Z.abs_eq in H1 by lia.
      cbn [Z.add]. exact H1.
Qed.

Lemma numDigits_counts_digits_witness :
  exists d,
    numDigits 1235 1234 = Some d /\ (10 ^ (d - 1) <= 1234 < 10 ^ d)%Z.
Proof.
  destruct (numDigits_counts_digits 1234) as (d & Hf & _ & Hp & _).
  exists d. split; [apply Hf; cbn; lia|apply Hp; lia].
Defined.

(** ** Reading a model *)

Lemma createNodeVec_loop_ok (rows : list (list R)) : forall i,
  Forall (fun row => length row = 3%nat) rows ->
  createNodeVec_loop i rows = Ok (map node_of_row rows).
Proof.
  induction rows as [|row rest IH]; intros i H; [reflexivity|].
  inversion H as [|? ? Hrow Hrest]; subst.
  destruct row as [|x [|y [|z [|w row]]]]; try discriminate.
  cbn [createNodeVec_loop map]. now rewrite (IH (S i) Hrest).
Qed.

Lemma createNodeVec_loop_bad (good : list (list R)) : forall i bad rest,
  Forall (fun row => length row = 3%nat) good ->
  length bad <> 3%nat ->
  createNodeVec_loop i (good ++ bad :: rest) = Throw (BadRow "nodes" (i + length good)).
Proof.
  induction good as [|row good IH]; intros i bad rest H Hbad.
  - cbn [app length createNodeVec_loop]. rewrite Nat.add_0_r.
    destruct bad as [|x [|y [|z [|w bad]]]]; try reflexivity. now cbn in Hbad.
  - inversion H as [|? ? Hrow Hgood]; subst.
    destruct row as [|x [|y [|z [|w row]]]]; try discriminate.
    cbn [app length createNodeVec_loop]. rewrite (IH (S i) bad rest Hgood Hbad).
    f_equal. f_equal. lia.
Qed.

Lemma createNodeVec_loop_inv (rows : list (list R)) : forall i out,
  createNodeVec_loop i rows = Ok out ->
  Forall (fun row => length row = 3%nat) rows /\ out = map node_of_row rows.
Proof.
  induction rows as [|row rest IH]; intros i out H.
  - cbn in H. injection H as <-. split; [constructor|reflexivity].
  - cbn [createNodeVec_loop] in H.
    destruct row as [|x [|y [|z [|w row]]]]; try discriminate.
    destruct (createNodeVec_loop (S i) rest) as [out'|] eqn:E; [|discriminate].
    injection H as <-. destruct (IH _ _ E) as [Hall ->].
    split; [constructor; [reflexivity|assumption]|reflexivity].
Qed.

(** X18. [createNodeVecFromJSON] on a table that was read: a table without
    rows is an error; when the table has a row and every row has three
    entries it returns one node per row, with the coordinates of the row;
    otherwise it throws the error of the first row that has not three
    entries, by its index. *)
Theorem createNodeVecFromJSON_rows :
  forall (parse_double : string -> Parsed R) (config_doc : Document)
         (filename : string) (data : list (list R)),
    config_doc "nodes"%string = Some (JsonString filename) ->
    parse_double filename = Rows data ->
    (data = [] ->
     createNodeVecFromJSON parse_double config_doc = Throw (NoData "nodes")) /\
    (data <> [] ->
     Forall (fun row => length row = 3%nat) data ->
     createNodeVecFromJSON parse_double config_doc = Ok (map node_of_row data)) /\
    (forall good bad rest,
       data = good ++ bad :: rest ->
       Forall (fun row => length row = 3%nat) good ->
       length bad <> 3%nat ->
       createNodeVecFromJSON parse_double config_doc =
       Throw (BadRow "nodes" (length good))).
Proof.
  intros parse_double config_doc filename data Hdoc Hfile.
  unfold createNodeVecFromJSON, createVectorFromJSON. rewrite Hdoc, Hfile.
  split; [intros ->; reflexivity|]. split.
  - intros Hne Hall. destruct data; [contradiction|]. cbn [length Nat.eqb].
    now apply createNodeVec_loop_ok.
  - intros good bad rest -> Hgood Hbad.
    rewrite length_app. cbn [length]. rewrite Nat.add_succ_r. cbn [Nat.eqb].
    exact (@createNodeVec_loop_bad good 0 bad rest Hgood Hbad).
Qed.

Lemma createNodeVecFromJSON_rows_witness :
  let parse_double := fun _ : string => Rows [[0; 0; 0]; [1; 0]; [2; 0; 0]] in
  let config_doc := fun v : string =>
    if String.eqb v "nodes" then Some (JsonString "nodes.csv") else None in
  createNodeVecFromJSON parse_double config_doc = Throw (BadRow "nodes" 1).
Proof.
  intros parse_double config_doc.
  refine (proj2 (proj2 (@createNodeVecFromJSON_rows parse_double config_doc
                          "nodes.csv"%string [[0; 0; 0]; [1; 0]; [2; 0; 0]]
                          eq_refl eq_refl))
                [[0; 0; 0]] [1; 0] [[2; 0; 0]] eq_refl _ _).
  - repeat constructor.
  - cbn. lia.
Defined.

Lemma createElemVec_loop_ok (ed : list (list Z)) : forall (pd : list (list R)) i,
  length ed = length pd ->
  Forall (fun row => length row = 2%nat) ed ->
  Forall (fun row => length row = 7%nat) pd ->
  exists out,
    createElemVec_loop i (combine ed pd) = Ok out /\
    map node_numbers out = map connectivity_of_row ed /\
    map elem_props out = map props_of_row pd.
Proof.
  induction ed as [|e ed IH]; intros pd i Hlen He Hp.
  - destruct pd; [|discriminate]. exists []. auto.
  - destruct pd as [|p pd]; [discriminate|].
    inversion He as [|? ? He0 He']; subst. inversion Hp as [|? ? Hp0 Hp']; subst.
    destruct e as [|n1 [|n2 [|n3 e]]]; try discriminate.
    destruct p as [|p0 [|p1 [|p2 [|p3 [|p4 [|p5 [|p6 [|p7 p]]]]]]]]; try discriminate.
    cbn [length] in Hlen.
    destruct (IH pd (S i) ltac:(lia) He' Hp') as (out & E & E1 & E2).
    exists (Elem_new n1 n2 (mkProps p0 p1 p2 p3 (Vec3 p4 p5 p6)) :: out).
    cbn [combine createElemVec_loop]. rewrite E. cbn [map]. rewrite E1, E2. auto.
Qed.

Lemma createElemVec_loop_inv (ed : list (list Z)) : forall (pd : list (list R)) i out,
  length ed = length pd ->
  createElemVec_loop i (combine ed pd) = Ok out ->
  Forall (fun row => length row = 2%nat) ed /\
  Forall (fun row => length row = 7%nat) pd.
Proof.
  induction ed as [|e ed IH]; intros pd i out Hlen H.
  - destruct pd; [|discriminate]. split; constructor.
  - destruct pd as [|p pd]; [discriminate|]. cbn [length] in Hlen.
    cbn [combine createElemVec_loop] in H.
    destruct e as [|n1 [|n2 [|n3 e]]]; try discriminate.
    destruct p as [|p0 [|p1 [|p2 [|p3 [|p4 [|p5 [|p6 [|p7 p]]]]]]]]; try discriminate.
    destruct (createElemVec_loop (S i) (combine ed pd)) as [out'|] eqn:E; [|discriminate].
    destruct (IH pd (S i) out' ltac:(lia) E) as [H1 H2].
    split; constructor; auto.
Qed.

(** X19. [createJobFromJSON] on a configuration whose three tables were read:
    it returns a job exactly when no table is empty, every row of nodes has
    3 entries, elems and props have the same number of rows, every row of
    elems has 2 entries and every row of props has 7; the job then holds
    one node per row of nodes, and one connectivity pair and one set of
    properties per row of elems and props, in the order of the rows. *)
Theorem createJobFromJSON_result :
  forall (parse_double : string -> Parsed R) (parse_unsigned : string -> Parsed Z)
         (config_doc : Document) (fn fe fp : string)
         (nd : list (list R)) (ed : list (list Z)) (pd : list (list R)),
    config_doc "nodes"%string = Some (JsonString fn) -> parse_double fn = Rows nd ->
    config_doc "elems"%string = Some (JsonString fe) -> parse_unsigned fe = Rows ed ->
    config_doc "props"%string = Some (JsonString fp) -> parse_double fp = Rows pd ->
    (Z.of_nat (length ed) < UInt.modulus)%Z ->
    ((exists job, createJobFromJSON parse_double parse_unsigned config_doc = Ok job) <->
     (nd <> [] /\ ed <> [] /\ pd <> [] /\
      Forall (fun row => length row = 3%nat) nd /\
      length ed = length pd /\
      Forall (fun row => length row = 2%nat) ed /\
      Forall (fun row => length row = 7%nat) pd)) /\
    (forall job,
       createJobFromJSON parse_double parse_unsigned config_doc = Ok job ->
       nodes job = map node_of_row nd /\
       elems job = map connectivity_of_row ed /\
       props job = map props_of_row pd).
Proof.
  intros parse_double parse_unsigned config_doc fn fe fp nd ed pd
         Hn Hnf He Hef Hp Hpf Hsize.
  assert (Hfirst : forall out : list Elem,
            length out = length ed ->
            firstn (Z.to_nat (UInt.wrap (Z.of_nat (length out)))) out = out).
  { intros out Hl. rewrite Hl, wrap_small by lia. rewrite Nat2Z.id, <- Hl.
    apply firstn_all. }
  assert (Good : nd <> [] -> ed <> [] -> pd <> [] ->
            Forall (fun row => length row = 3%nat) nd ->
            length ed = length pd ->
            Forall (fun row => length row = 2%nat) ed ->
            Forall (fun row => length row = 7%nat) pd ->
            createJobFromJSON parse_double parse_unsigned config_doc =
            Ok (mkJob (map node_of_row nd) (map connectivity_of_row ed)
                      (map props_of_row pd))).
  { intros Hn0 He0 Hp0 Hn3 Hlen He2 Hp7.
    unfold createJobFromJSON, createNodeVecFromJSON, createElemVecFromJSON,
      createVectorFromJSON.
    rewrite Hn, Hnf, He, Hef, Hp, Hpf.
    destruct nd as [|n0 nd']; [contradiction|].
    destruct ed as [|e0 ed']; [contradiction|].
    destruct pd as [|p0 pd']; [contradiction|].
    cbn [length Nat.eqb]. rewrite (@createNodeVec_loop_ok _ 0 Hn3).
    pose proof Hlen as Hlen'. cbn [length] in Hlen'. injection Hlen' as Hlen'.
    rewrite (proj2 (Nat.eqb_eq _ _) Hlen'). cbn [negb].
    destruct (@createElemVec_loop_ok _ _ 0 Hlen He2 Hp7) as (out & E & E1 & E2).
    rewrite E. unfold Job_new. cbv zeta.
    rewrite Hfirst by (rewrite <- (length_map node_numbers), E1; apply length_map).
    now rewrite E1, E2. }
  assert (Inv : forall job,
            createJobFromJSON parse_double parse_unsigned config_doc = Ok job ->
            nd <> [] /\ ed <> [] /\ pd <> [] /\
            Forall (fun row => length row = 3%nat) nd /\
            length ed = length pd /\
            Forall (fun row => length row = 2%nat) ed /\
            Forall (fun row => length row = 7%nat) pd).
  { intros job H.
    unfold createJobFromJSON, createNodeVecFromJSON, createElemVecFromJSON,
      createVectorFromJSON in H.
    rewrite Hn, Hnf, He, Hef, Hp, Hpf in H.
    destruct nd as [|n0 nd']; [discriminate|].
    cbn [length Nat.eqb] in H.
    destruct (createNodeVec_loop 0 (n0 :: nd')) as [nodes_out|] eqn:En; [|discriminate].
    destruct ed as [|e0 ed']; [discriminate|].
    destruct pd as [|p0 pd']; [discriminate|].
    cbn [length Nat.eqb] in H.
    destruct (Nat.eqb_spec (length ed') (length pd')) as [Hlen|Hlen];
      cbn [negb] in H; [|discriminate].
    destruct (createElemVec_loop 0 (combine (e0 :: ed') (p0 :: pd'))) as [out|] eqn:Ee;
      [|discriminate].
    destruct (@createNodeVec_loop_inv _ _ _ En) as [Hn3 _].
    destruct (@createElemVec_loop_inv (e0 :: ed') (p0 :: pd') 0 out
                ltac:(cbn [length]; lia) Ee) as [He2 Hp7].
    repeat split; try discriminate; try assumption. cbn [length]. lia. }
  split.
  - split.
    + intros [job H]. exact (Inv job H).
    + intros (Hn0 & He0 & Hp0 & Hn3 & Hlen & He2 & Hp7). eexists.
      exact (Good Hn0 He0 Hp0 Hn3 Hlen He2 Hp7).
  - intros job H. destruct (Inv job H) as (Hn0 & He0 & Hp0 & Hn3 & Hlen & He2 & Hp7).
    rewrite (Good Hn0 He0 Hp0 Hn3 Hlen He2 Hp7) in H. injection H as <-.
    auto.
Qed.

Lemma createJobFromJSON_result_witness :
  let parse_double := fun f : string =>
    if String.eqb f "nodes.csv" then Rows [[0; 0; 0]; [1; 0; 0]]
    else Rows [[1; 2; 3; 4; 0; 0; 1]] in
  let parse_unsigned := fun _ : string => Rows [[0; 1]%Z] in
  let config_doc := fun v : string =>
    if String.eqb v "nodes" then Some (JsonString "nodes.csv")
    else if String.eqb v "elems" then Some (JsonString "elems.csv")
    else if String.eqb v "props" then Some (JsonString "props.csv")
    else None in
  createJobFromJSON parse_double parse_unsigned config_doc =
  Ok (mkJob [Vec3 0 0 0; Vec3 1 0 0] [(0, 1)%Z] [mkProps 1 2 3 4 (Vec3 0 0 1)]).
Proof.
  intros parse_double parse_unsigned config_doc.
  destruct (@createJobFromJSON_result parse_double parse_unsigned config_doc
              "nodes.csv"%string "elems.csv"%string "props.csv"%string
              [[0; 0; 0]; [1; 0; 0]] [[0; 1]%Z] [[1; 2; 3; 4; 0; 0; 1]]
              eq_refl eq_refl eq_refl eq_refl eq_refl eq_refl
              ltac:(unfold UInt.modulus; cbn; lia)) as [Hiff Hjob].
  destruct (proj2 Hiff) as [job E].
  { repeat split; try discriminate; repeat constructor. }
  rewrite E. destruct (Hjob job E) as (E1 & E2 & E3).
  destruct job as [n e p]. cbn [nodes elems props] in E1, E2, E3. subst.
  reflexivity.
Defined.

(** ** Writing a table *)

Lemma write_row_join (format_fixed : Z -> R -> list ascii) (precision : Z)
    (delimiter : list ascii) (row : list R) : forall j num_cols output_file,
  (0 <= j)%Z -> num_cols = (j + Z.of_nat (length row))%Z -> (num_cols < 2 ^ 64)%Z ->
  write_row format_fixed precision delimiter row j num_cols output_file =
  output_file ++ join delimiter (map (format_fixed precision) row).
Proof.
  induction row as [|x rest IH]; intros j num_cols out Hj Hn Hmax.
  - cbn. now rewrite app_nil_r.
  - cbn [write_row map]. cbn [length] in Hn.
    rewrite (Z.mod_small (num_cols - 1)) by lia.
    rewrite (IH (j + 1)%Z num_cols) by lia.
    destruct rest as [|y rest].
    + cbn [length] in Hn. destruct (Z.ltb_spec j (num_cols - 1)); [lia|].
      cbn [map join]. now rewrite app_nil_r.
    + cbn [length] in Hn. destruct (Z.ltb_spec j (num_cols - 1)); [|lia].
      cbn [map join]. now rewrite <- !app_assoc.
Qed.

Lemma write_rows_concat (format_fixed : Z -> R -> list ascii) (precision : Z)
    (delimiter : list ascii) (data : list (list R)) :
  Forall (fun row => (Z.of_nat (length row) < 2 ^ 64)%Z) data ->
  forall output_file,
    write_rows format_fixed precision delimiter data output_file =
    output_file ++
    concat (map (fun row => join delimiter (map (format_fixed precision) row)
                            ++ ["010"%char]) data).
Proof.
  induction 1 as [|row rest Hrow _ IH]; intros out.
  - cbn. now rewrite app_nil_r.
  - cbn [write_rows map concat]. cbv zeta.
    rewrite write_row_join by lia. rewrite IH. now rewrite <- !app_assoc.
Qed.

(** X20. [CSVParser::write] on a file that opens: the file holds one line per
    row, in order; a line is the entries of the row in fixed notation,
    the delimiter between two entries and none after the last, then a
    newline. A row without entries gives an empty line. *)
Theorem write_lines :
  forall (format_fixed : Z -> R -> list ascii) (is_open : string -> bool)
         (filename : string) (data : list (list R)) (precision : Z)
         (delimiter : list ascii),
    is_open filename = true ->
    Forall (fun row => (Z.of_nat (length row) < 2 ^ 64)%Z) data ->
    write format_fixed is_open filename data precision delimiter =
    Ok (concat (map (fun row => join delimiter (map (format_fixed precision) row)
                                ++ ["010"%char]) data)).
Proof.
  intros format_fixed is_open filename data precision delimiter Hopen Hrows.
  unfold write. rewrite Hopen. cbn [negb]. f_equal.
  now rewrite write_rows_concat.
Qed.

Lemma write_lines_witness :
  let format_fixed := fun (_ : Z) (x : R) => ["x"%char] in
  let is_open := fun _ : string => true in
  write format_fixed is_open "out.csv" [[1; 2; 3]; []; [4]] 14 [","%char] =
  Ok ["x"; ","; "x"; ","; "x"; "010"; "010"; "x"; "010"]%char.
Proof.
  intros format_fixed is_open.
  refine (@write_lines format_fixed is_open "out.csv"%string [[1; 2; 3]; []; [4]] 14
            [","%char] eq_refl _).
  repeat constructor.
Defined.

(** ** Reading boundary conditions, forces and ties *)

Lemma createBCVec_loop_ok (u : R -> Z) (rows : list (list R)) : forall i,
  Forall (fun row => length row = 3%nat) rows ->
  createBCVec_loop u i rows = Ok (map (bc_of_row u) rows).
Proof.
  induction rows as [|row rest IH]; intros i H; [reflexivity|].
  inversion H as [|? ? Hrow Hrest]; subst.
  destruct row as [|x [|y [|z [|w row]]]]; try discriminate.
  cbn [createBCVec_loop map]. now rewrite (IH (S i) Hrest).
Qed.

Lemma createBCVec_loop_bad (u : R -> Z) (good : list (list R)) : forall i bad rest,
  Forall (fun row => length row = 3%nat) good ->
  length bad <> 3%nat ->
  createBCVec_loop u i (good ++ bad :: rest) = Throw (BadRow "bcs" (i + length good)).
Proof.
  induction good as [|row good IH]; intros i bad rest H Hbad.
  - cbn [app length createBCVec_loop]. rewrite Nat.add_0_r.
    destruct bad as [|x [|y [|z [|w bad]]]]; try reflexivity. now cbn in Hbad.
  - inversion H as [|? ? Hrow Hgood]; subst.
    destruct row as [|x [|y [|z [|w row]]]]; try discriminate.
    cbn [app length createBCVec_loop]. rewrite (IH (S i) bad rest Hgood Hbad).
    f_equal. f_equal. lia.
Qed.

(** X22. [createBCVecFromJSON] on a table that was read: a table without rows
    is an error; when every row has three entries it returns one boundary
    condition per row, node and degree of freedom converted to unsigned
    integers; otherwise it throws the error of the first row that has not
    three entries, by its index. *)
Theorem createBCVecFromJSON_rows :
  forall (parse_double : string -> Parsed R) (to_unsigned : R -> Z)
         (config_doc : Document) (filename : string) (data : list (list R)),
    config_doc "bcs"%string = Some (JsonString filename) ->
    parse_double filename = Rows data ->
    (data = [] ->
     createBCVecFromJSON parse_double to_unsigned config_doc = Throw (NoData "bcs")) /\
    (data <> [] ->
     Forall (fun row => length row = 3%nat) data ->
     createBCVecFromJSON parse_double to_unsigned config_doc =
     Ok (map (bc_of_row to_unsigned) data)) /\
    (forall good bad rest,
       data = good ++ bad :: rest ->
       Forall (fun row => length row = 3%nat) good ->
       length bad <> 3%nat ->
       createBCVecFromJSON parse_double to_unsigned config_doc =
       Throw (BadRow "bcs" (length good))).
Proof.
  intros parse_double to_unsigned config_doc filename data Hdoc Hfile.
  unfold createBCVecFromJSON, createVectorFromJSON. rewrite Hdoc, Hfile.
  split; [intros ->; reflexivity|]. split.
  - intros Hne Hall. destruct data; [contradiction|]. cbn [length Nat.eqb].
    now apply createBCVec_loop_ok.
  - intros good bad rest -> Hgood Hbad.
    rewrite length_app. cbn [length]. rewrite Nat.add_succ_r. cbn [Nat.eqb].
    exact (@createBCVec_loop_bad to_unsigned good 0 bad rest Hgood Hbad).
Qed.

Lemma createBCVecFromJSON_rows_witness :
  let parse_double := fun _ : string => Rows [[0; 1; 0]; [3; 1; 1 / 2]] in
  let to_unsigned := fun x : R => Int_part x in
  let config_doc := fun v : string =>
    if String.eqb v "bcs" then Some (JsonString "bcs.csv") else None in
  createBCVecFromJSON parse_double to_unsigned config_doc =
  Ok [mkBC (Int_part 0) (Int_part 1) 0; mkBC (Int_part 3) (Int_part 1) (1 / 2)].
Proof.
  intros parse_double to_unsigned config_doc.
  refine (proj1 (proj2 (@createBCVecFromJSON_rows parse_double to_unsigned config_doc
                          "bcs.csv"%string [[0; 1; 0]; [3; 1; 1 / 2]]
                          eq_refl eq_refl)) _ _).
  - discriminate.
  - repeat constructor.
Defined.

Lemma createForceVec_loop_ok (u : R -> Z) (rows : list (list R)) : forall i,
  Forall (fun row => length row = 3%nat) rows ->
  createForceVec_loop u i rows = Ok (map (force_of_row u) rows).
Proof.
  induction rows as [|row rest IH]; intros i H; [reflexivity|].
  inversion H as [|? ? Hrow Hrest]; subst.
  destruct row as [|x [|y [|z [|w row]]]]; try discriminate.
  cbn [createForceVec_loop map]. now rewrite (IH (S i) Hrest).
Qed.

Lemma createForceVec_loop_bad (u : R -> Z) (good : list (list R)) : forall i bad rest,
  Forall (fun row => length row = 3%nat) good ->
  length bad <> 3%nat ->
  createForceVec_loop u i (good ++ bad :: rest) =
  Throw (BadRow "forces" (i + length good)).
Proof.
  induction good as [|row good IH]; intros i bad rest H Hbad.
  - cbn [app length createForceVec_loop]. rewrite Nat.add_0_r.
    destruct bad as [|x [|y [|z [|w bad]]]]; try reflexivity. now cbn in Hbad.
  - inversion H as [|? ? Hrow Hgood]; subst.
    destruct row as [|x [|y [|z [|w row]]]]; try discriminate.
    cbn [app length createForceVec_loop]. rewrite (IH (S i) bad rest Hgood Hbad).
    f_equal. f_equal. lia.
Qed.

(** X23. [createForceVecFromJSON] on a table that was read: a table without
    rows is an error; when every row has three entries it returns one force
    per row; otherwise it throws the error of the first row that has not
    three entries, by its index. *)
Theorem createForceVecFromJSON_rows :
  forall (parse_double : string -> Parsed R) (to_unsigned : R -> Z)
         (config_doc : Document) (filename : string) (data : list (list R)),
    config_doc "forces"%string = Some (JsonString filename) ->
    parse_double filename = Rows data ->
    (data = [] ->
     createForceVecFromJSON parse_double to_unsigned config_doc =
     Throw (NoData "forces")) /\
    (data <> [] ->
     Forall (fun row => length row = 3%nat) data ->
     createForceVecFromJSON parse_double to_unsigned config_doc =
     Ok (map (force_of_row to_unsigned) data)) /\
    (forall good bad rest,
       data = good ++ bad :: rest ->
       Forall (fun row => length row = 3%nat) good ->
       length bad <> 3%nat ->
       createForceVecFromJSON parse_double to_unsigned config_doc =
       Throw (BadRow "forces" (length good))).
Proof.
  intros parse_double to_unsigned config_doc filename data Hdoc Hfile.
  unfold createForceVecFromJSON, createVectorFromJSON. rewrite Hdoc, Hfile.
  split; [intros ->; reflexivity|]. split.
  - intros Hne Hall. destruct data; [contradiction|]. cbn [length Nat.eqb].
    now apply createForceVec_loop_ok.
  - intros good bad rest -> Hgood Hbad.
    rewrite length_app. cbn [length]. rewrite Nat.add_succ_r. cbn [Nat.eqb].
    exact (@createForceVec_loop_bad to_unsigned good 0 bad rest Hgood Hbad).
Qed.

Lemma createForceVecFromJSON_rows_witness :
  let parse_double := fun _ : string => Rows (@nil (list R)) in
  let to_unsigned := fun x : R => Int_part x in
  let config_doc := fun v : string =>
    if String.eqb v "forces" then Some (JsonString "forces.csv") else None in
  createForceVecFromJSON parse_double to_unsigned config_doc = Throw (NoData "forces").
Proof.
  intros parse_double to_unsigned config_doc.
  exact (proj1 (@createForceVecFromJSON_rows parse_double to_unsigned config_doc
                  "forces.csv"%string [] eq_refl eq_refl) eq_refl).
Defined.

Lemma createTieVec_loop_ok (u : R -> Z) (rows : list (list R)) : forall i,
  Forall (fun row => length row = 4%nat) rows ->
  createTieVec_loop u i rows = Ok (map (tie_of_row u) rows).
Proof.
  induction rows as [|row rest IH]; intros i H; [reflexivity|].
  inversion H as [|? ? Hrow Hrest]; subst.
  destruct row as [|x [|y [|z [|w [|v row]]]]]; try discriminate.
  cbn [createTieVec_loop map]. now rewrite (IH (S i) Hrest).
Qed.

Lemma createTieVec_loop_bad (u : R -> Z) (good : list (list R)) : forall i bad rest,
  Forall (fun row => length row = 4%nat) good ->
  length bad <> 4%nat ->
  createTieVec_loop u i (good ++ bad :: rest) = Throw (BadRow "ties" (i + length good)).
Proof.
  induction good as [|row good IH]; intros i bad rest H Hbad.
  - cbn [app length createTieVec_loop]. rewrite Nat.add_0_r.
    destruct bad as [|x [|y [|z [|w [|v bad]]]]]; try reflexivity. now cbn in Hbad.
  - inversion H as [|? ? Hrow Hgood]; subst.
    destruct row as [|x [|y [|z [|w [|v row]]]]]; try discriminate.
    cbn [app length createTieVec_loop]. rewrite (IH (S i) bad rest Hgood Hbad).
    f_equal. f_equal. lia.
Qed.

(** X24. [createTieVecFromJSON] on a table that was read: a table without rows
    is an error; when every row has four entries it returns one tie per
    row; otherwise it throws the error of the first row that has not four
    entries, by its index. *)
Theorem createTieVecFromJSON_rows :
  forall (parse_double : string -> Parsed R) (to_unsigned : R -> Z)
         (config_doc : Document) (filename : string) (data : list (list R)),
    config_doc "ties"%string = Some (JsonString filename) ->
    parse_double filename = Rows data ->
    (data = [] ->
     createTieVecFromJSON parse_double to_unsigned config_doc = Throw (NoData "ties")) /\
    (data <> [] ->
     Forall (fun row => length row = 4%nat) data ->
     createTieVecFromJSON parse_double to_unsigned config_doc =
     Ok (map (tie_of_row to_unsigned) data)) /\
    (forall good bad rest,
       data = good ++ bad :: rest ->
       Forall (fun row => length row = 4%nat) good ->
       length bad <> 4%nat ->
       createTieVecFromJSON parse_double to_unsigned config_doc =
       Throw (BadRow "ties" (length good))).
Proof.
  intros parse_double to_unsigned config_doc filename data Hdoc Hfile.
  unfold createTieVecFromJSON, createVectorFromJSON. rewrite Hdoc, Hfile.
  split; [intros ->; reflexivity|]. split.
  - intros Hne Hall. destruct data; [contradiction|]. cbn [length Nat.eqb].
    now apply createTieVec_loop_ok.
  - intros good bad rest -> Hgood Hbad.
    rewrite length_app. cbn [length]. rewrite Nat.add_succ_r. cbn [Nat.eqb].
    exact (@createTieVec_loop_bad to_unsigned good 0 bad rest Hgood Hbad).
Qed.

Lemma createTieVecFromJSON_rows_witness :
  let parse_double := fun _ : string => Rows [[1; 2; 100; 100]; [2; 3; 100]] in
  let to_unsigned := fun x : R => Int_part x in
  let config_doc := fun v : string =>
    if String.eqb v "ties" then Some (JsonString "ties.csv") else None in
  createTieVecFromJSON parse_double to_unsigned config_doc = Throw (BadRow "ties" 1).
Proof.
  intros parse_double to_unsigned config_doc.
  refine (proj2 (proj2 (@createTieVecFromJSON_rows parse_double to_unsigned config_doc
                          "ties.csv"%string [[1; 2; 100; 100]; [2; 3; 100]]
                          eq_refl eq_refl))
                [[1; 2; 100; 100]] [2; 3; 100] [] eq_refl _ _).
  - repeat constructor.
  - cbn. lia.
Defined.

(** ** The matrices the assembler keeps between elements *)

(** X21. The assembler reuses its four matrices from one element to the next
    and [calcKelem] assigns only some of their entries; still, what it
    leaves for an element does not depend on the elements processed
    before: from any two assemblers in the state the constructor and the
    kernel produce, the four matrices come out the same. *)
Theorem calcKelem_history_independent :
  forall st1 st2 i job st1',
    clean st1 -> clean st2 ->
    calcKelem st1 i job = Some st1' ->
    exists st2',
      calcKelem st2 i job = Some st2' /\
      clean st1' /\
      forall r c,
        Kelem st1' r c = Kelem st2' r c /\
        Klocal st1' r c = Klocal st2' r c /\
        Aelem st1' r c = Aelem st2' r c /\
        AelemT st1' r c = AelemT st2' r c.
Proof.
  intros st1 st2 i job st1' Hc1 Hc2 H.
  pose proof (@clean_calcKelem st1 i job st1' Hc1 H) as Hc1'.
  destruct (calcKelem_inv _ _ _ H) as (pr & nn1 & nn2 & p1 & p2 & Ep & Ee & E1 & E2 & ->).
  unfold calcKelem. rewrite Ep, Ee, E1, E2. eexists. split; [reflexivity|].
  split; [exact Hc1'|].
  destruct Hc1 as [HK1 HA1 HT1]. destruct Hc2 as [HK2 HA2 HT2].
  assert (EK : forall r c,
            assign (Klocal st1)
              (Klocal_writes (EA pr) (EIz pr) (EIy pr) (GJ pr) (norm p1 p2)) r c =
            assign (Klocal st2)
              (Klocal_writes (EA pr) (EIz pr) (EIy pr) (GJ pr) (norm p1 p2)) r c)
    by (intros r c; now rewrite !Klocal_assigned).
  intros r c. cbn [Kelem Klocal Aelem AelemT calcAelem].
  split; [|split; [apply EK|split]].
  - apply mmul_ext; [apply mmul_ext|]; intros a b.
    + now rewrite !AelemT_assigned.
    + apply EK.
    + now rewrite !Aelem_assigned.
  - now rewrite !Aelem_assigned.
  - now rewrite !AelemT_assigned.
Qed.

Lemma calcKelem_history_independent_witness :
  exists st1 st1' st2',
    calcKelem GlobalStiffAssembler_new 2 JOB_L_BRACKET = Some st1 /\
    calcKelem st1 0 JOB_L_BRACKET = Some st1' /\
    calcKelem GlobalStiffAssembler_new 0 JOB_L_BRACKET = Some st2' /\
    forall r c, Kelem st1' r c = Kelem st2' r c.
Proof.
  assert (E1 : exists st1, calcKelem GlobalStiffAssembler_new 2 JOB_L_BRACKET = Some st1)
    by (eexists; reflexivity).
  destruct E1 as [st1 E1].
  assert (E0 : exists st1', calcKelem st1 0 JOB_L_BRACKET = Some st1')
    by (eexists; reflexivity).
  destruct E0 as [st1' E0].
  destruct (@calcKelem_history_independent st1 GlobalStiffAssembler_new 0%nat
              JOB_L_BRACKET st1' (@clean_calcKelem _ _ _ _ clean_new E1) clean_new E0)
    as (st2' & E2 & _ & Heq).
  exists st1, st1', st2'. repeat split; try assumption. apply Heq.
Defined.

(** ** Errors of [createElemVecFromJSON] *)

Lemma createElemVec_loop_bad (ge : list (list Z)) :
  forall (gp : list (list R)) j erow prow re rp,
    length ge = length gp ->
    Forall (fun row => length row = 2%nat) ge ->
    Forall (fun row => length row = 7%nat) gp ->
    (length erow <> 2%nat ->
     createElemVec_loop j (combine (ge ++ erow :: re) (gp ++ prow :: rp)) =
     Throw (BadRow "elems" (j + length ge))) /\
    (length erow = 2%nat -> length prow <> 7%nat ->
     createElemVec_loop j (combine (ge ++ erow :: re) (gp ++ prow :: rp)) =
     Throw (BadRow "props" (j + length ge))).
Proof.
  induction ge as [|e ge IH]; intros gp j erow prow re rp Hlen He Hp.
  - destruct gp; [|discriminate]. cbn [app combine length createElemVec_loop].
    rewrite Nat.add_0_r. split.
    + intros Hbad. destruct erow as [|n1 [|n2 [|n3 erow]]]; try reflexivity.
      now cbn in Hbad.
    + intros Hgood Hbad. destruct erow as [|n1 [|n2 [|n3 erow]]]; try discriminate.
      destruct prow as [|p0 [|p1 [|p2 [|p3 [|p4 [|p5 [|p6 [|p7 prow]]]]]]]];
        try reflexivity.
      now cbn in Hbad.
  - destruct gp as [|p gp]; [discriminate|]. cbn [length] in Hlen.
    inversion He as [|? ? He0 He']; subst. inversion Hp as [|? ? Hp0 Hp']; subst.
    destruct e as [|n1 [|n2 [|n3 e]]]; try discriminate.
    destruct p as [|p0 [|p1 [|p2 [|p3 [|p4 [|p5 [|p6 [|p7 p]]]]]]]]; try discriminate.
    destruct (IH gp (S j) erow prow re rp ltac:(lia) He' Hp') as [B1 B2].
    cbn [app combine length createElemVec_loop].
    replace (j + S (length ge))%nat with (S j + length ge)%nat by lia.
    split.
    + intros Hbad. now rewrite (B1 Hbad).
    + intros Hgood Hbad. now rewrite (B2 Hgood Hbad).
Qed.

(** X25. The errors of [createElemVecFromJSON] on two tables that were read and
    have rows: different numbers of rows are reported before any row is
    looked at; otherwise the error is that of the first row index at which
    the elems row has not 2 entries or the props row has not 7, and at
    that index the elems row is looked at first. *)
Theorem createElemVecFromJSON_errors :
  forall (parse_double : string -> Parsed R) (parse_unsigned : string -> Parsed Z)
         (config_doc : Document) (fe fp : string)
         (ed : list (list Z)) (pd : list (list R)),
    config_doc "elems"%string = Some (JsonString fe) -> parse_unsigned fe = Rows ed ->
    config_doc "props"%string = Some (JsonString fp) -> parse_double fp = Rows pd ->
    ed <> [] -> pd <> [] ->
    (length ed <> length pd ->
     createElemVecFromJSON parse_double parse_unsigned config_doc =
     Throw RowCountMismatch) /\
    (forall ge erow re gp prow rp,
       ed = ge ++ erow :: re -> pd = gp ++ prow :: rp ->
       length ed = length pd -> length ge = length gp ->
       Forall (fun row => length row = 2%nat) ge ->
       Forall (fun row => length row = 7%nat) gp ->
       (length erow <> 2%nat ->
        createElemVecFromJSON parse_double parse_unsigned config_doc =
        Throw (BadRow "elems" (length ge))) /\
       (length erow = 2%nat -> length prow <> 7%nat ->
        createElemVecFromJSON parse_double parse_unsigned config_doc =
        Throw (BadRow "props" (length ge)))).
Proof.
  intros parse_double parse_unsigned config_doc fe fp ed pd He Hef Hp Hpf Hne Hnp.
  assert (E : createElemVecFromJSON parse_double parse_unsigned config_doc =
              if negb (length ed =? length pd)%nat then Throw RowCountMismatch
              else createElemVec_loop 0 (combine ed pd)).
  { unfold createElemVecFromJSON, createVectorFromJSON.
    rewrite He, Hef, Hp, Hpf.
    destruct ed; [contradiction|]. destruct pd; [contradiction|]. reflexivity. }
  rewrite E. split.
  - intros Hlen. apply Nat.eqb_neq in Hlen. now rewrite Hlen.
  - intros ge erow re gp prow rp Ee Ep Hlen Hg Hge Hgp.
    rewrite (proj2 (Nat.eqb_eq _ _) Hlen). cbn [negb]. rewrite Ee, Ep.
    exact (@createElemVec_loop_bad ge gp 0 erow prow re rp Hg Hge Hgp).
Qed.

Lemma createElemVecFromJSON_errors_witness :
  let parse_double := fun _ : string =>
    Rows [[1; 1; 1; 1; 0; 0; 1]; [1; 1; 1; 1; 0; 1]] in
  let parse_unsigned := fun _ : string => Rows [[0; 1]%Z; [1; 2]%Z] in
  let config_doc := fun v : string =>
    if String.eqb v "elems" then Some (JsonString "elems.csv")
    else if String.eqb v "props" then Some (JsonString "props.csv")
    else None in
  createElemVecFromJSON parse_double parse_unsigned config_doc =
  Throw (BadRow "props" 1).
Proof.
  intros parse_double parse_unsigned config_doc.
  refine (proj2 (proj2 (@createElemVecFromJSON_errors parse_double parse_unsigned
                          config_doc "elems.csv"%string "props.csv"%string
                          [[0; 1]%Z; [1; 2]%Z]
                          [[1; 1; 1; 1; 0; 0; 1]; [1; 1; 1; 1; 0; 1]]
                          eq_refl eq_refl eq_refl eq_refl _ _)
                 [[0; 1]%Z] [1; 2]%Z [] [[1; 1; 1; 1; 0; 0; 1]] [1; 1; 1; 1; 0; 1] []
                 eq_refl eq_refl eq_refl eq_refl _ _) eq_refl _).
  - discriminate.
  - discriminate.
  - repeat constructor.
  - repeat constructor.
  - cbn. lia.
Defined.
